(** * 3D-Cadastre mesh repair scripts: a shallow embedding

    The repository holds four Python scripts that repair a CityJSON mesh:

    - [cleaner.py]          welds near-duplicate vertices (string keys) and
                            rewrites every index of the nested boundaries;
    - [fix.py]              filters degenerate pre-triangulated faces;
    - [fix_triangles.py]    welds vertices (tuple keys), remaps the nested
                            boundaries recursively and prunes degenerate rings;
    - [repair_geometry.py]  welds vertices (string keys), remaps faces and
                            re-triangulates them with an ear-clipping library.

    Each script is embedded as pure functions over the data it receives from
    [json.load]: numbers are Python [int]s or binary64 [float]s, lists are
    lists, a [dict] is a finite map, and a raised exception is a value of an
    error monad. *)

From stdpp Require Import gmap strings list fin_maps pretty.
From Stdlib Require Import ZArith SpecFloat.

Open Scope Z_scope.

(** ** Exceptions and the error monad *)

Inductive exn : Set :=
  | KeyError
  | IndexError
  | TypeError
  | ValueError
  | OverflowError.

Inductive result (A : Type) : Type :=
  | Ok (a : A)
  | Raise (e : exn).

Arguments Ok {A} a.
Arguments Raise {A} e.

Definition bind {A B : Type} (r : result A) (k : A -> result B) : result B :=
  match r with
  | Ok a => k a
  | Raise e => Raise e
  end.

Notation "x <- r ;; k" := (bind r (fun x => k))
  (at level 100, r at next level, right associativity).

(** [[f(x) for x in l]] with an [f] that may raise: the first exception
    stops the loop. *)
Definition mapM {A B : Type} (f : A -> result B) : list A -> result (list B) :=
  fix go (l : list A) : result (list B) :=
    match l with
    | [] => Ok []
    | x :: l' => y <- f x ;; ys <- go l' ;; Ok (y :: ys)
    end.

(** A loop that appends [f(x)] to its output unless it is [None]. *)
Definition collectM {A B : Type} (f : A -> result (option B))
    : list A -> result (list B) :=
  fix go (l : list A) : result (list B) :=
    match l with
    | [] => Ok []
    | x :: l' =>
        r <- f x ;; rs <- go l' ;;
        Ok (match r with Some y => y :: rs | None => rs end)
    end.

Definition is_ok {A : Type} (r : result A) : bool :=
  match r with Ok _ => true | Raise _ => false end.

(** Python's [seq[i]] on a list: a negative index counts from the end, an
    index outside [-len, len) raises [IndexError]. *)
Definition py_index {A : Type} (l : list A) (i : Z) : result A :=
  let n := Z.of_nat (length l) in
  let j := if i <? 0 then i + n else i in
  if (j <? 0) || (n <=? j) then Raise IndexError
  else match l !! Z.to_nat j with
       | Some x => Ok x
       | None => Raise IndexError
       end.

(** ** Python numbers

    [json.load] yields an [int] for a literal without fraction or exponent and
    a binary64 [float] otherwise. Floats are [spec_float] at precision 53 and
    maximal exponent 1024, with the IEEE operations of the standard library
    for [+], [-] and [*]; [**] goes through [pow] of the C library. *)

Module PyNum.

Definition prec : Z := 53.
Definition emax : Z := 1024.

Abbreviation float := spec_float.

Inductive num : Set :=
  | PyInt (z : Z)
  | PyFloat (f : float).

Definition fadd : float -> float -> float := SFadd prec emax.
Definition fsub : float -> float -> float := SFsub prec emax.
Definition fmul : float -> float -> float := SFmul prec emax.

(** The binary64 nearest to [n / d] (ties to even), for [0 <= n] and [0 < d]. *)
Definition ratio_to_float (s : bool) (n d : Z) : float :=
  let '(q, e, l) := SFdiv_core_binary prec emax n 0 d 0 in
  binary_round_aux prec emax s q e l.

(** The binary64 nearest to [digits * 10 ^ e10]: what [float("...")] and
    [json.load] compute for a decimal literal. *)
Definition strtod (s : bool) (digits : Z) (e10 : Z) : float :=
  if 0 <=? e10 then ratio_to_float s (digits * 10 ^ e10) 1
  else ratio_to_float s digits (10 ^ (- e10)).

Definition float_lit (digits : Z) (e10 : Z) : float :=
  strtod (digits <? 0) (Z.abs digits) e10.

(** [float(z)] for an [int]: nearest binary64, [OverflowError] when the
    rounded magnitude is not finite. *)
Definition int_to_float (z : Z) : result float :=
  match binary_normalize prec emax z 0 false with
  | S754_infinity _ => Raise OverflowError
  | f => Ok f
  end.

Definition to_float (x : num) : result float :=
  match x with
  | PyInt z => int_to_float z
  | PyFloat f => Ok f
  end.

(** *** [round(x, ndigits)] with [ndigits >= 0] *)

Definition div_half_even (a b : Z) : Z :=
  let q := a / b in
  let r := a mod b in
  match 2 * r ?= b with
  | Lt => q
  | Gt => q + 1
  | Eq => if Z.even q then q else q + 1
  end.

(** [float.__round__]: non-finite values and more than 323 digits return the
    argument; otherwise the exact value is rounded half-even to [ndigits]
    decimals and the decimal is converted back to the nearest binary64. *)
Definition float_round (x : float) (ndigits : nat) : float :=
  match x with
  | S754_finite s m e =>
      let nd := Z.of_nat ndigits in
      if 323 <? nd then x
      else
        let q := if 0 <=? e then Zpos m * 2 ^ e * 10 ^ nd
                 else div_half_even (Zpos m * 10 ^ nd) (2 ^ (- e)) in
        strtod s q (- nd)
  | _ => x
  end.

(** [int.__round__] with [ndigits >= 0] returns the integer itself. *)
Definition py_round (x : num) (ndigits : nat) : num :=
  match x with
  | PyInt z => PyInt z
  | PyFloat f => PyFloat (float_round f ndigits)
  end.

(** *** Comparisons

    Python compares numbers by their exact mathematical value, also across
    [int] and [float]; a NaN is unordered and unequal to everything. *)

Inductive xval : Set :=
  | XNaN
  | XNegInf
  | XFin (m : Z) (e : Z)      (* m * 2 ^ e *)
  | XPosInf.

Definition float_xval (f : float) : xval :=
  match f with
  | S754_zero _ => XFin 0 0
  | S754_infinity s => if s then XNegInf else XPosInf
  | S754_nan => XNaN
  | S754_finite s m e => XFin (if s then Zneg m else Zpos m) e
  end.

Definition xval_of (x : num) : xval :=
  match x with
  | PyInt z => XFin z 0
  | PyFloat f => float_xval f
  end.

Definition fin_compare (m1 e1 m2 e2 : Z) : comparison :=
  let e := Z.min e1 e2 in
  (m1 * 2 ^ (e1 - e)) ?= (m2 * 2 ^ (e2 - e)).

Definition xcompare (a b : xval) : option comparison :=
  match a, b with
  | XNaN, _ | _, XNaN => None
  | XNegInf, XNegInf => Some Eq
  | XNegInf, _ => Some Lt
  | _, XNegInf => Some Gt
  | XPosInf, XPosInf => Some Eq
  | XPosInf, _ => Some Gt
  | _, XPosInf => Some Lt
  | XFin m1 e1, XFin m2 e2 => Some (fin_compare m1 e1 m2 e2)
  end.

Definition num_compare (a b : num) : option comparison :=
  xcompare (xval_of a) (xval_of b).

Definition num_eqb (a b : num) : bool :=
  match num_compare a b with Some Eq => true | _ => false end.
Definition num_ltb (a b : num) : bool :=
  match num_compare a b with Some Lt => true | _ => false end.
Definition num_gtb (a b : num) : bool :=
  match num_compare a b with Some Gt => true | _ => false end.
Definition num_geb (a b : num) : bool :=
  match num_compare a b with Some Gt | Some Eq => true | _ => false end.

(** *** Arithmetic

    [int] with [int] is exact; as soon as one operand is a [float] the other
    is converted with [float(...)] and the IEEE operation is applied. *)

Definition num_binop (fi : Z -> Z -> Z) (ff : float -> float -> float)
    (a b : num) : result num :=
  match a, b with
  | PyInt x, PyInt y => Ok (PyInt (fi x y))
  | _, _ => fa <- to_float a ;; fb <- to_float b ;; Ok (PyFloat (ff fa fb))
  end.

Definition num_add : num -> num -> result num := num_binop Z.add fadd.
Definition num_sub : num -> num -> result num := num_binop Z.sub fsub.
Definition num_mul : num -> num -> result num := num_binop Z.mul fmul.

(** *** [x ** 2]

    [int ** int] is exact. [float ** 2] is CPython's [float_pow] with the
    exponent converted to [2.0]: it answers nan, the infinities, the zeros
    and a base of magnitude one itself, and passes every other base, made
    positive, to [pow] of the C library, whose result and [errno] it then
    inspects. The C library is not part of the repository and its [pow]
    need not round correctly: [pow(x, 2.0)] together with the [errno] it
    leaves is a parameter of the model. *)

Inductive errno : Set :=
  | ENONE     (* errno == 0 *)
  | ERANGE
  | EOTHER.   (* any other value *)

Class Libm : Type := { pow2 : float -> float * errno }.

(** [_Py_ADJUST_ERANGE1(x)] *)
Definition adjust_erange (x : float) (e : errno) : errno :=
  match e, x with
  | ENONE, S754_infinity _ => ERANGE
  | ERANGE, S754_zero _ => ENONE
  | _, _ => e
  end.

(** [float_pow(v, 2.0)] *)
Definition float_sq `{Libm} (iv : float) : result float :=
  match iv with
  | S754_nan => Ok S754_nan
  | S754_infinity _ => Ok (S754_infinity false)
  | S754_zero _ => Ok (S754_zero false)
  | S754_finite _ m e =>
      let iv := S754_finite false m e in
      if num_eqb (PyFloat iv) (PyInt 1) then Ok (float_lit 1 0)
      else
        let '(ix, err) := pow2 iv in
        match adjust_erange ix err with
        | ENONE => Ok ix
        | ERANGE => Raise OverflowError
        | EOTHER => Raise ValueError
        end
  end.

Definition num_sq `{Libm} (a : num) : result num :=
  match a with
  | PyInt x => Ok (PyInt (x * x))
  | PyFloat f => r <- float_sq f ;; Ok (PyFloat r)
  end.

(** [int(x)]: truncation toward zero; [int(nan)] raises [ValueError] and
    [int(inf)] raises [OverflowError]. *)
Definition py_int (a : num) : result Z :=
  match a with
  | PyInt x => Ok x
  | PyFloat (S754_zero _) => Ok 0
  | PyFloat S754_nan => Raise ValueError
  | PyFloat (S754_infinity _) => Raise OverflowError
  | PyFloat (S754_finite s m e) =>
      let a := if 0 <=? e then Zpos m * 2 ^ e else Zpos m / 2 ^ (- e) in
      Ok (if s then - a else a)
  end.

Definition num_abs (a : num) : num :=
  match a with
  | PyInt x => PyInt (Z.abs x)
  | PyFloat f => PyFloat (SFabs f)
  end.

(** *** [str(x)]

    [str] of an [int] is its decimal numeral. [str] of a [float] is the
    shortest decimal numeral that converts back to the same binary64 (the
    one closest to the exact value when several have that length), printed
    in positional notation when the decimal point position is in (-4, 16]
    and in exponent notation otherwise. *)

Definition float_same (a b : float) : bool :=
  match a, b with
  | S754_zero s1, S754_zero s2 => Bool.eqb s1 s2
  | S754_infinity s1, S754_infinity s2 => Bool.eqb s1 s2
  | S754_nan, S754_nan => true
  | S754_finite s1 m1 e1, S754_finite s2 m2 e2 =>
      Bool.eqb s1 s2 && (m1 =? m2)%positive && (e1 =? e2)
  | _, _ => false
  end.

(** [10 ^ k <= n / d] *)
Definition pow10_le (k n d : Z) : bool :=
  if 0 <=? k then 10 ^ k * d <=? n else d <=? n * 10 ^ (- k).

Fixpoint log10_up (fuel : nat) (k n d : Z) : Z :=
  match fuel with
  | O => k
  | S fuel' => if pow10_le (k + 1) n d then log10_up fuel' (k + 1) n d else k
  end.

(** [floor (log10 (n / d))], from a lower estimate through [log2]. *)
Definition floor_log10 (n d : Z) : Z :=
  let L := Z.log2 n - Z.log2 d in
  log10_up 8 ((L - 1) * 30103 / 100000 - 1) n d.

(** The [nd]-digit decimal [c * 10 ^ ex] that converts back to [x], if one
    exists; [n / d] is the exact value of [x] and [k] its decimal exponent. *)
Definition shortest_try (x : float) (n d k nd : Z) : option (Z * Z) :=
  let ex := k - nd + 1 in
  let '(a, b) := if 0 <=? ex then (n, d * 10 ^ ex) else (n * 10 ^ (- ex), d) in
  let lo := a / b in
  let r := a mod b in
  let back c := float_same (strtod false c ex) x in
  if r =? 0 then (if back lo then Some (lo, ex) else None)
  else
    let hi := lo + 1 in
    match back lo, back hi with
    | true, true =>
        match 2 * r ?= b with
        | Lt => Some (lo, ex)
        | Gt => Some (hi, ex)
        | Eq => Some (if Z.even lo then lo else hi, ex)
        end
    | true, false => Some (lo, ex)
    | false, true => Some (hi, ex)
    | false, false => None
    end.

Fixpoint shortest_from (fuel : nat) (x : float) (n d k nd : Z) : Z * Z :=
  match fuel with
  | O => (0, 0)
  | S fuel' =>
      match shortest_try x n d k nd with
      | Some r => r
      | None => shortest_from fuel' x n d k (nd + 1)
      end
  end.

Fixpoint strip_zeros (fuel : nat) (c ex : Z) : Z * Z :=
  match fuel with
  | O => (c, ex)
  | S fuel' =>
      if (c mod 10 =? 0) && negb (c =? 0) then strip_zeros fuel' (c / 10) (ex + 1)
      else (c, ex)
  end.

Fixpoint zeros (n : nat) : string :=
  match n with
  | O => EmptyString
  | S n' => String.append "0" (zeros n')
  end.

(** The digits [ds] and the position [decpt] of the decimal point
    ([0.ds * 10 ^ decpt]) laid out as [repr] does. *)
Definition float_layout (ds : string) (decpt : Z) : string :=
  let len := Z.of_nat (String.length ds) in
  if (decpt <=? -4) || (16 <? decpt) then
    let e := decpt - 1 in
    let mant :=
      match ds with
      | String c0 EmptyString => ds
      | String c0 rest => String c0 (String.append "." rest)
      | EmptyString => ds
      end in
    let es := pretty (Z.abs e) in
    let es := if Z.abs e <? 10 then String.append "0" es else es in
    String.append mant (String.append (if e <? 0 then "e-" else "e+") es)
  else if decpt <=? 0 then
    String.append "0." (String.append (zeros (Z.to_nat (- decpt))) ds)
  else if len <=? decpt then
    String.append ds (String.append (zeros (Z.to_nat (decpt - len))) ".0")
  else
    String.append (String.substring 0 (Z.to_nat decpt) ds)
      (String.append "."
         (String.substring (Z.to_nat decpt) (Z.to_nat (len - decpt)) ds)).

Definition float_str (x : float) : string :=
  match x with
  | S754_nan => "nan"
  | S754_infinity s => if s then "-inf" else "inf"
  | S754_zero s => if s then "-0.0" else "0.0"
  | S754_finite s m e =>
      let n := if 0 <=? e then Zpos m * 2 ^ e else Zpos m in
      let d := if 0 <=? e then 1 else 2 ^ (- e) in
      let k := floor_log10 n d in
      let '(c, ex) := shortest_from 17 (S754_finite false m e) n d k 1 in
      let '(c', ex') := strip_zeros 20 c ex in
      let ds := pretty c' in
      let body := float_layout ds (Z.of_nat (String.length ds) + ex') in
      if s then String.append "-" body else body
  end.

Definition num_str (x : num) : string :=
  match x with
  | PyInt z => pretty z
  | PyFloat f => float_str f
  end.

End PyNum.

Import PyNum.

(** A vertex is the JSON array of its coordinates. *)
Abbreviation vertex := (list num).

(** ** A [dict] whose keys are compared with [==]

    A [dict] finds a key by hash and then by [==]; equal numbers hash alike,
    so a lookup returns the entry of the stored key that is [==] to the one
    asked for. Tuples of numbers are not equal as data when they are [==]
    ([0.0 == -0.0], [1 == 1.0]) and need not be [==] when they are equal as
    data (NaN), hence the association list with an explicit test. Entries
    stay in insertion order; assigning to a present key keeps the stored key. *)

Section PyDict.
Context {K V : Type} (eqb : K -> K -> bool).

Fixpoint dict_get (d : list (K * V)) (k : K) : option V :=
  match d with
  | [] => None
  | (k', v) :: d' => if eqb k' k then Some v else dict_get d' k
  end.

Fixpoint dict_set (d : list (K * V)) (k : K) (v : V) : list (K * V) :=
  match d with
  | [] => [(k, v)]
  | (k', v') :: d' =>
      if eqb k' k then (k', v) :: d' else (k', v') :: dict_set d' k v
  end.
End PyDict.

(** [==] on tuples: same length and [==] component by component. *)
Fixpoint tuple_eqb (a b : list num) : bool :=
  match a, b with
  | [], [] => true
  | x :: a', y :: b' => num_eqb x y && tuple_eqb a' b'
  | _, _ => false
  end.

(** ** Nested boundaries

    The [boundaries] of a geometry are JSON arrays nested to any depth whose
    innermost elements are numbers. *)

#[warnings="-register-all"] Inductive boundary : Type :=
  | Num (n : num)
  | Arr (items : list boundary).

Definition int_ring (idxs : list Z) : boundary :=
  Arr (map (fun i => Num (PyInt i)) idxs).

(** ** Vector helpers

    [fix.py] names them [sub], [cross_product] and [length_squared];
    [fix_triangles.py] spells the same expressions inline. A vector is the
    three-element list the code builds. *)

Abbreviation vec3 := (num * num * num)%type.

Definition sub_at (p2 p1 : vertex) (i : Z) : result num :=
  a <- py_index p2 i ;; b <- py_index p1 i ;; num_sub a b.

(** [[p2[0] - p1[0], p2[1] - p1[1], p2[2] - p1[2]]] *)
Definition sub (p2 p1 : vertex) : result vec3 :=
  x <- sub_at p2 p1 0 ;; y <- sub_at p2 p1 1 ;; z <- sub_at p2 p1 2 ;;
  Ok (x, y, z).

(** [a * b - c * d] *)
Definition cross_term (a b c d : num) : result num :=
  ab <- num_mul a b ;; cd <- num_mul c d ;; num_sub ab cd.

Definition cross_product (a b : vec3) : result vec3 :=
  let '(a0, a1, a2) := a in
  let '(b0, b1, b2) := b in
  c0 <- cross_term a1 b2 a2 b1 ;;
  c1 <- cross_term a2 b0 a0 b2 ;;
  c2 <- cross_term a0 b1 a1 b0 ;;
  Ok (c0, c1, c2).

(** [v[0]**2 + v[1]**2 + v[2]**2] *)
Definition length_squared `{Libm} (v : vec3) : result num :=
  let '(v0, v1, v2) := v in
  s0 <- num_sq v0 ;; s1 <- num_sq v1 ;; s01 <- num_add s0 s1 ;;
  s2 <- num_sq v2 ;; num_add s01 s2.

(** [list(dict.fromkeys(l))]: the distinct elements in order of first
    occurrence. *)
Definition unique (l : list Z) : list Z :=
  fold_left (fun acc x => if bool_decide (x ∈ acc) then acc else acc ++ [x]) l [].

(** ** fix_triangles.py, step 1: merging duplicate vertices *)

Module FixTriangles.

Definition VERTEX_PRECISION : nat := 6.

Record weld_state : Type := {
  new_vertices : list vertex;
  vertex_map : list (list num * Z);
  index_remap : gmap Z Z
}.

Definition rounded (precision : nat) (vertex : vertex) : list num :=
  map (fun coord => py_round coord precision) vertex.

(** One iteration of [for old_idx, vertex in enumerate(old_vertices)]. *)
Definition weld_step (precision : nat) (st : weld_state) (old_idx : Z)
    (vertex : vertex) : weld_state :=
  match dict_get tuple_eqb (vertex_map st) (rounded precision vertex) with
  | Some seen =>
      {| new_vertices := new_vertices st;
         vertex_map := vertex_map st;
         index_remap := <[old_idx := seen]> (index_remap st) |}
  | None =>
      let new_idx := Z.of_nat (length (new_vertices st)) in
      {| new_vertices := new_vertices st ++ [vertex];
         vertex_map :=
           dict_set tuple_eqb (vertex_map st) (rounded precision vertex) new_idx;
         index_remap := <[old_idx := new_idx]> (index_remap st) |}
  end.

Fixpoint weld_loop (precision : nat) (old_idx : Z) (old_vertices : list vertex)
    (st : weld_state) : weld_state :=
  match old_vertices with
  | [] => st
  | vertex :: rest =>
      weld_loop precision (old_idx + 1) rest (weld_step precision st old_idx vertex)
  end.

Definition weld (precision : nat) (old_vertices : list vertex) : weld_state :=
  weld_loop precision 0 old_vertices
    {| new_vertices := []; vertex_map := []; index_remap := ∅ |}.

(** *** Step 2: remapping and cleaning *)

Definition area_epsilon : num := PyFloat (float_lit 1 (-16)).

Definition is_degenerate_triangle `{Libm}
    (idx0 idx1 idx2 : Z) (vertices : list vertex)
    : result bool :=
  if (idx0 =? idx1) || (idx1 =? idx2) || (idx0 =? idx2) then Ok true
  else
    let n := Z.of_nat (length vertices) in
    if (n <=? idx0) || (n <=? idx1) || (n <=? idx2) then Ok true
    else
      p0 <- py_index vertices idx0 ;;
      p1 <- py_index vertices idx1 ;;
      p2 <- py_index vertices idx2 ;;
      v1 <- sub p1 p0 ;;
      v2 <- sub p2 p0 ;;
      cross <- cross_product v1 v2 ;;
      area_sq <- length_squared cross ;;
      Ok (num_ltb area_sq area_epsilon).

(** [index_remap[int(idx)]] *)
Definition remap_index (index_remap : gmap Z Z) (idx : boundary) : result Z :=
  match idx with
  | Num n =>
      i <- py_int n ;;
      match index_remap !! i with
      | Some j => Ok j
      | None => Raise KeyError
      end
  | Arr _ => Raise TypeError
  end.

(** The loop that removes consecutive duplicates. *)
Definition remove_consecutive (remapped : list Z) : list Z :=
  fold_left
    (fun cleaned idx =>
       match last cleaned with
       | Some l => if idx =? l then cleaned else cleaned ++ [idx]
       | None => cleaned ++ [idx]
       end)
    remapped [].

(** [if len(cleaned) > 1 and cleaned[0] == cleaned[-1]: cleaned = cleaned[:-1]] *)
Definition remove_closing (cleaned : list Z) : list Z :=
  match head cleaned, last cleaned with
  | Some a, Some b =>
      if (1 <? Z.of_nat (length cleaned)) && (a =? b)
      then take (length cleaned - 1) cleaned
      else cleaned
  | _, _ => cleaned
  end.

Definition clean_ring (remapped : list Z) : list Z :=
  remove_closing (remove_consecutive remapped).

(** The leaf branch of [process_boundary]: [ring] is a list whose first
    element is a number. *)
Definition process_ring `{Libm}
    (index_remap : gmap Z Z) (vertices : list vertex)
    (ring : list boundary) : result (option boundary) :=
  remapped <- mapM (remap_index index_remap) ring ;;
  let cleaned := clean_ring remapped in
  match unique cleaned with
  | [u0; u1; u2] =>
      degenerate <- is_degenerate_triangle u0 u1 u2 vertices ;;
      Ok (if degenerate : bool then None else Some (int_ring remapped))
  | uniq =>
      if Z.of_nat (length uniq) <? 3 then Ok None
      else Ok (Some (int_ring remapped))
  end.

(** [process_boundary(boundary, vertices)]; the counters [total_removed] and
    [total_kept] only feed the printed report and are left out. *)
Fixpoint process_boundary `{Libm}
    (index_remap : gmap Z Z) (vertices : list vertex)
    (b : boundary) {struct b} : result (option boundary) :=
  match b with
  | Num _ => Ok None
  | Arr [] => Ok None
  | Arr ((Num _ :: _) as ring) => process_ring index_remap vertices ring
  | Arr items =>
      processed <- collectM (process_boundary index_remap vertices) items ;;
      Ok (match processed with [] => None | _ => Some (Arr processed) end)
  end.

(** The loop over [geom['boundaries']]. *)
Definition clean_boundaries `{Libm}
    (index_remap : gmap Z Z) (vertices : list vertex)
    (boundaries : list boundary) : result (list boundary) :=
  collectM (process_boundary index_remap vertices) boundaries.

(** The whole pass on the vertex array and the boundaries of one geometry. *)
Definition repair `{Libm} (precision : nat) (old_vertices : list vertex)
    (boundaries : list boundary) : result (list vertex * list boundary) :=
  let st := weld precision old_vertices in
  cleaned <- clean_boundaries (index_remap st) (new_vertices st) boundaries ;;
  Ok (new_vertices st, cleaned).

End FixTriangles.

(** ** cleaner.py and repair_geometry.py: cleaning duplicate vertices

    Both scripts carry the same loop, keyed on the string that joins the
    [str] of the rounded coordinates with an underscore. *)

Module Cleaner.

Definition PRECISION : nat := 5.

Record weld_state : Type := {
  new_vertices : list vertex;
  unique_vertices_map : gmap string Z;
  index_mapping : list Z;
  new_idx_counter : Z
}.

Definition vertex_key (precision : nat) (v : vertex) : string :=
  let rounded_v := map (fun coord => py_round coord precision) v in
  String.concat "_" (map num_str rounded_v).

(** One iteration of [for i, v in enumerate(old_vertices)]; [i] is always
    inside [index_mapping], which was allocated with one slot per vertex. *)
Definition weld_step (precision : nat) (st : weld_state) (i : nat) (v : vertex)
    : weld_state :=
  match unique_vertices_map st !! vertex_key precision v with
  | Some seen =>
      {| new_vertices := new_vertices st;
         unique_vertices_map := unique_vertices_map st;
         index_mapping := <[i := seen]> (index_mapping st);
         new_idx_counter := new_idx_counter st |}
  | None =>
      {| new_vertices := new_vertices st ++ [v];
         unique_vertices_map :=
           <[vertex_key precision v := new_idx_counter st]> (unique_vertices_map st);
         index_mapping := <[i := new_idx_counter st]> (index_mapping st);
         new_idx_counter := new_idx_counter st + 1 |}
  end.

Fixpoint weld_loop (precision : nat) (i : nat) (old_vertices : list vertex)
    (st : weld_state) : weld_state :=
  match old_vertices with
  | [] => st
  | v :: rest => weld_loop precision (S i) rest (weld_step precision st i v)
  end.

Definition weld (precision : nat) (old_vertices : list vertex) : weld_state :=
  weld_loop precision 0 old_vertices
    {| new_vertices := [];
       unique_vertices_map := ∅;
       index_mapping := replicate (length old_vertices) (-1);
       new_idx_counter := 0 |}.

(** [update_boundaries]: lists are entered, an [int] is replaced by
    [index_mapping[item]], anything else is left as it is. The in-place
    update of the nested list is returned as the updated list. *)
Fixpoint update_item (index_mapping : list Z) (item : boundary)
    {struct item} : result boundary :=
  match item with
  | Arr l => l' <- mapM (update_item index_mapping) l ;; Ok (Arr l')
  | Num (PyInt z) => j <- py_index index_mapping z ;; Ok (Num (PyInt j))
  | Num (PyFloat _) => Ok item
  end.

Definition update_boundaries (index_mapping : list Z)
    (boundaries : list boundary) : result (list boundary) :=
  mapM (update_item index_mapping) boundaries.

Definition repair (precision : nat) (old_vertices : list vertex)
    (boundaries : list boundary) : result (list vertex * list boundary) :=
  let st := weld precision old_vertices in
  updated <- update_boundaries (index_mapping st) boundaries ;;
  Ok (new_vertices st, updated).

End Cleaner.

(** ** fix.py: filtering degenerate pre-triangulated faces *)

Module Fix.

Definition area_epsilon : num := PyFloat (float_lit 1 (-12)).

(** [len(x)] and [x[0]] on a JSON value: a number has neither. *)
Definition py_len (x : boundary) : result Z :=
  match x with
  | Arr l => Ok (Z.of_nat (length l))
  | Num _ => Raise TypeError
  end.

Definition first_item (x : boundary) : result boundary :=
  match x with
  | Arr l => py_index l 0
  | Num _ => Raise TypeError
  end.

(** [len(face) == 1 and len(face[0]) == 1 and len(face[0][0]) == 3], giving
    [face[0][0]] when it holds. *)
Definition triangle_indices (face : boundary) : result (option boundary) :=
  n <- py_len face ;;
  if negb (n =? 1) then Ok None
  else
    f0 <- first_item face ;;
    n0 <- py_len f0 ;;
    if negb (n0 =? 1) then Ok None
    else
      f00 <- first_item f0 ;;
      n00 <- py_len f00 ;;
      if negb (n00 =? 3) then Ok None else Ok (Some f00).

(** [any(idx >= len(vertices) or idx < 0 for idx in indices)] *)
Fixpoint any_invalid (n : Z) (indices : list boundary) : result bool :=
  match indices with
  | [] => Ok false
  | Num x :: rest =>
      if num_geb x (PyInt n) || num_ltb x (PyInt 0) then Ok true
      else any_invalid n rest
  | Arr _ :: _ => Raise TypeError
  end.

(** [vertices[indices[k]]]: a list index must be an [int]. *)
Definition vertex_at (vertices : list vertex) (indices : list boundary) (k : Z)
    : result vertex :=
  idx <- py_index indices k ;;
  match idx with
  | Num (PyInt z) => py_index vertices z
  | _ => Raise TypeError
  end.

(** [length_squared(cross_product(sub(p2, p1), sub(p3, p1)))] *)
Definition triangle_area_sq `{Libm} (p1 p2 p3 : vertex) : result num :=
  e2 <- sub p2 p1 ;;
  e3 <- sub p3 p1 ;;
  c <- cross_product e2 e3 ;;
  length_squared c.

(** Whether the loop body appends [face] to [new_boundaries]. *)
Definition keep_face `{Libm}
    (vertices : list vertex) (face : boundary) : result bool :=
  tri <- triangle_indices face ;;
  match tri with
  | Some (Arr indices) =>
      invalid <- any_invalid (Z.of_nat (length vertices)) indices ;;
      if invalid : bool then Ok false
      else
        p1 <- vertex_at vertices indices 0 ;;
        p2 <- vertex_at vertices indices 1 ;;
        p3 <- vertex_at vertices indices 2 ;;
        area_sq <- triangle_area_sq p1 p2 p3 ;;
        Ok (negb (num_ltb area_sq area_epsilon))
  | Some (Num _) => Raise TypeError
  | None => Ok true
  end.

Definition filter_boundaries `{Libm} (vertices : list vertex)
    (boundaries : list boundary) : result (list boundary) :=
  collectM
    (fun face => k <- keep_face vertices face ;;
                 Ok (if k : bool then Some face else None))
    boundaries.

End Fix.

(** ** repair_geometry.py: welding, remapping and re-triangulating

    The welding loop is the one of [cleaner.py]. [earcut] is the external
    ear-clipping library: it receives the flat 2D coordinates, the hole
    offsets and the dimension, and returns a flat list of point indices. *)

Module RepairGeometry.

Definition PRECISION : nat := 5.

Definition weld := Cleaner.weld.

(** [(p1[a] - p2[a]) * (p1[b] + p2[b])] *)
Definition newell_term (p1 p2 : vertex) (a b : Z) : result num :=
  x <- py_index p1 a ;; y <- py_index p2 a ;; d <- num_sub x y ;;
  u <- py_index p1 b ;; v <- py_index p2 b ;; s <- num_add u v ;;
  num_mul d s.

Definition get_normal_step (points : list vertex) (acc : vec3) (i : Z)
    : result vec3 :=
  let '(nx, ny, nz) := acc in
  p1 <- py_index points i ;;
  p2 <- py_index points ((i + 1) mod Z.of_nat (length points)) ;;
  tx <- newell_term p1 p2 1 2 ;; nx' <- num_add nx tx ;;
  ty <- newell_term p1 p2 2 0 ;; ny' <- num_add ny ty ;;
  tz <- newell_term p1 p2 0 1 ;; nz' <- num_add nz tz ;;
  Ok (nx', ny', nz').

Fixpoint get_normal_loop (points : list vertex) (range : list Z) (acc : vec3)
    : result vec3 :=
  match range with
  | [] => Ok acc
  | i :: rest => acc' <- get_normal_step points acc i ;; get_normal_loop points rest acc'
  end.

Definition get_normal (points : list vertex) : result vec3 :=
  get_normal_loop points (seqZ 0 (Z.of_nat (length points)))
    (PyInt 0, PyInt 0, PyInt 0).

(** The conditional expression that picks [ax1, ax2] from the normal. *)
Definition projection_axes (normal : vec3) : Z * Z :=
  let '(n0, n1, n2) := normal in
  if num_gtb (num_abs n2) (num_abs n0) && num_gtb (num_abs n2) (num_abs n1)
  then (0, 1)
  else if num_gtb (num_abs n0) (num_abs n1) then (1, 2) else (0, 2).

(** [for p in points: vertices_2d.extend([p[ax1], p[ax2]])] *)
Fixpoint project (ax1 ax2 : Z) (points : list vertex) : result (list num) :=
  match points with
  | [] => Ok []
  | p :: rest =>
      a <- py_index p ax1 ;; b <- py_index p ax2 ;;
      flat <- project ax1 ax2 rest ;;
      Ok (a :: b :: flat)
  end.

(** The loop over the interior rings: each hole records its offset
    [len(vertices_2d) // 2] and appends its projected points. *)
Fixpoint add_holes (new_vertices : list vertex) (ax1 ax2 : Z)
    (holes : list (list Z)) (vertices_2d : list num) (hole_indices : list Z)
    : result (list num * list Z) :=
  match holes with
  | [] => Ok (vertices_2d, hole_indices)
  | hole_ring_indices :: rest =>
      let hole_indices' :=
        hole_indices ++ [Z.of_nat (length vertices_2d) / 2] in
      hole_points <- mapM (py_index new_vertices) hole_ring_indices ;;
      flat <- project ax1 ax2 hole_points ;;
      add_holes new_vertices ax1 ax2 rest (vertices_2d ++ flat) hole_indices'
  end.

(** [for i in range(0, len(result), 3)]: one triangle per three indices of
    [result]; a trailing incomplete group raises [IndexError] at
    [result[i+1]] or [result[i+2]]. *)
Fixpoint emit_triangles (all_indices : list Z) (result_ : list Z)
    : result (list (list Z)) :=
  match result_ with
  | [] => Ok []
  | r0 :: r1 :: r2 :: rest =>
      a <- py_index all_indices r0 ;;
      b <- py_index all_indices r1 ;;
      c <- py_index all_indices r2 ;;
      ts <- emit_triangles all_indices rest ;;
      Ok ([a; b; c] :: ts)
  | [r0; r1] =>
      a <- py_index all_indices r0 ;;
      b <- py_index all_indices r1 ;;
      Raise IndexError
  | [r0] =>
      a <- py_index all_indices r0 ;;
      Raise IndexError
  end.

Section Triangulate.
Variable earcut : list num -> list Z -> Z -> list Z.

Definition triangulate_face (new_vertices : list vertex)
    (face_rings_indices : list (list Z)) : result (list (list Z)) :=
  exterior_ring_indices <- py_index face_rings_indices 0 ;;
  if Z.of_nat (length (unique exterior_ring_indices)) <? 3 then Ok []
  else
    exterior_points <- mapM (py_index new_vertices) exterior_ring_indices ;;
    normal <- get_normal exterior_points ;;
    let '(ax1, ax2) := projection_axes normal in
    vertices_2d <- project ax1 ax2 exterior_points ;;
    with_holes <-
      add_holes new_vertices ax1 ax2 (tail face_rings_indices) vertices_2d [] ;;
    let '(vertices_2d, hole_indices) := with_holes in
    let result_ := earcut vertices_2d hole_indices 2 in
    let all_indices :=
      exterior_ring_indices ++ concat (tail face_rings_indices) in
    emit_triangles all_indices result_.

(** [ring[i] = index_mapping[old_idx]] over [for face ... for ring ...]:
    a face and a ring must be lists, an index must be an [int]. *)
Definition remap_ring (index_mapping : list Z) (ring : boundary)
    : result (list Z) :=
  match ring with
  | Arr idxs =>
      mapM (fun old_idx =>
              match old_idx with
              | Num (PyInt z) => py_index index_mapping z
              | _ => Raise TypeError
              end) idxs
  | Num _ => Raise TypeError
  end.

Definition remap_face (index_mapping : list Z) (face : boundary)
    : result (list (list Z)) :=
  match face with
  | Arr rings => mapM (remap_ring index_mapping) rings
  | Num _ => Raise TypeError
  end.

(** [new_boundaries.extend([[triangle] for triangle in triangles])] *)
Definition wrap_triangles (triangles : list (list Z)) : list boundary :=
  map (fun triangle => Arr [int_ring triangle]) triangles.

Definition repair_boundaries (index_mapping : list Z)
    (new_vertices : list vertex) (boundaries : list boundary)
    : result (list boundary) :=
  updated_boundaries <- mapM (remap_face index_mapping) boundaries ;;
  per_face <- mapM (triangulate_face new_vertices) updated_boundaries ;;
  Ok (concat (map wrap_triangles per_face)).

Definition repair (precision : nat) (old_vertices : list vertex)
    (boundaries : list boundary) : result (list vertex * list boundary) :=
  let st := weld precision old_vertices in
  new_boundaries <-
    repair_boundaries (Cleaner.index_mapping st) (Cleaner.new_vertices st)
      boundaries ;;
  Ok (Cleaner.new_vertices st, new_boundaries).
End Triangulate.

End RepairGeometry.

(** ** The welding loop, abstractly

    Both welding loops keep a vertex when no kept vertex has the same key
    and otherwise reuse the position of the kept one. Here the loop is told
    over any vertex type, key and key test; [kept] plays [new_vertices] and
    the list of positions plays the index map. *)

Section AbstractWeld.
Context {V K : Type} (key : V -> K) (same : K -> K -> bool).

(** The first kept vertex whose key the dictionary finds for [k]. *)
Definition first_seen (k : K) (kept : list V) : option (nat * V) :=
  list_find (fun u => same (key u) k = true) kept.

Definition abs_step (acc : list V * list nat) (v : V) : list V * list nat :=
  match first_seen (key v) acc.1 with
  | Some (j, _) => (acc.1, acc.2 ++ [j])
  | None => (acc.1 ++ [v], acc.2 ++ [length acc.1])
  end.

Definition abs_weld_from (acc : list V * list nat) (vs : list V)
    : list V * list nat :=
  fold_left abs_step vs acc.

Definition abs_weld (vs : list V) : list V * list nat :=
  abs_weld_from ([], []) vs.

(** What holds of [abs_weld vs = (nv, m)]. *)
Record weld_inv (vs nv : list V) (m : list nat) : Prop := {
  inv_len : length m = length vs;
  inv_short : (length nv <= length vs)%nat;
  inv_distinct : forall w u,
    nv !! w = Some u -> first_seen (key u) (take w nv) = None;
  inv_first : forall i v,
    vs !! i = Some v ->
    exists w, m !! i = Some w /\
      match first_seen (key v) (take i vs) with
      | Some (f, u) => m !! f = Some w /\ nv !! w = Some u
      | None => nv !! w = Some v
      end;
  inv_found : forall k w u,
    first_seen k nv = Some (w, u) ->
    exists f, first_seen k vs = Some (f, u) /\ m !! f = Some w;
  inv_fresh : forall k,
    first_seen k nv = None -> first_seen k vs = None
}.
End AbstractWeld.

(** How the state of each welding loop reads as a state of the abstract
    loop: the kept vertices, the dictionary as the positions of their keys,
    and the index map as the list of positions. *)

Definition ft_related (precision : nat) (st : FixTriangles.weld_state)
    (acc : list vertex * list nat) : Prop :=
  FixTriangles.new_vertices st = acc.1 /\
  FixTriangles.vertex_map st =
    imap (fun j u => (FixTriangles.rounded precision u, Z.of_nat j)) acc.1 /\
  FixTriangles.index_remap st = map_seqZ 0 (Z.of_nat <$> acc.2).

Definition string_same (a b : string) : bool := bool_decide (a = b).

Definition cl_related (precision : nat) (total : nat) (st : Cleaner.weld_state)
    (acc : list vertex * list nat) : Prop :=
  Cleaner.new_vertices st = acc.1 /\
  (forall s, Cleaner.unique_vertices_map st !! s =
     (fun p => Z.of_nat p.1) <$>
       first_seen (Cleaner.vertex_key precision) string_same s acc.1) /\
  Cleaner.index_mapping st =
    (Z.of_nat <$> acc.2) ++ replicate (total - length acc.2) (-1) /\
  Cleaner.new_idx_counter st = Z.of_nat (length acc.1).

(** The first occurrence of the key of [v = vs[i]]: the first earlier vertex
    with the same key, and [v] itself when there is none. *)
Definition first_occurrence {K : Type} (key : vertex -> K)
    (same : K -> K -> bool) (vs : list vertex) (i : nat) (v : vertex)
    : nat * vertex :=
  default (i, v) (first_seen key same (key v) (take i vs)).

(** ** Example inputs *)

Definition F (digits e10 : Z) : num := PyFloat (float_lit digits e10).

(** [[[0,0,0],[1,0,0],[1,1,0],[0,1,0],[0,0,0.000001]]] with every coordinate
    a [float] ... *)
Definition square_floats : list vertex :=
  [ [F 0 0; F 0 0; F 0 0];
    [F 1 0; F 0 0; F 0 0];
    [F 1 0; F 1 0; F 0 0];
    [F 0 0; F 1 0; F 0 0];
    [F 0 0; F 0 0; F 1 (-6)] ].

(** ... and as [json.load] reads that very text: [0] and [1] are [int]s. *)
Definition square_json : list vertex :=
  [ [PyInt 0; PyInt 0; PyInt 0];
    [PyInt 1; PyInt 0; PyInt 0];
    [PyInt 1; PyInt 1; PyInt 0];
    [PyInt 0; PyInt 1; PyInt 0];
    [PyInt 0; PyInt 0; F 1 (-6)] ].

(** [[[0,0,0],[0.0,0.0,0.0]]]: one point, written with [int]s and with
    [float]s. *)
Definition int_and_float_zeros : list vertex :=
  [ [PyInt 0; PyInt 0; PyInt 0]; [F 0 0; F 0 0; F 0 0] ].

(** [[[0.0,0.0,0.0],[-0.0,0.0,0.0]]] *)
Definition signed_zeros : list vertex :=
  [ [PyFloat (S754_zero false); PyFloat (S754_zero false); PyFloat (S754_zero false)];
    [PyFloat (S754_zero true); PyFloat (S754_zero false); PyFloat (S754_zero false)] ].

(** A C library whose [pow(x, 2.0)] is the correctly rounded square and
    leaves [errno] at zero. The theorems are stated for every C library;
    the examples are evaluated with this one. A real [pow] may be one unit
    in the last place away from it ([2.759 ** 2] is, with glibc), but the
    one float that the examples pass to [pow] is [1e-9], whose square
    [1e-18] is far from both thresholds. *)
Definition rounding_libm : Libm := {| pow2 x := (fmul x x, ENONE) |}.

(** A right triangle, three collinear points, and a sliver of height 1e-9. *)
Definition right_triangle : list vertex :=
  [ [PyInt 0; PyInt 0; PyInt 0];
    [PyInt 1; PyInt 0; PyInt 0];
    [PyInt 0; PyInt 1; PyInt 0] ].

Definition collinear : list vertex :=
  [ [PyInt 0; PyInt 0; PyInt 0];
    [PyInt 1; PyInt 0; PyInt 0];
    [PyInt 2; PyInt 0; PyInt 0] ].

Definition sliver : list vertex :=
  [ [F 0 0; F 0 0; F 0 0];
    [F 1 0; F 0 0; F 0 0];
    [F 5 (-1); F 1 (-9); F 0 0] ].

(** An ear-clipper that answers with the one triangle of a three-point
    polygon without holes. *)
Definition earcut_one (vertices_2d : list num) (hole_indices : list Z)
    (dim : Z) : list Z :=
  match vertices_2d, hole_indices with
  | [_; _; _; _; _; _], [] => [0; 1; 2]
  | _, _ => []
  end.

(** A unit square in the plane [z = -x]: its normal has [|nx| = |nz|]. *)
Definition tilted_square : list vertex :=
  [ [PyInt 0; PyInt 0; PyInt 0];
    [PyInt 1; PyInt 0; PyInt (-1)];
    [PyInt 1; PyInt 1; PyInt (-1)];
    [PyInt 0; PyInt 1; PyInt 0] ].

(** ** Vocabulary of the statements on boundaries *)

(** No index of [l] is followed by itself. *)
Definition no_adjacent_dup (l : list Z) : Prop :=
  forall i x y, l !! i = Some x -> l !! S i = Some y -> x <> y.

Definition is_int (b : boundary) : Prop := exists z, b = Num (PyInt z).

(** [inside r b]: [process_boundary] on [b] reaches [r]: it descends from a
    list into its elements when the first element is itself a list. *)
Inductive inside (r : boundary) : boundary -> Prop :=
  | inside_here : inside r r
  | inside_child (first rest : list boundary) (b : boundary) :
      b ∈ Arr first :: rest -> inside r b ->
      inside r (Arr (Arr first :: rest)).

Definition valid_index (vertices : list vertex) (i : Z) : Prop :=
  0 <= i < Z.of_nat (length vertices).

(** What fix_triangles.py has checked of a boundary it returns: a ring
    holds valid indices, at least three of them distinct after cleaning,
    and when exactly three are distinct [is_degenerate_triangle] answered
    [False] on them; a list of boundaries is not empty. *)
#[warnings="-register-all"] Inductive checked `{Libm}
    (vertices : list vertex) : boundary -> Prop :=
  | checked_ring (idxs : list Z) :
      Forall (valid_index vertices) idxs ->
      (3 <= length (unique (FixTriangles.clean_ring idxs)))%nat ->
      (forall u0 u1 u2,
         unique (FixTriangles.clean_ring idxs) = [u0; u1; u2] ->
         FixTriangles.is_degenerate_triangle u0 u1 u2 vertices = Ok false) ->
      checked vertices (int_ring idxs)
  | checked_branch (items : list boundary) :
      items <> [] -> Forall (checked vertices) items ->
      checked vertices (Arr items).

From Stdlib Require Import Ascii.

(** ** Vocabulary of the further statements *)

(** Every coordinate is an [int], as CityJSON stores its vertices. *)
Definition int_vertex (v : vertex) : Prop :=
  Forall (fun c => exists z, c = PyInt z) v.

(** The string holds no underscore. *)
Fixpoint no_sep (s : string) : Prop :=
  match s with
  | EmptyString => True
  | String c s' => c <> "_"%char /\ no_sep s'
  end.

(** A vertex with three [int] coordinates, and the cross product
    [(b - a) x (c - a)] over the integers. *)
Definition int_point (p : Z * Z * Z) : vertex :=
  let '(x, y, z) := p in [PyInt x; PyInt y; PyInt z].

Definition cross_int (a b c : Z * Z * Z) : Z * Z * Z :=
  let '(ax, ay, az) := a in
  let '(bx, by_, bz) := b in
  let '(cx, cy, cz) := c in
  ((by_ - ay) * (cz - az) - (bz - az) * (cy - ay),
   (bz - az) * (cx - ax) - (bx - ax) * (cz - az),
   (bx - ax) * (cy - ay) - (by_ - ay) * (cx - ax)).

(** A boundary that fix_triangles.py can process without an exception:
    lists nested to any depth whose innermost lists hold integer indices
    inside [0, n). *)
#[warnings="-register-all"] Inductive well_formed (n : Z) : boundary -> Prop :=
  | wf_ring (idxs : list Z) :
      Forall (fun i => 0 <= i < n) idxs -> well_formed n (int_ring idxs)
  | wf_node (items : list boundary) :
      Forall (well_formed n) items -> well_formed n (Arr items).

(** Every [int] found in [b], at any depth, satisfies [P]; a [float] is
    under no condition, as [update_boundaries] of cleaner.py leaves it
    alone. *)
#[warnings="-register-all"] Inductive int_leaves (P : Z -> Prop) : boundary -> Prop :=
  | leaf_int (z : Z) : P z -> int_leaves P (Num (PyInt z))
  | leaf_float (f : spec_float) : int_leaves P (Num (PyFloat f))
  | leaf_list (items : list boundary) :
      Forall (int_leaves P) items -> int_leaves P (Arr items).

(** What Python accepts as an index into a list of length [n]. *)
Definition py_index_ok (n : nat) (z : Z) : Prop :=
  - Z.of_nat n <= z < Z.of_nat n.

(** What the ear-clipping library promises of its answer: a whole number
    of triangles, each corner the number of one of the points it was
    given. *)
Definition earcut_contract (earcut : list num -> list Z -> Z -> list Z)
    : Prop :=
  forall (vertices_2d : list num) (hole_indices : list Z),
    (length (earcut vertices_2d hole_indices 2%Z) mod 3 = 0)%nat /\
    Forall (fun r => 0 <= r < Z.of_nat (length vertices_2d) / 2)
      (earcut vertices_2d hole_indices 2).

(** A face as repair_geometry.py reads it: a non-empty list of rings, each
    a list of integer indices inside [0, n). *)
Definition face_within (n : Z) (rings : list (list Z)) : Prop :=
  rings <> [] /\ Forall (Forall (fun i => 0 <= i < n)) rings.

(** ** The runs on a whole document, with their reports

    The four scripts walk the document in the same way:
    [for city_object in cm['CityObjects'].values()], then, when the object
    has a ['geometry'], [for geom in city_object['geometry']], then, when
    the geometry has ['boundaries'], that list is replaced. Keys that no
    script reads are not part of the records. *)

(** A [for] loop that keeps every answer, threading the state. *)
Definition mapS {A B S : Type} (f : A -> S -> result (B * S))
    : list A -> S -> result (list B * S) :=
  fix go l s :=
    match l with
    | [] => Ok ([], s)
    | x :: rest =>
        r <- f x s ;;
        rs <- go rest r.2 ;;
        Ok (r.1 :: rs.1, rs.2)
    end.

(** A [for] loop that appends the answers that are not [None], threading
    the state. *)
Definition collectS {A B S : Type} (f : A -> S -> result (option B * S))
    : list A -> S -> result (list B * S) :=
  fix go l s :=
    match l with
    | [] => Ok ([], s)
    | x :: rest =>
        r <- f x s ;;
        rs <- go rest r.2 ;;
        Ok (match r.1 with Some y => y :: rs.1 | None => rs.1 end, rs.2)
    end.

Module CityJSON.

(** [boundaries] is [None] when the geometry has no ['boundaries'] key,
    [geometry] is [None] when the object has no ['geometry'] key. [metadata]
    is [None] without a ['metadata'] key, [Some None] when the metadata has
    no ['referenceSystem'], and [Some (Some crs)] otherwise. *)
Record geom : Type := { boundaries : option (list boundary) }.
Record city_object : Type := { geometry : option (list geom) }.
Record cityjson : Type := {
  vertices : list vertex;
  CityObjects : list city_object;
  metadata : option (option string)
}.

Section Walk.
Context {S : Type} (f : list boundary -> S -> result (list boundary * S)).

Definition update_geom (g : geom) (s : S) : result (geom * S) :=
  match boundaries g with
  | None => Ok (g, s)
  | Some bs => r <- f bs s ;; Ok ({| boundaries := Some r.1 |}, r.2)
  end.

Definition update_object (o : city_object) (s : S)
    : result (city_object * S) :=
  match geometry o with
  | None => Ok (o, s)
  | Some geoms =>
      r <- mapS update_geom geoms s ;; Ok ({| geometry := Some r.1 |}, r.2)
  end.

Definition update_objects (objects : list city_object) (s : S)
    : result (list city_object * S) :=
  mapS update_object objects s.
End Walk.

(** The sum of [w] over the boundaries of every geometry of the objects. *)
Definition geom_sum (w : list boundary -> nat) (g : geom) : nat :=
  match boundaries g with Some bs => w bs | None => 0%nat end.

Definition object_sum (w : list boundary -> nat) (o : city_object) : nat :=
  match geometry o with
  | Some geoms => sum_list_with (geom_sum w) geoms
  | None => 0%nat
  end.

Definition doc_sum (w : list boundary -> nat) (objects : list city_object)
    : nat :=
  sum_list_with (object_sum w) objects.

End CityJSON.

(** *** fix_triangles.py with [total_removed] and [total_kept] *)

Module FixTrianglesReport.

Record counters : Type := { total_removed : Z; total_kept : Z }.

Definition removed (c : counters) : counters :=
  {| total_removed := total_removed c + 1; total_kept := total_kept c |}.

Definition kept (c : counters) : counters :=
  {| total_removed := total_removed c; total_kept := total_kept c + 1 |}.

Definition process_ring `{Libm}
    (index_remap : gmap Z Z) (vertices : list vertex)
    (ring : list boundary) (c : counters)
    : result (option boundary * counters) :=
  remapped <- mapM (FixTriangles.remap_index index_remap) ring ;;
  let cleaned := FixTriangles.clean_ring remapped in
  match unique cleaned with
  | [u0; u1; u2] =>
      degenerate <- FixTriangles.is_degenerate_triangle u0 u1 u2 vertices ;;
      Ok (if degenerate : bool then (None, removed c)
          else (Some (int_ring remapped), kept c))
  | uniq =>
      if Z.of_nat (length uniq) <? 3 then Ok (None, removed c)
      else Ok (Some (int_ring remapped), kept c)
  end.

Fixpoint process_boundary `{Libm}
    (index_remap : gmap Z Z) (vertices : list vertex)
    (b : boundary) (c : counters) {struct b}
    : result (option boundary * counters) :=
  match b with
  | Num _ => Ok (None, c)
  | Arr [] => Ok (None, c)
  | Arr ((Num _ :: _) as ring) => process_ring index_remap vertices ring c
  | Arr items =>
      r <- collectS (process_boundary index_remap vertices) items c ;;
      Ok (match r.1 with [] => None | _ => Some (Arr r.1) end, r.2)
  end.

Definition clean_boundaries `{Libm}
    (index_remap : gmap Z Z) (vertices : list vertex)
    (boundaries : list boundary) (c : counters)
    : result (list boundary * counters) :=
  collectS (process_boundary index_remap vertices) boundaries c.

(** The script from [data = json.load(f)] to the counters it prints. *)
Definition run `{Libm} (precision : nat) (data : CityJSON.cityjson)
    : result (CityJSON.cityjson * counters) :=
  let st := FixTriangles.weld precision (CityJSON.vertices data) in
  r <- CityJSON.update_objects
         (clean_boundaries (FixTriangles.index_remap st)
            (FixTriangles.new_vertices st))
         (CityJSON.CityObjects data)
         {| total_removed := 0; total_kept := 0 |} ;;
  Ok ({| CityJSON.vertices := FixTriangles.new_vertices st;
         CityJSON.CityObjects := r.1;
         CityJSON.metadata := CityJSON.metadata data |}, r.2).

End FixTrianglesReport.

(** The rings of a boundary: the lists that [process_boundary] treats as
    leaves, those whose first element is a number. *)
Fixpoint rings (b : boundary) : nat :=
  match b with
  | Num _ => 0
  | Arr [] => 0
  | Arr (Num _ :: _) => 1
  | Arr items => sum_list_with rings items
  end.

(** *** fix.py with [total_faces] and [degenerate_count] *)

Module FixReport.

Record counters : Type := { total_faces : Z; degenerate_count : Z }.

Definition scanned (c : counters) : counters :=
  {| total_faces := total_faces c + 1; degenerate_count := degenerate_count c |}.

Definition degenerate (c : counters) : counters :=
  {| total_faces := total_faces c; degenerate_count := degenerate_count c + 1 |}.

(** One turn of [for face in geom['boundaries']]. *)
Definition scan_face `{Libm}
    (vertices : list vertex) (face : boundary) (c : counters)
    : result (option boundary * counters) :=
  let c := scanned c in
  tri <- Fix.triangle_indices face ;;
  match tri with
  | Some (Arr indices) =>
      invalid <- Fix.any_invalid (Z.of_nat (length vertices)) indices ;;
      if invalid : bool then Ok (None, degenerate c)
      else
        p1 <- Fix.vertex_at vertices indices 0 ;;
        p2 <- Fix.vertex_at vertices indices 1 ;;
        p3 <- Fix.vertex_at vertices indices 2 ;;
        area_sq <- Fix.triangle_area_sq p1 p2 p3 ;;
        if num_ltb area_sq Fix.area_epsilon then Ok (None, degenerate c)
        else Ok (Some face, c)
  | Some (Num _) => Raise TypeError
  | None => Ok (Some face, c)
  end.

Definition filter_boundaries `{Libm} (vertices : list vertex)
    (boundaries : list boundary) (c : counters)
    : result (list boundary * counters) :=
  collectS (scan_face vertices) boundaries c.

Definition run `{Libm} (cm : CityJSON.cityjson)
    : result (CityJSON.cityjson * counters) :=
  r <- CityJSON.update_objects (filter_boundaries (CityJSON.vertices cm))
         (CityJSON.CityObjects cm)
         {| total_faces := 0; degenerate_count := 0 |} ;;
  Ok ({| CityJSON.vertices := CityJSON.vertices cm;
         CityJSON.CityObjects := r.1;
         CityJSON.metadata := CityJSON.metadata cm |}, r.2).

End FixReport.

(** *** cleaner.py on a document *)

Module CleanerRun.

Definition referenceSystem : string :=
  "https://www.opengis.net/def/crs/EPSG/0/4326".

(** [if 'metadata' in cm and 'referenceSystem' not in cm['metadata']] *)
Definition add_reference_system (metadata : option (option string))
    : option (option string) :=
  match metadata with
  | Some None => Some (Some referenceSystem)
  | _ => metadata
  end.

Definition run (precision : nat) (cm : CityJSON.cityjson)
    : result CityJSON.cityjson :=
  let st := Cleaner.weld precision (CityJSON.vertices cm) in
  r <- CityJSON.update_objects
         (fun boundaries (_ : unit) =>
            updated <-
              Cleaner.update_boundaries (Cleaner.index_mapping st) boundaries ;;
            Ok (updated, tt))
         (CityJSON.CityObjects cm) tt ;;
  Ok {| CityJSON.vertices := Cleaner.new_vertices st;
        CityJSON.CityObjects := r.1;
        CityJSON.metadata := add_reference_system (CityJSON.metadata cm) |}.

End CleanerRun.

(** A welded ring [remapped] over integer points has at least three
    distinct vertices and, when it has exactly three, they are not
    collinear. *)
Definition survives (pts : list (Z * Z * Z)) (remapped : list Z) : Prop :=
  (3 <= length (unique remapped))%nat /\
  forall a b c pa pb pc,
    unique remapped = [a; b; c] ->
    pts !! Z.to_nat a = Some pa ->
    pts !! Z.to_nat b = Some pb ->
    pts !! Z.to_nat c = Some pc ->
    cross_int pa pb pc <> (0, 0, 0).

(** * Proofs *)

Section AbstractWeldFacts.
Context {V K : Type} (key : V -> K) (same : K -> K -> bool).
Hypothesis same_trans : forall a b c,
  same a b = true -> same b c = true -> same a c = true.

Lemma abs_weld_snoc (vs : list V) (v : V) :
  abs_weld key same (vs ++ [v]) = abs_step key same (abs_weld key same vs) v.
Proof. unfold abs_weld, abs_weld_from. by rewrite fold_left_app. Qed.

Lemma first_seen_snoc_fresh k (l : list V) (v : V) :
  first_seen key same k l = None ->
  first_seen key same k (l ++ [v]) =
    if same (key v) k then Some (length l, v) else None.
Proof.
  intros Hl. unfold first_seen in *. rewrite list_find_app_r by done.
  simpl. case_decide as Hd.
  - rewrite Hd. simpl. done.
  - apply not_true_is_false in Hd. by rewrite Hd.
Qed.

Lemma abs_weld_inv (vs : list V) :
  weld_inv key same vs (abs_weld key same vs).1 (abs_weld key same vs).2.
Proof.
  induction vs as [|v vs IH] using rev_ind.
  { split; simpl; try done. }
  rewrite abs_weld_snoc. destruct (abs_weld key same vs) as [nv m].
  simpl in IH. destruct IH as [Hlen Hshort Hdist Hfirst Hfound Hfresh].
  unfold abs_step; simpl.
  destruct (first_seen key same (key v) nv) as [[j u]|] eqn:Hseen; simpl.
  - (* the key of [v] is already kept at [j] *)
    destruct (Hfound _ _ _ Hseen) as (f & Hf & Hmf).
    pose proof Hseen as (Hju & Hsame & _)%list_find_Some.
    split.
    + rewrite !length_app. simpl. lia.
    + rewrite length_app. simpl. lia.
    + done.
    + intros i x Hi. apply lookup_app_Some in Hi as [Hi|[Hge Hi]].
      * destruct (Hfirst i x Hi) as (w & Hw & Hcase).
        assert (i < length vs)%nat by eauto using lookup_lt_Some.
        exists w. split; [by apply lookup_app_l_Some|].
        rewrite take_app_le by lia.
        destruct (first_seen key same (key x) (take i vs)) as [[f' u']|] eqn:Hf';
          [|done].
        destruct Hcase as [Hmf' Hnv]. split; [|done].
        by apply lookup_app_l_Some.
      * apply list_lookup_singleton_Some in Hi as [Hi0 ->].
        assert (i = length vs) as -> by lia.
        exists j. split.
        { rewrite lookup_app_r by lia. rewrite Hlen, Nat.sub_diag. done. }
        rewrite take_app_length. rewrite Hf. split; [|done].
        by apply lookup_app_l_Some.
    + intros k w u' Hk. destruct (Hfound _ _ _ Hk) as (f' & Hf' & Hmf').
      exists f'. split.
      * unfold first_seen in *. by apply list_find_app_l.
      * by apply lookup_app_l_Some.
    + intros k Hk. rewrite first_seen_snoc_fresh by auto.
      destruct (same (key v) k) eqn:Hvk; [|done].
      exfalso. unfold first_seen in Hk.
      apply list_find_None in Hk.
      eapply Forall_lookup_1 in Hk; [|exact Hju].
      apply Hk. eauto.
  - (* [v] carries a new key *)
    pose proof (Hfresh _ Hseen) as Hvs.
    split.
    + rewrite !length_app. simpl. lia.
    + rewrite !length_app. simpl. lia.
    + intros w u Hw. apply lookup_app_Some in Hw as [Hw|[Hge Hw]].
      * assert (w < length nv)%nat by eauto using lookup_lt_Some.
        rewrite take_app_le by lia. eauto.
      * apply list_lookup_singleton_Some in Hw as [Hw0 ->].
        assert (w = length nv) as -> by lia.
        by rewrite take_app_length.
    + intros i x Hi. apply lookup_app_Some in Hi as [Hi|[Hge Hi]].
      * destruct (Hfirst i x Hi) as (w & Hw & Hcase).
        assert (i < length vs)%nat by eauto using lookup_lt_Some.
        exists w. split; [by apply lookup_app_l_Some|].
        rewrite take_app_le by lia.
        destruct (first_seen key same (key x) (take i vs)) as [[f' u']|] eqn:Hf'.
        -- destruct Hcase as [Hmf' Hnv]. split; by apply lookup_app_l_Some.
        -- by apply lookup_app_l_Some.
      * apply list_lookup_singleton_Some in Hi as [Hi0 ->].
        assert (i = length vs) as -> by lia.
        exists (length nv). split.
        { rewrite lookup_app_r by lia. rewrite Hlen, Nat.sub_diag. done. }
        rewrite take_app_length. rewrite Hvs.
        rewrite lookup_app_r by lia. by rewrite Nat.sub_diag.
    + intros k w u Hk. unfold first_seen in Hk.
      apply list_find_app_Some in Hk as [Hk|(Hge & Hnone & Hk)].
      * destruct (Hfound _ _ _ Hk) as (f' & Hf' & Hmf').
        exists f'. split.
        -- unfold first_seen in *. by apply list_find_app_l.
        -- by apply lookup_app_l_Some.
      * assert (u = v /\ w = length nv /\ same (key v) k = true) as (-> & -> & Hvk).
        { apply list_find_Some in Hk as (Hl & HP & _).
          apply list_lookup_singleton_Some in Hl as [? ->]. split_and!; [done|lia|done]. }
        exists (length vs). split.
        -- rewrite first_seen_snoc_fresh by (apply Hfresh; done). by rewrite Hvk.
        -- rewrite lookup_app_r by lia. by rewrite Hlen, Nat.sub_diag.
    + intros k Hk. unfold first_seen in *.
      apply list_find_app_None in Hk as [Hk1 Hk2].
      apply list_find_app_None. split; [by apply Hfresh|done].
Qed.
End AbstractWeldFacts.

Section AbstractWeldSame.
Context {V K : Type} (key : V -> K) (same : K -> K -> bool).
Hypothesis same_sym : forall a b, same a b = true -> same b a = true.
Hypothesis same_trans : forall a b c,
  same a b = true -> same b c = true -> same a c = true.

Lemma first_seen_same_key (k1 k2 : K) (l : list V) :
  same k1 k2 = true ->
  first_seen key same k1 l = first_seen key same k2 l.
Proof.
  intros H12. unfold first_seen. apply list_find_ext. intros u. split; eauto.
Qed.

Lemma first_seen_take_mono (k : K) (vs : list V) i j f u :
  (i <= j)%nat ->
  first_seen key same k (take i vs) = Some (f, u) ->
  first_seen key same k (take j vs) = Some (f, u).
Proof.
  unfold first_seen. intros Hij (Hl & HP & Hleast)%list_find_Some.
  apply lookup_take_Some in Hl as [Hl Hfi].
  apply list_find_Some. split_and!; [|done|].
  - apply lookup_take_Some. split; [done|lia].
  - intros j' y Hj' Hlt. apply lookup_take_Some in Hj' as [Hj' _].
    apply (Hleast j' y); [|done]. apply lookup_take_Some. split; [done|lia].
Qed.

Lemma first_seen_take_here (k : K) (vs : list V) i j v :
  (i < j)%nat ->
  vs !! i = Some v ->
  same (key v) k = true ->
  first_seen key same k (take i vs) = None ->
  first_seen key same k (take j vs) = Some (i, v).
Proof.
  unfold first_seen. intros Hij Hi Hv Hnone.
  apply list_find_Some. split_and!; [|done|].
  - apply lookup_take_Some. split; [done|lia].
  - intros j' y Hj' Hlt. apply lookup_take_Some in Hj' as [Hj' _].
    apply list_find_None in Hnone.
    eapply Forall_lookup_1 in Hnone; [exact Hnone|].
    apply lookup_take_Some. split; [exact Hj'|lia].
Qed.

Lemma weld_inv_same_lt (vs nv : list V) (m : list nat) i j vi vj :
  weld_inv key same vs nv m ->
  (i < j)%nat ->
  vs !! i = Some vi -> vs !! j = Some vj ->
  same (key vi) (key vj) = true ->
  m !! i = m !! j.
Proof.
  intros Hinv Hij Hi Hj Hsame.
  destruct (inv_first _ _ _ _ _ Hinv i vi Hi) as (wi & Hwi & Hci).
  destruct (inv_first _ _ _ _ _ Hinv j vj Hj) as (wj & Hwj & Hcj).
  rewrite <- (first_seen_same_key (key vi) (key vj)) in Hcj by done.
  assert (same (key vi) (key vi) = true) as Hrefl by eauto.
  destruct (first_seen key same (key vi) (take i vs)) as [[f u]|] eqn:Hfi.
  - rewrite (first_seen_take_mono _ _ i j f u) in Hcj by (done || lia).
    destruct Hci as [Hmf _], Hcj as [Hmf' _]. congruence.
  - rewrite (first_seen_take_here _ _ i j vi) in Hcj by done.
    destruct Hcj as [Hmi _]. congruence.
Qed.

Lemma weld_inv_same (vs nv : list V) (m : list nat) i j vi vj :
  weld_inv key same vs nv m ->
  vs !! i = Some vi -> vs !! j = Some vj ->
  same (key vi) (key vj) = true ->
  m !! i = m !! j.
Proof.
  intros Hinv Hi Hj Hsame.
  destruct (lt_eq_lt_dec i j) as [[Hlt| ->]|Hgt]; [|done|].
  - eauto using weld_inv_same_lt.
  - symmetry. eauto using weld_inv_same_lt.
Qed.
End AbstractWeldSame.

Section AbstractWeldAgain.
Context {V K : Type} (key : V -> K) (same : K -> K -> bool).

Lemma abs_weld_distinct (l : list V) :
  (forall w u, l !! w = Some u -> first_seen key same (key u) (take w l) = None) ->
  abs_weld key same l = (l, seq 0 (length l)).
Proof.
  induction l as [|v l IH] using rev_ind; [done|].
  intros Hdist. rewrite abs_weld_snoc, IH.
  - unfold abs_step; simpl.
    assert (first_seen key same (key v) l = None) as ->.
    { specialize (Hdist (length l) v).
      rewrite take_app_length in Hdist. apply Hdist.
      rewrite lookup_app_r by lia. by rewrite Nat.sub_diag. }
    rewrite length_app, Nat.add_1_r, seq_S. done.
  - intros w u Hw. assert (w < length l)%nat by eauto using lookup_lt_Some.
    specialize (Hdist w u). rewrite take_app_le in Hdist by lia.
    apply Hdist. by apply lookup_app_l_Some.
Qed.
End AbstractWeldAgain.

(** ** Facts on Python's number comparison *)

Lemma fin_compare_Eq_shift (m1 e1 m2 e2 E : Z) :
  E <= Z.min e1 e2 ->
  fin_compare m1 e1 m2 e2 = Eq <-> m1 * 2 ^ (e1 - E) = m2 * 2 ^ (e2 - E).
Proof.
  intros HE. unfold fin_compare. rewrite Z.compare_eq_iff.
  set (e := Z.min e1 e2) in *.
  assert (0 < 2 ^ (e - E)) as Hpos by (apply Z.pow_pos_nonneg; lia).
  replace (e1 - E) with ((e1 - e) + (e - E)) by lia.
  replace (e2 - E) with ((e2 - e) + (e - E)) by lia.
  rewrite !Z.pow_add_r by lia.
  rewrite !Z.mul_assoc. split.
  - intros ->. done.
  - intros H. apply Z.mul_cancel_r in H; [done|lia].
Qed.

Lemma fin_compare_Eq_sym (m1 e1 m2 e2 : Z) :
  fin_compare m1 e1 m2 e2 = Eq -> fin_compare m2 e2 m1 e1 = Eq.
Proof.
  rewrite (fin_compare_Eq_shift m1 e1 m2 e2 (Z.min e1 e2)) by lia.
  rewrite (fin_compare_Eq_shift m2 e2 m1 e1 (Z.min e1 e2)) by lia.
  done.
Qed.

Lemma fin_compare_Eq_trans (m1 e1 m2 e2 m3 e3 : Z) :
  fin_compare m1 e1 m2 e2 = Eq -> fin_compare m2 e2 m3 e3 = Eq ->
  fin_compare m1 e1 m3 e3 = Eq.
Proof.
  set (E := Z.min e1 (Z.min e2 e3)).
  rewrite (fin_compare_Eq_shift m1 e1 m2 e2 E) by lia.
  rewrite (fin_compare_Eq_shift m2 e2 m3 e3 E) by lia.
  rewrite (fin_compare_Eq_shift m1 e1 m3 e3 E) by lia.
  congruence.
Qed.

Lemma num_eqb_sym (a b : num) : num_eqb a b = true -> num_eqb b a = true.
Proof.
  unfold num_eqb, num_compare.
  destruct (xval_of a) as [| |m1 e1|], (xval_of b) as [| |m2 e2|]; simpl; try done.
  destruct (fin_compare m1 e1 m2 e2) eqn:H; try done.
  by rewrite (fin_compare_Eq_sym _ _ _ _ H).
Qed.

Lemma num_eqb_trans (a b c : num) :
  num_eqb a b = true -> num_eqb b c = true -> num_eqb a c = true.
Proof.
  unfold num_eqb, num_compare.
  destruct (xval_of a) as [| |m1 e1|], (xval_of b) as [| |m2 e2|],
    (xval_of c) as [| |m3 e3|]; simpl; try done.
  destruct (fin_compare m1 e1 m2 e2) eqn:H12; try done.
  destruct (fin_compare m2 e2 m3 e3) eqn:H23; try done.
  by rewrite (fin_compare_Eq_trans _ _ _ _ _ _ H12 H23).
Qed.

Lemma tuple_eqb_sym (a b : list num) :
  tuple_eqb a b = true -> tuple_eqb b a = true.
Proof.
  revert b. induction a as [|x a IH]; intros [|y b]; simpl; try done.
  intros [Hxy Hab]%andb_true_iff. apply andb_true_iff. split.
  - by apply num_eqb_sym.
  - by apply IH.
Qed.

Lemma tuple_eqb_trans (a b c : list num) :
  tuple_eqb a b = true -> tuple_eqb b c = true -> tuple_eqb a c = true.
Proof.
  revert b c. induction a as [|x a IH]; intros [|y b] [|z c]; simpl; try done.
  intros [Hxy Hab]%andb_true_iff [Hyz Hbc]%andb_true_iff.
  apply andb_true_iff. split.
  - by eapply num_eqb_trans.
  - by eapply IH.
Qed.

(** ** fix_triangles.py welds as the abstract loop does *)

Section FixTrianglesRefines.
Variable precision : nat.

Lemma dict_get_imap (g : nat -> Z) (nv : list vertex) (k : list num) :
  dict_get tuple_eqb
    (imap (fun j u => (FixTriangles.rounded precision u, g j)) nv) k =
  (fun p => g p.1) <$>
    first_seen (FixTriangles.rounded precision) tuple_eqb k nv.
Proof.
  revert g. induction nv as [|u nv IH]; intros g; [done|].
  unfold first_seen in *. rewrite imap_cons. cbn [dict_get list_find].
  case_decide as Hk.
  - rewrite Hk. done.
  - apply not_true_is_false in Hk. rewrite Hk.
    specialize (IH (g ∘ S)). unfold compose in *. rewrite IH.
    by destruct (list_find _ nv) as [[j x]|].
Qed.

Lemma dict_set_fresh {A B : Type} (eqb : A -> A -> bool)
    (d : list (A * B)) (k : A) (v : B) :
  dict_get eqb d k = None -> dict_set eqb d k v = d ++ [(k, v)].
Proof.
  induction d as [|[k' v'] d IH]; simpl; [done|].
  destruct (eqb k' k); [done|]. intros H. by rewrite IH.
Qed.

Lemma ft_step_related st acc v :
  ft_related precision st acc ->
  ft_related precision
    (FixTriangles.weld_step precision st (Z.of_nat (length acc.2)) v)
    (abs_step (FixTriangles.rounded precision) tuple_eqb acc v).
Proof.
  destruct acc as [nv m], st as [nv' vm ir].
  intros (Hnv & Hmap & Hidx). simpl in *. subst nv' vm ir.
  unfold FixTriangles.weld_step, abs_step. simpl.
  rewrite dict_get_imap.
  destruct (first_seen _ _ _ nv) as [[j u]|] eqn:Hseen; simpl.
  - split_and!; simpl; [done|done|].
    rewrite fmap_app. cbn [fmap list_fmap]. by rewrite map_seqZ_snoc, length_fmap.
  - split_and!; simpl; [done| |].
    + rewrite dict_set_fresh by (by rewrite dict_get_imap, Hseen).
      rewrite imap_app. simpl. by rewrite Nat.add_0_r.
    + rewrite fmap_app. cbn [fmap list_fmap]. by rewrite map_seqZ_snoc, length_fmap.
Qed.

Lemma ft_loop_related vs : forall st acc,
  ft_related precision st acc ->
  ft_related precision
    (FixTriangles.weld_loop precision (Z.of_nat (length acc.2)) vs st)
    (abs_weld_from (FixTriangles.rounded precision) tuple_eqb acc vs).
Proof.
  induction vs as [|v vs IH]; intros st acc Hrel; [done|].
  simpl. apply (ft_step_related _ _ v) in Hrel.
  apply IH in Hrel.
  replace (Z.of_nat (length acc.2) + 1) with
    (Z.of_nat (length (abs_step (FixTriangles.rounded precision) tuple_eqb acc v).2)).
  - exact Hrel.
  - unfold abs_step. destruct (first_seen _ _ _ _) as [[j u]|]; simpl;
      rewrite length_app; simpl; lia.
Qed.

Lemma ft_weld_related vs :
  ft_related precision (FixTriangles.weld precision vs)
    (abs_weld (FixTriangles.rounded precision) tuple_eqb vs).
Proof.
  apply (ft_loop_related vs _ ([], [])). done.
Qed.
End FixTrianglesRefines.

(** ** cleaner.py welds as the abstract loop does *)

Section CleanerRefines.
Variable precision : nat.
Variable total : nat.

Lemma cl_step_related st acc v :
  (length acc.2 < total)%nat ->
  cl_related precision total st acc ->
  cl_related precision total
    (Cleaner.weld_step precision st (length acc.2) v)
    (abs_step (Cleaner.vertex_key precision) string_same acc v).
Proof.
  destruct acc as [nv m], st as [nv' um im c].
  intros Hlt (Hnv & Hmap & Hidx & Hc). simpl in *. subst nv' im c.
  assert (forall x : Z,
    <[length m := x]>
      ((Z.of_nat <$> m) ++ replicate (total - length m) (-1)) =
    ((Z.of_nat <$> m) ++ [x]) ++ replicate (total - S (length m)) (-1))
    as Hins.
  { intros x. replace (total - length m)%nat with (S (total - S (length m))) by lia.
    rewrite <- (length_fmap Z.of_nat m) at 1.
    rewrite <- (Nat.add_0_r (length (Z.of_nat <$> m))).
    rewrite insert_app_r. simpl. by rewrite <- app_assoc. }
  unfold Cleaner.weld_step, abs_step. simpl. rewrite Hmap.
  destruct (first_seen _ _ _ nv) as [[j u]|] eqn:Hseen; simpl.
  - split_and!; simpl; [done|done| |done].
    rewrite Hins, fmap_app, length_app. simpl.
    by rewrite Nat.add_1_r.
  - split_and!; simpl; [done| | |].
    + intros s. destruct (decide (Cleaner.vertex_key precision v = s)) as [<-|Hne].
      * rewrite lookup_insert_eq, first_seen_snoc_fresh by done.
        unfold string_same. by rewrite bool_decide_eq_true_2.
      * rewrite lookup_insert_ne, Hmap by done.
        destruct (first_seen (Cleaner.vertex_key precision) string_same s nv)
          as [[j u]|] eqn:Hs.
        -- unfold first_seen in *. by rewrite (list_find_app_l _ _ _ _ _ Hs).
        -- rewrite first_seen_snoc_fresh by done.
           unfold string_same. by rewrite bool_decide_eq_false_2.
    + rewrite Hins, fmap_app, length_app. simpl.
      by rewrite Nat.add_1_r.
    + rewrite length_app. simpl. lia.
Qed.

Lemma cl_loop_related vs : forall st acc,
  (length acc.2 + length vs = total)%nat ->
  cl_related precision total st acc ->
  cl_related precision total
    (Cleaner.weld_loop precision (length acc.2) vs st)
    (abs_weld_from (Cleaner.vertex_key precision) string_same acc vs).
Proof.
  induction vs as [|v vs IH]; intros st acc Hlen Hrel; [done|].
  simpl in *. apply (cl_step_related _ _ v) in Hrel; [|lia].
  assert (length (abs_step (Cleaner.vertex_key precision) string_same acc v).2
          = S (length acc.2)) as Hstep.
  { unfold abs_step. destruct (first_seen _ _ _ _) as [[j u]|]; simpl;
      rewrite length_app; simpl; lia. }
  apply IH in Hrel; [|lia]. by rewrite Hstep in Hrel.
Qed.
End CleanerRefines.

Lemma cl_weld_related precision vs :
  cl_related precision (length vs) (Cleaner.weld precision vs)
    (abs_weld (Cleaner.vertex_key precision) string_same vs).
Proof.
  apply (cl_loop_related precision (length vs) vs _ ([], [])); [done|].
  split_and!; simpl; try done.
  by rewrite Nat.sub_0_r.
Qed.

Lemma string_same_sym (a b : string) :
  string_same a b = true -> string_same b a = true.
Proof. unfold string_same. intros ->%bool_decide_eq_true. by apply bool_decide_eq_true. Qed.

Lemma string_same_trans (a b c : string) :
  string_same a b = true -> string_same b c = true -> string_same a c = true.
Proof. unfold string_same. by intros ->%bool_decide_eq_true. Qed.

(** ** Welding keeps first occurrences and is idempotent *)

Lemma weld_inv_first_occurrence {K : Type} (key : vertex -> K)
    (same : K -> K -> bool) (vs nv : list vertex) (m : list nat) i v :
  weld_inv key same vs nv m ->
  vs !! i = Some v ->
  exists w,
    m !! i = Some w /\
    m !! (first_occurrence key same vs i v).1 = Some w /\
    nv !! w = Some (first_occurrence key same vs i v).2.
Proof.
  intros Hinv Hi. destruct (inv_first _ _ _ _ _ Hinv i v Hi) as (w & Hw & Hc).
  exists w. unfold first_occurrence.
  destruct (first_seen key same (key v) (take i vs)) as [[f u]|]; simpl.
  - destruct Hc. done.
  - done.
Qed.

Lemma ft_index_remap_lookup precision vs (i : nat) :
  FixTriangles.index_remap (FixTriangles.weld precision vs) !! Z.of_nat i =
  Z.of_nat <$>
    (abs_weld (FixTriangles.rounded precision) tuple_eqb vs).2 !! i.
Proof.
  destruct (ft_weld_related precision vs) as (_ & _ & ->).
  rewrite lookup_map_seqZ_0 by lia. by rewrite Nat2Z.id, list_lookup_fmap.
Qed.

Lemma cl_index_mapping_lookup precision vs :
  Cleaner.index_mapping (Cleaner.weld precision vs) =
  Z.of_nat <$> (abs_weld (Cleaner.vertex_key precision) string_same vs).2.
Proof.
  destruct (cl_weld_related precision vs) as (_ & _ & -> & _).
  pose proof (abs_weld_inv (Cleaner.vertex_key precision) string_same
                string_same_trans vs) as Hinv.
  rewrite (inv_len _ _ _ _ _ Hinv), Nat.sub_diag. simpl. by rewrite app_nil_r.
Qed.

(** C4, fix_triangles.py: the welded array is no longer than the input;
    every index maps to the welded position of the first occurrence of its
    tuple key, where that first vertex is stored unrounded; indices whose
    rounded tuples are equal map to the same position. *)
Lemma ft_weld_first_occurrence (precision : nat) (old_vertices : list vertex) :
  let st := FixTriangles.weld precision old_vertices in
  (length (FixTriangles.new_vertices st) <= length old_vertices)%nat /\
  (forall i v, old_vertices !! i = Some v ->
     let fo := first_occurrence (FixTriangles.rounded precision) tuple_eqb
                 old_vertices i v in
     exists w : nat,
       FixTriangles.index_remap st !! Z.of_nat i = Some (Z.of_nat w) /\
       FixTriangles.index_remap st !! Z.of_nat fo.1 = Some (Z.of_nat w) /\
       FixTriangles.new_vertices st !! w = Some fo.2) /\
  (forall i j vi vj,
     old_vertices !! i = Some vi -> old_vertices !! j = Some vj ->
     tuple_eqb (FixTriangles.rounded precision vi)
               (FixTriangles.rounded precision vj) = true ->
     FixTriangles.index_remap st !! Z.of_nat i =
     FixTriangles.index_remap st !! Z.of_nat j).
Proof.
  intros st. subst st.
  pose proof (abs_weld_inv (FixTriangles.rounded precision) tuple_eqb
                tuple_eqb_trans old_vertices) as Hinv.
  destruct (ft_weld_related precision old_vertices) as (Hnv & _ & _).
  rewrite Hnv. split_and!.
  - apply (inv_short _ _ _ _ _ Hinv).
  - intros i v Hi fo. subst fo.
    destruct (weld_inv_first_occurrence _ _ _ _ _ i v Hinv Hi) as (w & Hw & Hf & Hu).
    exists w. rewrite !ft_index_remap_lookup, Hw, Hf. done.
  - intros i j vi vj Hi Hj Hsame. rewrite !ft_index_remap_lookup.
    f_equal.
    exact (weld_inv_same _ _ tuple_eqb_sym tuple_eqb_trans _ _ _ i j vi vj
             Hinv Hi Hj Hsame).
Qed.

Lemma cl_weld_first_occurrence (precision : nat) (old_vertices : list vertex) :
  let st := Cleaner.weld precision old_vertices in
  (length (Cleaner.new_vertices st) <= length old_vertices)%nat /\
  (forall i v, old_vertices !! i = Some v ->
     let fo := first_occurrence (Cleaner.vertex_key precision) string_same
                 old_vertices i v in
     exists w : nat,
       Cleaner.index_mapping st !! i = Some (Z.of_nat w) /\
       Cleaner.index_mapping st !! fo.1 = Some (Z.of_nat w) /\
       Cleaner.new_vertices st !! w = Some fo.2) /\
  (forall i j vi vj,
     old_vertices !! i = Some vi -> old_vertices !! j = Some vj ->
     Cleaner.vertex_key precision vi = Cleaner.vertex_key precision vj ->
     Cleaner.index_mapping st !! i = Cleaner.index_mapping st !! j).
Proof.
  intros st. subst st.
  pose proof (abs_weld_inv (Cleaner.vertex_key precision) string_same
                string_same_trans old_vertices) as Hinv.
  destruct (cl_weld_related precision old_vertices) as (Hnv & _ & _).
  rewrite Hnv, cl_index_mapping_lookup. split_and!.
  - apply (inv_short _ _ _ _ _ Hinv).
  - intros i v Hi fo. subst fo.
    destruct (weld_inv_first_occurrence _ _ _ _ _ i v Hinv Hi) as (w & Hw & Hf & Hu).
    exists w. rewrite !list_lookup_fmap, Hw, Hf. done.
  - intros i j vi vj Hi Hj Hsame. rewrite !list_lookup_fmap.
    f_equal.
    apply (weld_inv_same _ _ string_same_sym string_same_trans _ _ _ i j vi vj
             Hinv Hi Hj).
    unfold string_same. by apply bool_decide_eq_true.
Qed.

Lemma abs_weld_again {K : Type} (key : vertex -> K) (same : K -> K -> bool)
    (vs : list vertex) :
  let nv := (abs_weld key same vs).1 in
  abs_weld key same nv = (nv, seq 0 (length nv)).
Proof.
  intros nv. apply abs_weld_distinct. intros w u Hw.
  unfold abs_weld, abs_weld_from in nv. subst nv. revert w u Hw.
  induction vs as [|v vs IH] using rev_ind; [done|].
  rewrite fold_left_app. simpl.
  destruct (fold_left (abs_step key same) vs ([], [])) as [nv m]. simpl in *.
  unfold abs_step; simpl.
  destruct (first_seen key same (key v) nv) as [[j x]|] eqn:Hseen; simpl; [done|].
  intros w u Hw. apply lookup_app_Some in Hw as [Hw|[Hge Hw]].
  - assert (w < length nv)%nat by eauto using lookup_lt_Some.
    rewrite take_app_le by lia. eauto.
  - apply list_lookup_singleton_Some in Hw as [Hw0 ->].
    assert (w = length nv) as -> by lia.
    by rewrite take_app_length.
Qed.

Lemma identity_map_lookup (n : nat) (x : Z) :
  map_seqZ (M := gmap Z Z) 0 (Z.of_nat <$> seq 0 n) !! x =
  if bool_decide (0 <= x < Z.of_nat n) then Some x else None.
Proof.
  rewrite lookup_map_seqZ. case_guard as Hx; simpl.
  - rewrite Z.sub_0_r, list_lookup_fmap.
    case_bool_decide as Hr.
    + rewrite lookup_seq_lt by lia. simpl. f_equal. lia.
    + rewrite lookup_seq_ge by lia. done.
  - rewrite bool_decide_eq_false_2 by lia. done.
Qed.

Lemma fmap_of_nat_seq (n : nat) : Z.of_nat <$> seq 0 n = seqZ 0 (Z.of_nat n).
Proof.
  unfold seqZ. rewrite Nat2Z.id. apply list_fmap_ext. intros i x _. lia.
Qed.

(** C5: welding the welded vertices again, at the same precision, gives the
    same vertex array and maps every index to itself, in fix_triangles.py
    (dict [index_remap]) and in cleaner.py (list [index_mapping]). *)
Theorem C5_weld_idempotent (precision : nat) (old_vertices : list vertex) :
  let ft := FixTriangles.weld precision old_vertices in
  let ft2 := FixTriangles.weld precision (FixTriangles.new_vertices ft) in
  let cl := Cleaner.weld precision old_vertices in
  let cl2 := Cleaner.weld precision (Cleaner.new_vertices cl) in
  (FixTriangles.new_vertices ft2 = FixTriangles.new_vertices ft /\
   forall x : Z,
     FixTriangles.index_remap ft2 !! x =
     if bool_decide (0 <= x < Z.of_nat (length (FixTriangles.new_vertices ft)))
     then Some x else None) /\
  (Cleaner.new_vertices cl2 = Cleaner.new_vertices cl /\
   Cleaner.index_mapping cl2 =
     seqZ 0 (Z.of_nat (length (Cleaner.new_vertices cl)))).
Proof.
  intros ft ft2 cl cl2. split.
  - subst ft ft2.
    destruct (ft_weld_related precision old_vertices) as (Hnv & _ & _).
    destruct (ft_weld_related precision
                (FixTriangles.new_vertices (FixTriangles.weld precision old_vertices)))
      as (Hnv2 & _ & Hidx2).
    rewrite Hnv in *. rewrite abs_weld_again in Hnv2, Hidx2. simpl in *.
    split; [done|]. intros x. rewrite Hidx2. apply identity_map_lookup.
  - subst cl cl2.
    destruct (cl_weld_related precision old_vertices) as (Hnv & _ & _).
    destruct (cl_weld_related precision
                (Cleaner.new_vertices (Cleaner.weld precision old_vertices)))
      as (Hnv2 & _ & _).
    rewrite cl_index_mapping_lookup. rewrite Hnv in *.
    rewrite abs_weld_again in *. simpl in *.
    split; [done|]. apply fmap_of_nat_seq.
Qed.

(** C4, with each key written out. In fix_triangles.py the key of a vertex
    is the tuple of its rounded coordinates, compared with [==]: the welded
    array is no longer than the input, every original index maps to the
    welded position given at the first occurrence of its key, where the
    vertex of that first occurrence is stored as it came, unrounded, and
    two vertices whose coordinates round to [==] numbers map to the same
    welded index. In cleaner.py the key is the text of the rounded
    coordinates joined by underscores, and all of this holds of vertices
    whose texts are the same. Coordinates that round to [==] numbers need
    not have the same text: of [[0,0,0],[0.0,0.0,0.0]] at precision 5
    cleaner.py keeps both vertices, keyed ["0_0_0"] and ["0.0_0.0_0.0"],
    and maps index 1 to 1, where fix_triangles.py maps it to 0. *)
Theorem C4_first_occurrence_of_each_key (precision : nat)
    (old_vertices : list vertex) :
  (let key := fun v : vertex => map (fun coord => py_round coord precision) v in
   let st := FixTriangles.weld precision old_vertices in
   (length (FixTriangles.new_vertices st) <= length old_vertices)%nat /\
   (forall i v, old_vertices !! i = Some v ->
      let fo := first_occurrence key tuple_eqb old_vertices i v in
      exists w : nat,
        FixTriangles.index_remap st !! Z.of_nat i = Some (Z.of_nat w) /\
        FixTriangles.index_remap st !! Z.of_nat fo.1 = Some (Z.of_nat w) /\
        FixTriangles.new_vertices st !! w = Some fo.2) /\
   (forall i j vi vj,
      old_vertices !! i = Some vi -> old_vertices !! j = Some vj ->
      tuple_eqb (key vi) (key vj) = true ->
      FixTriangles.index_remap st !! Z.of_nat i =
      FixTriangles.index_remap st !! Z.of_nat j)) /\
  (let key := fun v : vertex =>
     String.concat "_"
       (map num_str (map (fun coord => py_round coord precision) v)) in
   let st := Cleaner.weld precision old_vertices in
   (length (Cleaner.new_vertices st) <= length old_vertices)%nat /\
   (forall i v, old_vertices !! i = Some v ->
      let fo := first_occurrence key string_same old_vertices i v in
      exists w : nat,
        Cleaner.index_mapping st !! i = Some (Z.of_nat w) /\
        Cleaner.index_mapping st !! fo.1 = Some (Z.of_nat w) /\
        Cleaner.new_vertices st !! w = Some fo.2) /\
   (forall i j vi vj,
      old_vertices !! i = Some vi -> old_vertices !! j = Some vj ->
      key vi = key vj ->
      Cleaner.index_mapping st !! i = Cleaner.index_mapping st !! j)) /\
  (let round5 := fun v : vertex => map (fun coord => py_round coord 5) v in
   let ft := FixTriangles.weld 5 int_and_float_zeros in
   let cl := Cleaner.weld 5 int_and_float_zeros in
   tuple_eqb (round5 [PyInt 0; PyInt 0; PyInt 0])
             (round5 [F 0 0; F 0 0; F 0 0]) = true /\
   FixTriangles.new_vertices ft = [[PyInt 0; PyInt 0; PyInt 0]] /\
   FixTriangles.index_remap ft !! 0 = Some 0 /\
   FixTriangles.index_remap ft !! 1 = Some 0 /\
   map (fun v => String.concat "_" (map num_str (round5 v)))
     int_and_float_zeros = ["0_0_0"; "0.0_0.0_0.0"] /\
   Cleaner.new_vertices cl = int_and_float_zeros /\
   Cleaner.index_mapping cl = [0; 1]).
Proof.
  split; [exact (ft_weld_first_occurrence precision old_vertices)|].
  split; [exact (cl_weld_first_occurrence precision old_vertices)|].
  vm_compute. repeat split; reflexivity.
Qed.


(** ** When the two kinds of key agree *)

Lemma list_find_ext_in {A : Type} (P Q : A -> Prop)
    `{!forall x, Decision (P x)} `{!forall x, Decision (Q x)} (l : list A) :
  (forall x, x ∈ l -> P x <-> Q x) ->
  list_find P l = list_find Q l.
Proof.
  induction l as [|x l IH]; intros HPQ; simpl; [done|].
  rewrite (decide_ext (P x) (Q x)) by (apply HPQ; left).
  rewrite IH; [done|]. intros y Hy. apply HPQ. by right.
Qed.

Lemma abs_weld_subset {K : Type} (key : vertex -> K) (same : K -> K -> bool)
    (vs : list vertex) :
  (abs_weld key same vs).1 ⊆ vs.
Proof.
  induction vs as [|v vs IH] using rev_ind; [done|].
  rewrite abs_weld_snoc. unfold abs_step.
  destruct (first_seen key same (key v) (abs_weld key same vs).1) as [[j u]|];
    simpl; intros x Hx; apply elem_of_app.
  - left. by apply IH.
  - apply elem_of_app in Hx as [Hx|Hx]; [left; by apply IH | by right].
Qed.

Lemma abs_weld_keys_agree {K1 K2 : Type}
    (key1 : vertex -> K1) (same1 : K1 -> K1 -> bool)
    (key2 : vertex -> K2) (same2 : K2 -> K2 -> bool) (vs : list vertex) :
  (forall u v, u ∈ vs -> v ∈ vs ->
     same1 (key1 u) (key1 v) = same2 (key2 u) (key2 v)) ->
  abs_weld key1 same1 vs = abs_weld key2 same2 vs.
Proof.
  induction vs as [|v vs IH] using rev_ind; intros Hagree; [done|].
  rewrite !abs_weld_snoc, <- IH
    by (intros; apply Hagree; apply elem_of_app; by left).
  unfold abs_step.
  assert (first_seen key1 same1 (key1 v) (abs_weld key1 same1 vs).1 =
          first_seen key2 same2 (key2 v) (abs_weld key1 same1 vs).1) as ->.
  { unfold first_seen. apply list_find_ext_in. intros u Hu.
    rewrite Hagree; [done| |].
    - apply elem_of_app. left. by apply (abs_weld_subset key1 same1 vs).
    - apply elem_of_app. right. by left. }
  done.
Qed.

(** Where the string keys decide as the tuple keys do on the vertices of the
    input, the two welding loops return the same vertices and the same
    index map. *)
Lemma welds_agree_when_keys_agree (precision : nat) (old_vertices : list vertex) :
  (forall u v, u ∈ old_vertices -> v ∈ old_vertices ->
     tuple_eqb (FixTriangles.rounded precision u)
               (FixTriangles.rounded precision v) =
     bool_decide (Cleaner.vertex_key precision u = Cleaner.vertex_key precision v)) ->
  let ft := FixTriangles.weld precision old_vertices in
  let cl := Cleaner.weld precision old_vertices in
  FixTriangles.new_vertices ft = Cleaner.new_vertices cl /\
  forall i : nat,
    FixTriangles.index_remap ft !! Z.of_nat i = Cleaner.index_mapping cl !! i.
Proof.
  intros Hagree ft cl. subst ft cl.
  destruct (ft_weld_related precision old_vertices) as (Hnv1 & _ & _).
  destruct (cl_weld_related precision old_vertices) as (Hnv2 & _ & _).
  pose proof (abs_weld_keys_agree (FixTriangles.rounded precision) tuple_eqb
                (Cleaner.vertex_key precision) string_same old_vertices Hagree)
    as Heq.
  split.
  - by rewrite Hnv1, Hnv2, Heq.
  - intros i. rewrite ft_index_remap_lookup, cl_index_mapping_lookup.
    by rewrite list_lookup_fmap, Heq.
Qed.

(** ** The welding example and the two kinds of key *)

(** C8, evaluated on the array as [json.load] reads it: [0] and [1] are
    [int]s and [0.000001] is a [float], which [round(_, 5)] takes to
    [0.0]. The tuple keys of fix_triangles.py at precision 5 find
    [(0, 0, 0.0)] equal to [(0, 0, 0)]: index 4 maps to 0 and four
    vertices remain. The string keys of cleaner.py, at its precision 5,
    are ["0_0_0"] and ["0_0_0.0"]: index 4 maps to 4 and five vertices
    remain. At its own [VERTEX_PRECISION], 6, fix_triangles.py rounds the
    coordinate to itself and keeps five vertices as well. With every
    coordinate read as a [float], cleaner.py merges index 4 into 0. *)
Theorem C8_weld_example_as_json :
  py_round (F 1 (-6)) 5 = PyFloat (S754_zero false) /\
  (let st := FixTriangles.weld 5 square_json in
   FixTriangles.index_remap st !! 4 = Some 0 /\
   FixTriangles.new_vertices st = take 4 square_json /\
   length (FixTriangles.new_vertices st) = 4%nat) /\
  (let st := Cleaner.weld Cleaner.PRECISION square_json in
   Cleaner.PRECISION = 5%nat /\
   map (Cleaner.vertex_key 5) square_json =
     ["0_0_0"; "1_0_0"; "1_1_0"; "0_1_0"; "0_0_0.0"] /\
   Cleaner.index_mapping st = [0; 1; 2; 3; 4] /\
   Cleaner.new_vertices st = square_json /\
   length (Cleaner.new_vertices st) = 5%nat) /\
  (let st := FixTriangles.weld FixTriangles.VERTEX_PRECISION square_json in
   FixTriangles.VERTEX_PRECISION = 6%nat /\
   py_round (F 1 (-6)) 6 = F 1 (-6) /\
   FixTriangles.index_remap st !! 4 = Some 4 /\
   FixTriangles.new_vertices st = square_json /\
   length (FixTriangles.new_vertices st) = 5%nat) /\
  (let st := Cleaner.weld 5 square_floats in
   Cleaner.index_mapping st = [0; 1; 2; 3; 0] /\
   Cleaner.new_vertices st = take 4 square_floats /\
   length (Cleaner.new_vertices st) = 4%nat).
Proof. vm_compute. repeat split; reflexivity. Qed.

(** C9, evaluated: on [[0.0,0.0,0.0],[-0.0,0.0,0.0]] the tuple keys are
    [==] and the two vertices merge, the string keys ["0.0_0.0_0.0"] and
    ["-0.0_0.0_0.0"] differ and both vertices stay; on the square example as
    [json.load] types it the keys ["0_0_0"] and ["0_0_0.0"] differ as well. *)
Theorem C9_string_keys_split_equal_tuples :
  (let ft := FixTriangles.weld 5 signed_zeros in
   let cl := Cleaner.weld 5 signed_zeros in
   length (FixTriangles.new_vertices ft) = 1%nat /\
   FixTriangles.index_remap ft !! 1 = Some 0 /\
   map (Cleaner.vertex_key 5) signed_zeros = ["0.0_0.0_0.0"; "-0.0_0.0_0.0"] /\
   length (Cleaner.new_vertices cl) = 2%nat /\
   Cleaner.index_mapping cl = [0; 1]) /\
  (let ft := FixTriangles.weld 5 square_json in
   let cl := Cleaner.weld 5 square_json in
   length (FixTriangles.new_vertices ft) = 4%nat /\
   FixTriangles.index_remap ft !! 4 = Some 0 /\
   Cleaner.vertex_key 5 [PyInt 0; PyInt 0; PyInt 0] = "0_0_0" /\
   Cleaner.vertex_key 5 [PyInt 0; PyInt 0; F 1 (-6)] = "0_0_0.0" /\
   length (Cleaner.new_vertices cl) = 5%nat /\
   Cleaner.index_mapping cl = [0; 1; 2; 3; 4]).
Proof. vm_compute. repeat split; reflexivity. Qed.

(** The last vertex of the example is welded onto the first one, which is
    stored as it came. *)
Lemma C4_witness :
  exists w : nat,
    FixTriangles.index_remap (FixTriangles.weld 5 square_json) !! 4
      = Some (Z.of_nat w) /\
    FixTriangles.index_remap (FixTriangles.weld 5 square_json) !! 0
      = Some (Z.of_nat w) /\
    FixTriangles.new_vertices (FixTriangles.weld 5 square_json) !! w
      = Some [PyInt 0; PyInt 0; PyInt 0].
Proof.
  destruct (C4_first_occurrence_of_each_key 5 square_json) as [(_ & H & _) _].
  destruct (H 4%nat [PyInt 0; PyInt 0; F 1 (-6)] eq_refl) as (w & Hi & Hf & Hv).
  exists w. split; [exact Hi|]. split; [exact Hf | exact Hv].
Defined.

Section CollinearExample.
#[local] Existing Instance rounding_libm.

(** Three collinear points as a triangle are dropped by both filters. *)
Lemma collinear_triangle_rejected :
  FixTriangles.repair 6 collinear [Arr [int_ring [0; 1; 2]]]
    = Ok (collinear, []) /\
  Fix.filter_boundaries collinear [Arr [Arr [int_ring [0; 1; 2]]]] = Ok [].
Proof. split; vm_compute; reflexivity. Qed.

End CollinearExample.


(** ** The power operator *)

Section Power.
Context {libm : Libm}.

Lemma num_sq_int (x : Z) : num_sq (PyInt x) = Ok (PyInt (x * x)).
Proof. reflexivity. Qed.

(** The bases that [float_pow] answers without calling the C library:
    [nan ** 2] is [nan], [(+-inf) ** 2] is [inf], [(+-0.0) ** 2] is [0.0]
    and [(+-1.0) ** 2] is [1.0]. *)
Lemma float_sq_without_pow :
  float_sq S754_nan = Ok S754_nan /\
  (forall s, float_sq (S754_infinity s) = Ok (S754_infinity false)) /\
  (forall s, float_sq (S754_zero s) = Ok (S754_zero false)) /\
  (forall s, float_sq (S754_finite s 4503599627370496 (-52))
             = Ok (S754_finite false 4503599627370496 (-52))).
Proof. split_and!; try done; intros s; vm_compute; reflexivity. Qed.

(** Every other base goes to [pow] without its sign; an infinite result
    and an [errno] that stays at [ERANGE] with a result other than zero
    raise [OverflowError], any other [errno] raises [ValueError]. *)
Lemma float_sq_with_pow (s : bool) (m : positive) (e : Z) :
  num_eqb (PyFloat (S754_finite false m e)) (PyInt 1) = false ->
  float_sq (S754_finite s m e) =
  match pow2 (S754_finite false m e) with
  | (S754_infinity _, ENONE) => Raise OverflowError
  | (ix, ENONE) => Ok ix
  | (S754_zero z, ERANGE) => Ok (S754_zero z)
  | (_, ERANGE) => Raise OverflowError
  | (_, EOTHER) => Raise ValueError
  end.
Proof.
  intros Hone. unfold float_sq. cbv zeta. rewrite Hone.
  destruct (pow2 (S754_finite false m e)) as [ix err].
  by destruct err, ix.
Qed.

End Power.

Section PowerExamples.
#[local] Existing Instance rounding_libm.

(** With a correctly rounding [pow]: [(-3.0) ** 2], [1.5 ** 2],
    [1e-9 ** 2], the underflow of [1e-200 ** 2] to [0.0] and the
    [OverflowError] of [1e200 ** 2]. *)
Lemma num_sq_examples :
  num_sq (F (-3) 0) = Ok (F 9 0) /\
  num_sq (F 15 (-1)) = Ok (F 225 (-2)) /\
  num_sq (F 1 (-9)) = Ok (F 1 (-18)) /\
  num_sq (F 1 (-200)) = Ok (PyFloat (S754_zero false)) /\
  num_sq (F 1 200) = Raise OverflowError /\
  num_sq (PyInt (-3)) = Ok (PyInt 9).
Proof. vm_compute. repeat split; reflexivity. Qed.

End PowerExamples.

(** ** The projection axes and the index check *)

Lemma num_eqb_not_gtb (a b : num) : num_eqb a b = true -> num_gtb a b = false.
Proof.
  unfold num_eqb, num_gtb. by destruct (num_compare a b) as [[]|].
Qed.

(** C6, on the code's side: the normal of the tilted square has
    [|nz| = |nx| > |ny|], so [|nz|] is maximal, and the axes kept are (Y,Z),
    not (X,Y). *)
Lemma C6_counterexample :
  RepairGeometry.get_normal tilted_square = Ok (PyInt 2, PyInt 0, PyInt 2) /\
  num_geb (num_abs (PyInt 2)) (num_abs (PyInt 2)) = true /\
  num_geb (num_abs (PyInt 2)) (num_abs (PyInt 0)) = true /\
  RepairGeometry.projection_axes (PyInt 2, PyInt 0, PyInt 2) = (1, 2) /\
  RepairGeometry.projection_axes (PyInt 2, PyInt 0, PyInt 2) <> (0, 1).
Proof.
  split_and!; try (vm_compute; reflexivity).
  vm_compute. intros H. discriminate H.
Qed.

(** C6 as the code has it: (X,Y) is kept exactly when [|nz|] is strictly
    greater than both other components; otherwise (Y,Z) exactly when [|nx|]
    is strictly greater than [|ny|]; otherwise (X,Z). A tie of [|nz|] with
    another component never keeps (X,Y), and a tie of [|nx|] with [|ny|]
    never keeps (Y,Z). *)
Theorem C6_projection_axes_strict (n0 n1 n2 : num) :
  let a0 := num_abs n0 in
  let a1 := num_abs n1 in
  let a2 := num_abs n2 in
  let axes := RepairGeometry.projection_axes (n0, n1, n2) in
  (axes = (0, 1) <-> num_gtb a2 a0 = true /\ num_gtb a2 a1 = true) /\
  (axes = (1, 2) <->
     ~ (num_gtb a2 a0 = true /\ num_gtb a2 a1 = true) /\ num_gtb a0 a1 = true) /\
  (axes = (0, 2) <->
     ~ (num_gtb a2 a0 = true /\ num_gtb a2 a1 = true) /\ num_gtb a0 a1 = false) /\
  (num_eqb a2 a0 = true \/ num_eqb a2 a1 = true -> axes <> (0, 1)) /\
  (num_eqb a0 a1 = true -> axes <> (1, 2)).
Proof.
  intros a0 a1 a2 axes. subst axes. unfold RepairGeometry.projection_axes.
  fold a0 a1 a2.
  split_and!.
  - destruct (num_gtb a2 a0), (num_gtb a2 a1), (num_gtb a0 a1); simpl;
      intuition congruence.
  - destruct (num_gtb a2 a0), (num_gtb a2 a1), (num_gtb a0 a1); simpl;
      intuition congruence.
  - destruct (num_gtb a2 a0), (num_gtb a2 a1), (num_gtb a0 a1); simpl;
      intuition congruence.
  - intros [H|H]; apply num_eqb_not_gtb in H; rewrite H; simpl.
    + by destruct (num_gtb a0 a1).
    + rewrite andb_false_r. by destruct (num_gtb a0 a1).
  - intros H. apply num_eqb_not_gtb in H. rewrite H.
    by destruct (num_gtb a2 a0 && num_gtb a2 a1).
Qed.

(** The normal [2, 0, 2] ties on its first and last component and (X,Y) is
    not kept; [1, 1, 0] ties on its first two and (Y,Z) is not kept. *)
Lemma C6_witness :
  RepairGeometry.projection_axes (PyInt 2, PyInt 0, PyInt 2) <> (0, 1) /\
  RepairGeometry.projection_axes (PyInt 1, PyInt 1, PyInt 0) <> (1, 2).
Proof.
  split.
  - apply (C6_projection_axes_strict (PyInt 2) (PyInt 0) (PyInt 2)).
    left. reflexivity.
  - apply (C6_projection_axes_strict (PyInt 1) (PyInt 1) (PyInt 0)).
    reflexivity.
Defined.

Section IndexCheck.
Context {libm : Libm}.


End IndexCheck.

(** ** Rings in fix_triangles.py *)

Section Rings.
Context {libm : Libm}.

Lemma no_adjacent_dup_snoc (c : list Z) (x : Z) :
  no_adjacent_dup c ->
  (forall y, last c = Some y -> y <> x) ->
  no_adjacent_dup (c ++ [x]).
Proof.
  intros Hc Hlast i a b Ha Hb.
  assert (S i < length (c ++ [x]))%nat as Hlt by eauto using lookup_lt_Some.
  rewrite length_app in Hlt. simpl in Hlt.
  rewrite lookup_app_l in Ha by lia.
  destruct (decide (S i < length c)%nat) as [Hin|Hout].
  - rewrite lookup_app_l in Hb by lia. eauto.
  - rewrite lookup_app_r in Hb by lia.
    replace (S i - length c)%nat with 0%nat in Hb by lia.
    simpl in Hb. injection Hb as <-.
    apply Hlast. rewrite last_lookup.
    replace (pred (length c)) with i by lia. done.
Qed.

Lemma remove_consecutive_snoc (l : list Z) (idx : Z) :
  FixTriangles.remove_consecutive (l ++ [idx]) =
  let cleaned := FixTriangles.remove_consecutive l in
  match last cleaned with
  | Some y => if idx =? y then cleaned else cleaned ++ [idx]
  | None => cleaned ++ [idx]
  end.
Proof. unfold FixTriangles.remove_consecutive. by rewrite fold_left_app. Qed.

Lemma remove_consecutive_no_adjacent (l : list Z) :
  no_adjacent_dup (FixTriangles.remove_consecutive l).
Proof.
  induction l as [|idx l IH] using rev_ind.
  { intros i x y Hx. done. }
  rewrite remove_consecutive_snoc. simpl.
  destruct (last (FixTriangles.remove_consecutive l)) as [y|] eqn:Hlast.
  - destruct (idx =? y) eqn:Heq; [done|].
    apply no_adjacent_dup_snoc; [done|].
    intros y' Hy'. rewrite Hlast in Hy'. injection Hy' as <-.
    apply Z.eqb_neq in Heq. congruence.
  - apply no_adjacent_dup_snoc; [done|]. intros y'. by rewrite Hlast.
Qed.

Lemma remove_closing_open (c : list Z) :
  no_adjacent_dup c ->
  let r := FixTriangles.remove_closing c in
  no_adjacent_dup r /\ ((1 < length r)%nat -> head r <> last r).
Proof.
  intros Hc r. subst r. unfold FixTriangles.remove_closing.
  destruct (head c) as [a|] eqn:Hhead.
  2:{ destruct c; [|done]. split; [done|]. simpl. lia. }
  destruct (last c) as [b|] eqn:Hlast.
  2:{ destruct c; [done|]. by rewrite last_cons in Hlast; destruct (last c). }
  destruct ((1 <? Z.of_nat (length c)) && (a =? b)) eqn:Htest.
  - apply andb_true_iff in Htest as [Hlen Hab].
    apply Z.ltb_lt in Hlen. apply Z.eqb_eq in Hab. subst b.
    split.
    + intros i x y Hx Hy.
      apply lookup_take_Some in Hx as [Hx _].
      apply lookup_take_Some in Hy as [Hy _]. eauto.
    + rewrite length_take. intros Hr Heq.
      rewrite last_lookup, length_take in Heq.
      rewrite head_lookup in Heq, Hhead.
      rewrite lookup_take_lt in Heq by lia.
      rewrite Hhead in Heq. symmetry in Heq.
      apply lookup_take_Some in Heq as [Heq _].
      rewrite last_lookup in Hlast.
      apply (Hc (length c - 2)%nat a a); [| |done].
      * rewrite <- Heq. f_equal. lia.
      * rewrite <- Hlast. f_equal. lia.
  - split; [done|]. intros Hr. rewrite Hhead, Hlast.
    apply andb_false_iff in Htest as [Hlen|Hab].
    + apply Z.ltb_ge in Hlen. lia.
    + apply Z.eqb_neq in Hab. congruence.
Qed.

Lemma clean_ring_open (remapped : list Z) :
  let cleaned := FixTriangles.clean_ring remapped in
  no_adjacent_dup cleaned /\
  ((1 < length cleaned)%nat -> head cleaned <> last cleaned).
Proof.
  apply remove_closing_open, remove_consecutive_no_adjacent.
Qed.

Lemma process_ring_Some index_remap vertices ring out :
  FixTriangles.process_ring index_remap vertices ring = Ok (Some out) ->
  exists remapped,
    mapM (FixTriangles.remap_index index_remap) ring = Ok remapped /\
    out = int_ring remapped /\
    (3 <= length (unique (FixTriangles.clean_ring remapped)))%nat /\
    (forall u0 u1 u2,
       unique (FixTriangles.clean_ring remapped) = [u0; u1; u2] ->
       FixTriangles.is_degenerate_triangle u0 u1 u2 vertices = Ok false).
Proof.
  unfold FixTriangles.process_ring.
  destruct (mapM _ ring) as [remapped|e]; simpl; [|done].
  intros H. exists remapped. split; [done|].
  destruct (unique (FixTriangles.clean_ring remapped))
    as [|u0 [|u1 [|u2 [|u3 rest]]]] eqn:Huniq; try done.
  - destruct (FixTriangles.is_degenerate_triangle u0 u1 u2 vertices)
      as [[]|e] eqn:Hdeg; simpl in H; try done.
    injection H as <-. split_and!; [done|simpl; lia|].
    intros ? ? ? [= <- <- <-]. done.
  - revert H. case Z.ltb_spec; [lia|]. intros _ H.
    injection H as <-. split_and!; [done|simpl; lia|]. intros ? ? ? [=].
Qed.

(** C1 as the code has it: a leaf ring that survives is returned as the
    remapped index sequence, unchanged. The cleaned sequence, in which no
    index is followed by itself and the last index differs from the first,
    only decides whether the ring survives: it must hold at least three
    distinct indices. The rings [0,1,2,0] and [0,1,1,2] clean to [0,1,2]. *)
Theorem C1_ring_returned_as_remapped (index_remap : gmap Z Z)
    (vertices : list vertex) (n : num) (rest : list boundary) (out : boundary) :
  FixTriangles.process_boundary index_remap vertices (Arr (Num n :: rest))
    = Ok (Some out) ->
  exists remapped,
    mapM (FixTriangles.remap_index index_remap) (Num n :: rest) = Ok remapped /\
    out = int_ring remapped /\
    let cleaned := FixTriangles.clean_ring remapped in
    no_adjacent_dup cleaned /\
    ((1 < length cleaned)%nat -> head cleaned <> last cleaned) /\
    (3 <= length (unique cleaned))%nat /\
    FixTriangles.clean_ring [0; 1; 2; 0] = [0; 1; 2] /\
    FixTriangles.clean_ring [0; 1; 1; 2] = [0; 1; 2].
Proof.
  cbn [FixTriangles.process_boundary].
  intros (remapped & Hmap & -> & Huniq & _)%process_ring_Some.
  exists remapped. split; [done|]. split; [done|].
  destruct (clean_ring_open remapped) as [Hadj Hopen].
  split_and!; done.
Qed.

End Rings.

Section RingsExamples.
#[local] Existing Instance rounding_libm.

(** C1 on the code's side: with the three vertices of a right triangle, the
    ring [0,1,2,0] cleans to [0,1,2] and the ring [0,1,1,2] too, and what
    [process_boundary] returns is the ring as remapped, closing index and
    repeated index included. *)
Lemma C1_counterexample :
  let st := FixTriangles.weld 6 right_triangle in
  let process :=
    FixTriangles.process_boundary (FixTriangles.index_remap st)
      (FixTriangles.new_vertices st) in
  FixTriangles.clean_ring [0; 1; 2; 0] = [0; 1; 2] /\
  process (int_ring [0; 1; 2; 0]) = Ok (Some (int_ring [0; 1; 2; 0])) /\
  process (int_ring [0; 1; 2; 0]) <> Ok (Some (int_ring [0; 1; 2])) /\
  FixTriangles.clean_ring [0; 1; 1; 2] = [0; 1; 2] /\
  process (int_ring [0; 1; 1; 2]) = Ok (Some (int_ring [0; 1; 1; 2])) /\
  process (int_ring [0; 1; 1; 2]) <> Ok (Some (int_ring [0; 1; 2])).
Proof.
  split_and!; try (vm_compute; reflexivity);
    vm_compute; intros H; discriminate H.
Qed.

Lemma C1_witness :
  exists remapped,
    int_ring [0; 1; 2; 0] = int_ring remapped /\
    (3 <= length (unique (FixTriangles.clean_ring remapped)))%nat.
Proof.
  destruct (C1_ring_returned_as_remapped
              (FixTriangles.index_remap (FixTriangles.weld 6 right_triangle))
              (FixTriangles.new_vertices (FixTriangles.weld 6 right_triangle))
              (PyInt 0) [Num (PyInt 1); Num (PyInt 2); Num (PyInt 0)]
              (int_ring [0; 1; 2; 0]))
    as (remapped & _ & Hout & _ & _ & Huniq & _).
  - vm_compute. reflexivity.
  - exists remapped. split; [exact Hout | exact Huniq].
Defined.

End RingsExamples.

(** ** An index outside the vertex array at remap time *)

Section Abort.
Context {libm : Libm}.

Lemma boundary_ind_forall (P : boundary -> Prop) :
  (forall n, P (Num n)) ->
  (forall items, Forall P items -> P (Arr items)) ->
  forall b, P b.
Proof.
  intros Hnum Harr. fix IH 1. intros [n|items].
  - apply Hnum.
  - apply Harr. induction items as [|b items IHitems]; constructor.
    + apply IH.
    + apply IHitems.
Qed.

Lemma mapM_raise {A B : Type} (f : A -> result B) (l : list A) (x : A) :
  x ∈ l -> is_ok (f x) = false -> is_ok (mapM f l) = false.
Proof.
  induction 1 as [x l|x y l Hin IH]; intros Hx; simpl.
  - by destruct (f x).
  - destruct (f y); [|done]. simpl.
    specialize (IH Hx). by destruct (mapM f l).
Qed.

Lemma collectM_raise {A B : Type} (f : A -> result (option B)) (l : list A)
    (x : A) :
  x ∈ l -> is_ok (f x) = false -> is_ok (collectM f l) = false.
Proof.
  induction 1 as [x l|x y l Hin IH]; intros Hx; simpl.
  - by destruct (f x).
  - destruct (f y); [|done]. simpl.
    specialize (IH Hx). by destruct (collectM f l).
Qed.

Lemma ft_index_remap_outside precision (old_vertices : list vertex) (z : Z) :
  ~ (0 <= z < Z.of_nat (length old_vertices)) ->
  FixTriangles.index_remap (FixTriangles.weld precision old_vertices) !! z = None.
Proof.
  intros Hz.
  destruct (ft_weld_related precision old_vertices) as (_ & _ & ->).
  pose proof (abs_weld_inv (FixTriangles.rounded precision) tuple_eqb
                tuple_eqb_trans old_vertices) as Hinv.
  apply lookup_map_seqZ_None. rewrite length_fmap, (inv_len _ _ _ _ _ Hinv). lia.
Qed.

Lemma remap_ints_KeyError (index_remap : gmap Z Z) (ring : list boundary) (z : Z) :
  Forall is_int ring ->
  Num (PyInt z) ∈ ring ->
  index_remap !! z = None ->
  mapM (FixTriangles.remap_index index_remap) ring = Raise KeyError.
Proof.
  intros Hints Hin Hz. induction Hints as [|b ring [z0 ->] Hints IH]; simpl.
  { by apply elem_of_nil in Hin. }
  destruct (index_remap !! z0) as [j|] eqn:Hz0; simpl; [|done].
  apply elem_of_cons in Hin as [Heq|Hin].
  - injection Heq as ->. congruence.
  - by rewrite IH.
Qed.

Lemma process_int_ring_KeyError (index_remap : gmap Z Z)
    (vertices : list vertex) (ring : list boundary) (z : Z) :
  Forall is_int ring ->
  Num (PyInt z) ∈ ring ->
  index_remap !! z = None ->
  FixTriangles.process_boundary index_remap vertices (Arr ring) = Raise KeyError.
Proof.
  intros Hints Hin Hz.
  pose proof (remap_ints_KeyError _ _ _ Hints Hin Hz) as Hmap.
  destruct Hints as [|b ring [z0 ->] Hints].
  { by apply elem_of_nil in Hin. }
  cbn [FixTriangles.process_boundary]. unfold FixTriangles.process_ring.
  by rewrite Hmap.
Qed.

Lemma inside_raise (index_remap : gmap Z Z) (vertices : list vertex)
    (r b : boundary) :
  inside r b ->
  is_ok (FixTriangles.process_boundary index_remap vertices r) = false ->
  is_ok (FixTriangles.process_boundary index_remap vertices b) = false.
Proof.
  induction 1 as [|first rest b Hin Hinside IH]; intros Hr; [done|].
  cbn [FixTriangles.process_boundary].
  pose proof (collectM_raise _ _ _ Hin (IH Hr)) as Hraise.
  by destruct (collectM _ (Arr first :: rest)).
Qed.

Lemma update_item_raises_IndexError (index_mapping : list Z) (b : boundary)
    (e : exn) :
  Cleaner.update_item index_mapping b = Raise e -> e = IndexError.
Proof.
  revert e. induction b as [[z|f]|items IH] using boundary_ind_forall;
    intros e; simpl.
  - unfold py_index.
    destruct (_ || _); simpl; [by intros [= <-]|].
    destruct (index_mapping !! _); simpl; [done|by intros [= <-]].
  - done.
  - destruct (mapM (Cleaner.update_item index_mapping) items) as [l'|e'] eqn:Hm;
      simpl; [done|]. intros [= <-].
    clear -IH Hm. revert e' Hm.
    induction IH as [|b items Hb _ IHitems]; intros e' Hm; simpl in Hm; [done|].
    destruct (Cleaner.update_item index_mapping b) as [y|e1] eqn:Hb1; simpl in Hm.
    + destruct (mapM (Cleaner.update_item index_mapping) items) as [ys|e2] eqn:Hm2;
        simpl in Hm; [done|]. injection Hm as <-. by apply IHitems.
    + injection Hm as <-. by apply Hb.
Qed.

Lemma update_item_inside_raise (index_mapping : list Z) (ring : list boundary)
    (b : boundary) (z : Z) :
  inside (Arr ring) b ->
  Num (PyInt z) ∈ ring ->
  z < - Z.of_nat (length index_mapping) \/ Z.of_nat (length index_mapping) <= z ->
  is_ok (Cleaner.update_item index_mapping b) = false.
Proof.
  intros Hinside Hin Hz.
  assert (is_ok (Cleaner.update_item index_mapping (Arr ring)) = false) as Hring.
  { simpl.
    assert (is_ok (Cleaner.update_item index_mapping (Num (PyInt z))) = false)
      as Hnum.
    { simpl. unfold py_index.
      destruct (_ || _) eqn:Htest; [done|].
      apply orb_false_iff in Htest as [H1 H2].
      destruct (z <? 0) eqn:Hneg; lia. }
    pose proof (mapM_raise _ _ _ Hin Hnum) as Hraise.
    by destruct (mapM _ ring). }
  clear Hin Hz. induction Hinside as [|first rest b Hin Hinside IH]; [done|].
  pose proof (mapM_raise _ _ _ Hin IH) as Hraise.
  remember (Arr first :: rest) as items. simpl.
  by destruct (mapM _ items).
Qed.

(** C3 as the code has it: when a ring of integers that the remapper reaches
    holds an index outside the vertex array, [index_remap[...]] raises
    [KeyError] on that ring and the pass of fix_triangles.py ends with an
    exception, with no boundaries returned; cleaner.py ends with
    [IndexError] when the index is at or beyond the length or below its
    negation. *)
Theorem C3_out_of_bounds_index_aborts (precision : nat)
    (old_vertices : list vertex) (boundaries : list boundary)
    (b : boundary) (ring : list boundary) (z : Z) :
  b ∈ boundaries ->
  inside (Arr ring) b ->
  Forall is_int ring ->
  Num (PyInt z) ∈ ring ->
  ~ (0 <= z < Z.of_nat (length old_vertices)) ->
  let st := FixTriangles.weld precision old_vertices in
  FixTriangles.process_boundary (FixTriangles.index_remap st)
    (FixTriangles.new_vertices st) (Arr ring) = Raise KeyError /\
  is_ok (FixTriangles.repair precision old_vertices boundaries) = false /\
  (z < - Z.of_nat (length old_vertices) \/ Z.of_nat (length old_vertices) <= z ->
   Cleaner.repair precision old_vertices boundaries = Raise IndexError).
Proof.
  intros Hb Hinside Hints Hin Hz st.
  assert (FixTriangles.process_boundary (FixTriangles.index_remap st)
            (FixTriangles.new_vertices st) (Arr ring) = Raise KeyError) as Hring.
  { apply (process_int_ring_KeyError _ _ _ z); [done..|].
    by apply ft_index_remap_outside. }
  split_and!; [done| |].
  - unfold FixTriangles.repair, FixTriangles.clean_boundaries. fold st.
    assert (is_ok (FixTriangles.process_boundary (FixTriangles.index_remap st)
                     (FixTriangles.new_vertices st) b) = false) as Hraise.
    { apply (inside_raise _ _ _ _ Hinside). by rewrite Hring. }
    pose proof (collectM_raise _ _ _ Hb Hraise) as Hall.
    by destruct (collectM _ boundaries).
  - intros Hout. unfold Cleaner.repair, Cleaner.update_boundaries.
    set (im := Cleaner.index_mapping (Cleaner.weld precision old_vertices)).
    assert (length im = length old_vertices) as Hlen.
    { subst im. rewrite cl_index_mapping_lookup, length_fmap.
      apply (inv_len _ _ _ _ _
               (abs_weld_inv (Cleaner.vertex_key precision) string_same
                  string_same_trans old_vertices)). }
    assert (is_ok (Cleaner.update_item im b) = false) as Hraise.
    { apply (update_item_inside_raise _ ring _ z); [done..|]. by rewrite Hlen. }
    pose proof (mapM_raise _ _ _ Hb Hraise) as Hall.
    destruct (mapM (Cleaner.update_item im) boundaries) as [l|e] eqn:Hm; [done|].
    simpl. f_equal. clear -Hm. revert e Hm.
    induction boundaries as [|x l IH]; intros e Hm; simpl in Hm; [done|].
    destruct (Cleaner.update_item im x) as [y|e1] eqn:Hx; simpl in Hm.
    + destruct (mapM (Cleaner.update_item im) l) as [ys|e2]; simpl in Hm; [done|].
      injection Hm as <-. by apply IH.
    + injection Hm as <-. by eapply update_item_raises_IndexError.
Qed.

End Abort.

Section AbortExamples.
#[local] Existing Instance rounding_libm.

(** C3 on the code's side: with three vertices, the index 5 in the second
    ring makes [index_remap[5]] raise [KeyError]; nothing is returned for the
    first, sound ring either. cleaner.py raises [IndexError] on the same
    input, and reads index -1 from the end of the list without complaint. *)
Lemma C3_counterexample :
  FixTriangles.repair 6 right_triangle
    [Arr [int_ring [0; 1; 2]; int_ring [0; 1; 5]]] = Raise KeyError /\
  FixTriangles.repair 6 right_triangle [Arr [int_ring [0; 1; 2]]]
    = Ok (right_triangle, [Arr [int_ring [0; 1; 2]]]) /\
  Cleaner.repair 5 right_triangle
    [Arr [int_ring [0; 1; 2]; int_ring [0; 1; 5]]] = Raise IndexError /\
  Cleaner.repair 5 right_triangle [Arr [int_ring [0; 1; -1]]]
    = Ok (right_triangle, [Arr [int_ring [0; 1; 2]]]).
Proof. split_and!; vm_compute; reflexivity. Qed.

Lemma C3_witness :
  is_ok (FixTriangles.repair 6 right_triangle
           [Arr [int_ring [0; 1; 2]; int_ring [0; 1; 5]]]) = false /\
  Cleaner.repair 6 right_triangle
    [Arr [int_ring [0; 1; 2]; int_ring [0; 1; 5]]] = Raise IndexError.
Proof.
  destruct (C3_out_of_bounds_index_aborts 6 right_triangle
              [Arr [int_ring [0; 1; 2]; int_ring [0; 1; 5]]]
              (Arr [int_ring [0; 1; 2]; int_ring [0; 1; 5]])
              [Num (PyInt 0); Num (PyInt 1); Num (PyInt 5)] 5)
    as (_ & Hft & Hcl).
  - apply list_elem_of_here.
  - apply (inside_child _ [Num (PyInt 0); Num (PyInt 1); Num (PyInt 2)]
             [int_ring [0; 1; 5]] (int_ring [0; 1; 5])).
    + apply list_elem_of_further, list_elem_of_here.
    + apply inside_here.
  - repeat constructor; eexists; reflexivity.
  - apply list_elem_of_further, list_elem_of_further, list_elem_of_here.
  - simpl. lia.
  - split; [exact Hft|]. apply Hcl. right. simpl. lia.
Defined.

End AbortExamples.

(** ** Triangles out of the ear-clipper *)

Lemma emit_triangles_all (all_indices : list Z) (triangles : list (list Z)) :
  forall result_ : list Z,
  RepairGeometry.emit_triangles all_indices result_ = Ok triangles ->
  length result_ = (3 * length triangles)%nat /\
  forall k triangle, triangles !! k = Some triangle ->
    exists r0 r1 r2 a b c,
      result_ !! (3 * k)%nat = Some r0 /\
      result_ !! (3 * k + 1)%nat = Some r1 /\
      result_ !! (3 * k + 2)%nat = Some r2 /\
      py_index all_indices r0 = Ok a /\
      py_index all_indices r1 = Ok b /\
      py_index all_indices r2 = Ok c /\
      triangle = [a; b; c].
Proof.
  induction triangles as [|t ts IH]; intros [|r0 [|r1 [|r2 rest]]] H;
    simpl in H; try done.
  - by destruct (py_index all_indices r0).
  - destruct (py_index all_indices r0); [|done]. simpl in H.
    by destruct (py_index all_indices r1).
  - destruct (py_index all_indices r0); [|done]. simpl in H.
    destruct (py_index all_indices r1); [|done]. simpl in H.
    destruct (py_index all_indices r2); [|done]. simpl in H.
    by destruct (RepairGeometry.emit_triangles all_indices rest).
  - by destruct (py_index all_indices r0).
  - destruct (py_index all_indices r0); [|done]. simpl in H.
    by destruct (py_index all_indices r1).
  - destruct (py_index all_indices r0) as [a|] eqn:Ha; [|done]. simpl in H.
    destruct (py_index all_indices r1) as [b|] eqn:Hb; [|done]. simpl in H.
    destruct (py_index all_indices r2) as [c|] eqn:Hc; [|done]. simpl in H.
    destruct (RepairGeometry.emit_triangles all_indices rest) as [ts'|] eqn:Hrest;
      [|done].
    simpl in H. injection H as <- <-.
    destruct (IH rest Hrest) as [Hlen Hall]. split.
    + simpl. lia.
    + intros [|k] triangle Hk; simpl in Hk.
      * injection Hk as <-. exists r0, r1, r2, a, b, c. simpl. split_and!; done.
      * destruct (Hall k triangle Hk)
          as (q0 & q1 & q2 & x & y & z & H0 & H1 & H2 & Hx & Hy & Hz & Ht).
        exists q0, q1, q2, x, y, z.
        replace (3 * S k)%nat with (S (S (S (3 * k)))) by lia.
        split_and!; [exact H0|exact H1|exact H2|done..].
Qed.

Section SliverExample.
#[local] Existing Instance rounding_libm.

(** C2 on the code's side: the sliver of height 1e-9 has squared
    cross-product area 1e-18, which [is_degenerate_triangle] rejects, and
    [triangulate_face] hands out the triangle the ear-clipper returned for
    it; the whole pass keeps it as a face. *)
Lemma C2_counterexample :
  FixTriangles.is_degenerate_triangle 0 1 2 sliver = Ok true /\
  RepairGeometry.triangulate_face earcut_one sliver [[0; 1; 2]]
    = Ok [[0; 1; 2]] /\
  RepairGeometry.repair earcut_one 5 sliver [Arr [int_ring [0; 1; 2]]]
    = Ok (sliver, [Arr [int_ring [0; 1; 2]]]).
Proof. split_and!; vm_compute; reflexivity. Qed.

End SliverExample.

Lemma triangulate_face_Ok
    (earcut : list num -> list Z -> Z -> list Z)
    (new_vertices : list vertex) (face_rings_indices : list (list Z))
    (triangles : list (list Z)) :
  RepairGeometry.triangulate_face earcut new_vertices face_rings_indices
    = Ok triangles ->
  exists exterior,
    py_index face_rings_indices 0 = Ok exterior /\
    (((length (unique exterior) < 3)%nat /\ triangles = []) \/
     ((3 <= length (unique exterior))%nat /\
      exists vertices_2d hole_indices,
        let result_ := earcut vertices_2d hole_indices 2 in
        let all_indices := exterior ++ concat (tail face_rings_indices) in
        length result_ = (3 * length triangles)%nat /\
        forall k triangle, triangles !! k = Some triangle ->
          exists r0 r1 r2 a b c,
            result_ !! (3 * k)%nat = Some r0 /\
            result_ !! (3 * k + 1)%nat = Some r1 /\
            result_ !! (3 * k + 2)%nat = Some r2 /\
            py_index all_indices r0 = Ok a /\
            py_index all_indices r1 = Ok b /\
            py_index all_indices r2 = Ok c /\
            triangle = [a; b; c])).
Proof.
  unfold RepairGeometry.triangulate_face. intros H.
  destruct (py_index face_rings_indices 0) as [exterior|] eqn:Hext; [|done].
  simpl in H. exists exterior. split; [done|].
  destruct (Z.ltb_spec (Z.of_nat (length (unique exterior))) 3) as [Hlt|Hge].
  { left. injection H as <-. split; [lia|done]. }
  right. split; [lia|].
  destruct (mapM (py_index new_vertices) exterior) as [pts|]; [|done].
  simpl in H.
  destruct (RepairGeometry.get_normal pts) as [normal|]; [|done]. simpl in H.
  destruct (RepairGeometry.projection_axes normal) as [ax1 ax2].
  destruct (RepairGeometry.project ax1 ax2 pts) as [flat|]; [|done]. simpl in H.
  destruct (RepairGeometry.add_holes new_vertices ax1 ax2
              (tail face_rings_indices) flat []) as [[v2d holes]|]; [|done].
  simpl in H. exists v2d, holes. by apply emit_triangles_all.
Qed.

(** C2 as the code has it: [triangulate_face] returns no triangle when the
    exterior ring has fewer than three distinct indices; otherwise it
    returns one triangle for every three indices the ear-clipper returned,
    each index looked up in the exterior ring followed by the holes, and
    applies no degeneracy check to them. *)
Theorem C2_triangles_emitted_unchecked
    (earcut : list num -> list Z -> Z -> list Z)
    (new_vertices : list vertex) (face_rings_indices : list (list Z))
    (triangles : list (list Z)) :
  RepairGeometry.triangulate_face earcut new_vertices face_rings_indices
    = Ok triangles ->
  exists exterior,
    py_index face_rings_indices 0 = Ok exterior /\
    (((length (unique exterior) < 3)%nat /\ triangles = []) \/
     ((3 <= length (unique exterior))%nat /\
      exists vertices_2d hole_indices,
        let result_ := earcut vertices_2d hole_indices 2 in
        let all_indices := exterior ++ concat (tail face_rings_indices) in
        length result_ = (3 * length triangles)%nat /\
        forall k triangle, triangles !! k = Some triangle ->
          exists r0 r1 r2 a b c,
            result_ !! (3 * k)%nat = Some r0 /\
            result_ !! (3 * k + 1)%nat = Some r1 /\
            result_ !! (3 * k + 2)%nat = Some r2 /\
            py_index all_indices r0 = Ok a /\
            py_index all_indices r1 = Ok b /\
            py_index all_indices r2 = Ok c /\
            triangle = [a; b; c])).
Proof. apply triangulate_face_Ok. Qed.

Lemma C2_witness :
  exists vertices_2d hole_indices,
    length (earcut_one vertices_2d hole_indices 2) = 3%nat.
Proof.
  destruct (C2_triangles_emitted_unchecked earcut_one sliver [[0; 1; 2]]
              [[0; 1; 2]])
    as (exterior & Hext & [[Hlt _]|[_ (v2d & holes & Hlen & _)]]).
  - vm_compute. reflexivity.
  - exfalso. injection Hext as <-. vm_compute in Hlt. lia.
  - exists v2d, holes. exact Hlen.
Defined.

(** ** What the output boundaries satisfy *)

Section Output.
Context {libm : Libm}.


Lemma py_index_valid {A : Type} (l : list A) (i : Z) :
  0 <= i < Z.of_nat (length l) ->
  py_index l i = match l !! Z.to_nat i with Some x => Ok x | None => Raise IndexError end.
Proof.
  intros Hi. unfold py_index.
  destruct (i <? 0) eqn:Hneg; [lia|].
  destruct ((i <? 0) || (Z.of_nat (length l) <=? i)) eqn:Htest; [|done].
  apply orb_true_iff in Htest as [H|H]; lia.
Qed.

Lemma mapM_Ok_Forall {A B : Type} (f : A -> result B) (Q : B -> Prop)
    (l : list A) (ys : list B) :
  (forall x y, x ∈ l -> f x = Ok y -> Q y) ->
  mapM f l = Ok ys -> Forall Q ys.
Proof.
  revert ys. induction l as [|x l IH]; intros ys HQ H; simpl in H.
  { injection H as <-. constructor. }
  destruct (f x) as [y|] eqn:Hx; [|done]. simpl in H.
  destruct (mapM f l) as [ys'|] eqn:Hl; [|done]. simpl in H.
  injection H as <-. constructor.
  - apply (HQ x); [left|done].
  - apply IH; [|done]. intros x' y' Hin. apply HQ. by right.
Qed.

Lemma collectM_Ok_Forall {A B : Type} (f : A -> result (option B))
    (Q : B -> Prop) (l : list A) (ys : list B) :
  Forall (fun x => forall y, f x = Ok (Some y) -> Q y) l ->
  collectM f l = Ok ys -> Forall Q ys.
Proof.
  intros HQ. revert ys. induction HQ as [|x l Hx _ IH]; intros ys H; simpl in H.
  { injection H as <-. constructor. }
  destruct (f x) as [r|] eqn:Hfx; [|done]. simpl in H.
  destruct (collectM f l) as [rs|] eqn:Hl; [|done]. simpl in H.
  injection H as <-. destruct r as [y|].
  - constructor; [by apply Hx | by apply IH].
  - by apply IH.
Qed.

Lemma weld_inv_bound {K : Type} (key : vertex -> K) (same : K -> K -> bool)
    (vs nv : list vertex) (m : list nat) (i w : nat) :
  weld_inv key same vs nv m -> m !! i = Some w -> (w < length nv)%nat.
Proof.
  intros Hinv Hw.
  assert (i < length vs)%nat as Hi.
  { rewrite <- (inv_len _ _ _ _ _ Hinv). by eapply lookup_lt_Some. }
  apply lookup_lt_is_Some_2 in Hi as [v Hv].
  destruct (inv_first _ _ _ _ _ Hinv i v Hv) as (w' & Hw' & Hcase).
  assert (w' = w) as -> by congruence.
  destruct (first_seen key same (key v) (take i vs)) as [[f u]|].
  - destruct Hcase as [_ Hnv]. by eapply lookup_lt_Some.
  - by eapply lookup_lt_Some.
Qed.

Lemma ft_index_remap_valid precision (old_vertices : list vertex) (x j : Z) :
  let st := FixTriangles.weld precision old_vertices in
  FixTriangles.index_remap st !! x = Some j ->
  valid_index (FixTriangles.new_vertices st) j.
Proof.
  intros st. subst st.
  destruct (ft_weld_related precision old_vertices) as (-> & _ & ->).
  pose proof (abs_weld_inv (FixTriangles.rounded precision) tuple_eqb
                tuple_eqb_trans old_vertices) as Hinv.
  intros (Hx & Hj)%lookup_map_seqZ_Some.
  rewrite list_lookup_fmap in Hj.
  destruct (_ !! _) as [w|] eqn:Hw; [|done]. injection Hj as <-.
  apply (weld_inv_bound _ _ _ _ _ _ _ Hinv) in Hw. unfold valid_index. lia.
Qed.

Lemma cl_index_mapping_valid precision (old_vertices : list vertex) (j : Z) :
  let st := Cleaner.weld precision old_vertices in
  j ∈ Cleaner.index_mapping st ->
  valid_index (Cleaner.new_vertices st) j.
Proof.
  intros st. subst st. rewrite cl_index_mapping_lookup.
  destruct (cl_weld_related precision old_vertices) as (-> & _).
  pose proof (abs_weld_inv (Cleaner.vertex_key precision) string_same
                string_same_trans old_vertices) as Hinv.
  intros (w & -> & Hw)%list_elem_of_fmap.
  apply list_elem_of_lookup in Hw as [i Hw].
  apply (weld_inv_bound _ _ _ _ _ _ _ Hinv) in Hw. unfold valid_index. lia.
Qed.

Lemma remap_index_Ok (index_remap : gmap Z Z) (b : boundary) (j : Z) :
  FixTriangles.remap_index index_remap b = Ok j ->
  exists x, index_remap !! x = Some j.
Proof.
  destruct b as [n|items]; simpl; [|done].
  destruct (py_int n) as [i|]; simpl; [|done].
  destruct (index_remap !! i) as [j'|] eqn:Hi; [|done].
  intros [= <-]. eauto.
Qed.

Lemma process_boundary_checked (index_remap : gmap Z Z)
    (vertices : list vertex) :
  (forall x j, index_remap !! x = Some j -> valid_index vertices j) ->
  forall b out,
    FixTriangles.process_boundary index_remap vertices b = Ok (Some out) ->
    checked vertices out.
Proof.
  intros Hvalid b.
  induction b as [n|items IH] using boundary_ind_forall; intros out H.
  { done. }
  destruct items as [|[n|first] rest]; [done| |].
  - cbn [FixTriangles.process_boundary] in H.
    apply process_ring_Some in H as (remapped & Hmap & -> & Hlen & Hdeg).
    constructor; [|done..].
    eapply mapM_Ok_Forall; [|exact Hmap].
    intros x y _ (x' & Hx')%remap_index_Ok. eauto.
  - cbn [FixTriangles.process_boundary] in H.
    destruct (collectM _ (Arr first :: rest)) as [processed|] eqn:Hc; [|done].
    simpl in H. destruct processed as [|p ps]; [done|].
    injection H as <-. constructor; [done|].
    eapply collectM_Ok_Forall; [|exact Hc]. exact IH.
Qed.




Lemma num_geb_int (z n : Z) : num_geb (PyInt z) (PyInt n) = (n <=? z).
Proof.
  unfold num_geb, num_compare, xval_of, xcompare, fin_compare. simpl.
  rewrite !Z.mul_1_r.
  destruct (Z.compare_spec z n); symmetry; [apply Z.leb_le|apply Z.leb_gt|apply Z.leb_le]; lia.
Qed.

Lemma num_ltb_int (z n : Z) : num_ltb (PyInt z) (PyInt n) = (z <? n).
Proof.
  unfold num_ltb, num_compare, xval_of, xcompare, fin_compare. simpl.
  rewrite !Z.mul_1_r.
  destruct (Z.compare_spec z n); symmetry; [apply Z.ltb_ge|apply Z.ltb_lt|apply Z.ltb_ge]; lia.
Qed.





End Output.

Section OutputExamples.
#[local] Existing Instance rounding_libm.



End OutputExamples.

(** * Further properties *)

(** ** More on the welding loops *)

Lemma abs_weld_sublist {K : Type} (key : vertex -> K) (same : K -> K -> bool)
    (vs : list vertex) :
  (abs_weld key same vs).1 `sublist_of` vs.
Proof.
  induction vs as [|v vs IH] using rev_ind; [done|].
  rewrite abs_weld_snoc. unfold abs_step.
  destruct (first_seen key same (key v) (abs_weld key same vs).1) as [[j u]|];
    simpl.
  - by apply sublist_inserts_r.
  - by apply sublist_app.
Qed.

Lemma abs_weld_below {K : Type} (key : vertex -> K) (same : K -> K -> bool)
    (vs : list vertex) :
  (length (abs_weld key same vs).1 <= length vs)%nat /\
  length (abs_weld key same vs).2 = length vs /\
  forall i w, (abs_weld key same vs).2 !! i = Some w ->
    (w <= i)%nat /\ (w < length (abs_weld key same vs).1)%nat.
Proof.
  induction vs as [|v vs IH] using rev_ind; [done|].
  rewrite abs_weld_snoc. destruct (abs_weld key same vs) as [nv m].
  simpl in IH. destruct IH as (Hshort & Hlen & Hle).
  unfold abs_step; simpl.
  destruct (first_seen key same (key v) nv) as [[j u]|] eqn:Hseen; simpl.
  - apply list_find_Some in Hseen as (Hj%lookup_lt_Some & _).
    rewrite !length_app. simpl. split_and!; [lia|lia|].
    intros i w [Hi|[Hge Hi]]%lookup_app_Some; [by apply Hle|].
    apply list_lookup_singleton_Some in Hi as [Hi0 <-]. lia.
  - rewrite !length_app. simpl. split_and!; [lia|lia|].
    intros i w [Hi|[Hge Hi]]%lookup_app_Some.
    + destruct (Hle i w Hi). lia.
    + apply list_lookup_singleton_Some in Hi as [Hi0 <-]. lia.
Qed.

Lemma abs_weld_onto {K : Type} (key : vertex -> K) (same : K -> K -> bool)
    (vs : list vertex) :
  forall w u, (abs_weld key same vs).1 !! w = Some u ->
    exists i, vs !! i = Some u /\ (abs_weld key same vs).2 !! i = Some w.
Proof.
  induction vs as [|v vs IH] using rev_ind; [done|].
  rewrite abs_weld_snoc.
  pose proof (abs_weld_below key same vs) as (_ & Hlen & _).
  destruct (abs_weld key same vs) as [nv m]. simpl in *.
  unfold abs_step; simpl.
  destruct (first_seen key same (key v) nv) as [[j x]|] eqn:Hseen; simpl.
  - intros w u Hw. destruct (IH w u Hw) as (i & Hi & Hm).
    exists i. split; by apply lookup_app_l_Some.
  - intros w u [Hw|[Hge Hw]]%lookup_app_Some.
    + destruct (IH w u Hw) as (i & Hi & Hm).
      exists i. split; by apply lookup_app_l_Some.
    + apply list_lookup_singleton_Some in Hw as [Hw0 <-].
      exists (length vs). split.
      * rewrite lookup_app_r by lia. by rewrite Nat.sub_diag.
      * rewrite lookup_app_r by lia. rewrite Hlen, Nat.sub_diag. simpl.
        f_equal. lia.
Qed.

Lemma abs_weld_same_length {K : Type} (key : vertex -> K)
    (same : K -> K -> bool) (vs : list vertex) :
  length (abs_weld key same vs).1 = length vs ->
  abs_weld key same vs = (vs, seq 0 (length vs)).
Proof.
  induction vs as [|v vs IH] using rev_ind; [done|].
  rewrite abs_weld_snoc.
  pose proof (abs_weld_below key same vs) as (Hshort & _ & _).
  destruct (abs_weld key same vs) as [nv m]. simpl in *.
  unfold abs_step; simpl.
  destruct (first_seen key same (key v) nv) as [[j x]|] eqn:Hseen; simpl.
  - rewrite length_app. simpl. lia.
  - rewrite !length_app. simpl. intros Heq.
    assert (length nv = length vs) as Hnv by lia.
    specialize (IH Hnv). injection IH as -> ->.
    by rewrite Nat.add_1_r, seq_S.
Qed.

(** The index maps cover exactly the original indices; every welded index
    is a position of the welded array and is not above the original index,
    so no [-1] of the initial [index_mapping] is left. *)
Theorem weld_index_map_in_range (precision : nat) (old_vertices : list vertex) :
  (let st := FixTriangles.weld precision old_vertices in
   (forall x : Z,
      is_Some (FixTriangles.index_remap st !! x) <->
      0 <= x < Z.of_nat (length old_vertices)) /\
   (forall x j : Z,
      FixTriangles.index_remap st !! x = Some j ->
      0 <= j <= x /\ j < Z.of_nat (length (FixTriangles.new_vertices st)))) /\
  (let st := Cleaner.weld precision old_vertices in
   length (Cleaner.index_mapping st) = length old_vertices /\
   Cleaner.new_idx_counter st = Z.of_nat (length (Cleaner.new_vertices st)) /\
   (forall (i : nat) (j : Z),
      Cleaner.index_mapping st !! i = Some j ->
      0 <= j <= Z.of_nat i /\
      j < Z.of_nat (length (Cleaner.new_vertices st)))).
Proof.
  split.
  - intros st. subst st.
    destruct (ft_weld_related precision old_vertices) as (-> & _ & ->).
    pose proof (abs_weld_below (FixTriangles.rounded precision) tuple_eqb
                  old_vertices) as (_ & Hlen & Hle).
    split.
    + intros x. rewrite lookup_map_seqZ_is_Some, length_fmap, Hlen. lia.
    + intros x j (Hx & Hj)%lookup_map_seqZ_Some.
      rewrite list_lookup_fmap in Hj.
      destruct (_ !! _) as [w|] eqn:Hw; [|done]. injection Hj as <-.
      apply Hle in Hw. lia.
  - intros st. subst st. rewrite cl_index_mapping_lookup.
    destruct (cl_weld_related precision old_vertices) as (-> & _ & _ & ->).
    pose proof (abs_weld_below (Cleaner.vertex_key precision) string_same
                  old_vertices) as (_ & Hlen & Hle).
    split_and!; [by rewrite length_fmap|done|].
    intros i j Hj. rewrite list_lookup_fmap in Hj.
    destruct (_ !! _) as [w|] eqn:Hw; [|done]. injection Hj as <-.
    apply Hle in Hw. lia.
Qed.

(** The welded array is the original array with some vertices left out, in
    the original order, and every welded vertex is the image of an original
    index that holds this very vertex. *)
Theorem weld_keeps_order (precision : nat) (old_vertices : list vertex) :
  (let st := FixTriangles.weld precision old_vertices in
   FixTriangles.new_vertices st `sublist_of` old_vertices /\
   forall (w : nat) u, FixTriangles.new_vertices st !! w = Some u ->
     exists i : nat,
       old_vertices !! i = Some u /\
       FixTriangles.index_remap st !! Z.of_nat i = Some (Z.of_nat w)) /\
  (let st := Cleaner.weld precision old_vertices in
   Cleaner.new_vertices st `sublist_of` old_vertices /\
   forall (w : nat) u, Cleaner.new_vertices st !! w = Some u ->
     exists i : nat,
       old_vertices !! i = Some u /\
       Cleaner.index_mapping st !! i = Some (Z.of_nat w)).
Proof.
  split.
  - intros st. subst st.
    destruct (ft_weld_related precision old_vertices) as (Hnv & _ & _).
    rewrite Hnv. split; [apply abs_weld_sublist|].
    intros w u Hw. destruct (abs_weld_onto _ _ _ _ _ Hw) as (i & Hi & Hm).
    exists i. split; [done|]. by rewrite ft_index_remap_lookup, Hm.
  - intros st. subst st.
    destruct (cl_weld_related precision old_vertices) as (Hnv & _ & _).
    rewrite Hnv, cl_index_mapping_lookup. split; [apply abs_weld_sublist|].
    intros w u Hw. destruct (abs_weld_onto _ _ _ _ _ Hw) as (i & Hi & Hm).
    exists i. split; [done|]. by rewrite list_lookup_fmap, Hm.
Qed.

(** When welding leaves the number of vertices unchanged, it leaves the
    vertex array unchanged and maps every index to itself. *)
Theorem weld_same_count_is_identity (precision : nat)
    (old_vertices : list vertex) :
  (length (FixTriangles.new_vertices (FixTriangles.weld precision old_vertices))
     = length old_vertices ->
   FixTriangles.new_vertices (FixTriangles.weld precision old_vertices)
     = old_vertices /\
   forall i : nat, (i < length old_vertices)%nat ->
     FixTriangles.index_remap (FixTriangles.weld precision old_vertices)
       !! Z.of_nat i = Some (Z.of_nat i)) /\
  (length (Cleaner.new_vertices (Cleaner.weld precision old_vertices))
     = length old_vertices ->
   Cleaner.new_vertices (Cleaner.weld precision old_vertices) = old_vertices /\
   Cleaner.index_mapping (Cleaner.weld precision old_vertices)
     = seqZ 0 (Z.of_nat (length old_vertices))).
Proof.
  split.
  - destruct (ft_weld_related precision old_vertices) as (Hnv & _ & _).
    rewrite Hnv. intros Hlen. apply abs_weld_same_length in Hlen.
    split; [by rewrite Hlen|].
    intros i Hi. rewrite ft_index_remap_lookup, Hlen. simpl.
    by rewrite lookup_seq_lt.
  - destruct (cl_weld_related precision old_vertices) as (Hnv & _ & _).
    rewrite Hnv, cl_index_mapping_lookup. intros Hlen.
    apply abs_weld_same_length in Hlen. rewrite Hlen. simpl.
    split; [done|]. apply fmap_of_nat_seq.
Qed.

Lemma weld_same_count_is_identity_witness :
  FixTriangles.new_vertices (FixTriangles.weld 6 right_triangle)
    = right_triangle /\
  Cleaner.index_mapping (Cleaner.weld 5 right_triangle) = seqZ 0 3.
Proof.
  split.
  - apply (proj1 (weld_same_count_is_identity 6 right_triangle)).
    vm_compute. reflexivity.
  - apply (proj2 (weld_same_count_is_identity 5 right_triangle)).
    vm_compute. reflexivity.
Defined.
(** ** Integer vertices: the two kinds of key agree *)

Lemma num_eqb_int (a b : Z) : num_eqb (PyInt a) (PyInt b) = (a =? b).
Proof.
  unfold num_eqb, num_compare, xval_of, xcompare, fin_compare. simpl.
  rewrite !Z.mul_1_r.
  destruct (Z.compare_spec a b); symmetry;
    [apply Z.eqb_eq|apply Z.eqb_neq|apply Z.eqb_neq]; lia.
Qed.

Lemma rounded_int_vertex (precision : nat) (v : vertex) :
  int_vertex v -> FixTriangles.rounded precision v = v.
Proof.
  unfold FixTriangles.rounded. induction 1 as [|c v [z ->] _ IH]; simpl; [done|].
  by rewrite IH.
Qed.

Lemma tuple_eqb_int (u v : vertex) :
  int_vertex u -> int_vertex v -> tuple_eqb u v = true <-> u = v.
Proof.
  intros Hu. revert v. induction Hu as [|c u [a ->] _ IH]; intros v Hv.
  - destruct Hv; simpl; [done|]. split; done.
  - destruct Hv as [|d v [b ->] Hv]; simpl; [split; done|].
    rewrite num_eqb_int, andb_true_iff, Z.eqb_eq, (IH v Hv).
    split; [by intros [-> ->]|by intros [= -> ->]].
Qed.

Lemma string_app_nil_l (s : string) : EmptyString +:+ s = s.
Proof. reflexivity. Qed.

Lemma string_app_cons (c : ascii) (a s : string) :
  String c a +:+ s = String c (a +:+ s).
Proof. reflexivity. Qed.

Lemma string_app_nil_r (s : string) : s +:+ EmptyString = s.
Proof.
  induction s as [|c s IH]; [done|]. by rewrite string_app_cons, IH.
Qed.

Lemma string_app_assoc (a b c : string) : (a +:+ b) +:+ c = a +:+ (b +:+ c).
Proof.
  induction a as [|x a IH]; [done|]. by rewrite !string_app_cons, IH.
Qed.

Lemma no_sep_app (a b : string) : no_sep a -> no_sep b -> no_sep (a +:+ b).
Proof.
  induction a as [|c a IH]; [done|]. rewrite string_app_cons. simpl.
  intros [? ?] ?. auto.
Qed.

Lemma pretty_N_char_no_sep (x : N) : pretty_N_char x <> "_"%char.
Proof.
  unfold pretty_N_char. by repeat (discriminate || case_match).
Qed.

Lemma pretty_N_go_digits (x : N) : forall s,
  exists p, pretty_N_go x s = p +:+ s /\ no_sep p /\
            ((0 < x)%N -> p <> EmptyString).
Proof.
  induction (N.lt_wf_0 x) as [x _ IH]; intros s.
  destruct (decide (x = 0%N)) as [->|Hx].
  { exists EmptyString. rewrite pretty_N_go_0. split_and!; [done|done|lia]. }
  rewrite pretty_N_go_step by lia.
  destruct (IH (x `div` 10)%N (N.div_lt x 10 ltac:(lia) eq_refl)
              (String (pretty_N_char (x `mod` 10)) s)) as (p & -> & Hp & _).
  exists (p +:+ String (pretty_N_char (x `mod` 10)) EmptyString).
  split_and!.
  - by rewrite string_app_assoc, string_app_cons, string_app_nil_l.
  - apply no_sep_app; [done|]. simpl. split; [apply pretty_N_char_no_sep|done].
  - intros _. by destruct p.
Qed.

Lemma pretty_Z_no_sep (z : Z) : no_sep (pretty z) /\ pretty z <> EmptyString.
Proof.
  assert (forall x : positive,
            no_sep (pretty x) /\ pretty x <> EmptyString) as Hpos.
  { intros x. unfold pretty, pretty_positive, pretty, pretty_N.
    rewrite decide_False by done.
    destruct (pretty_N_go_digits (N.pos x) EmptyString) as (p & -> & Hp & Hne).
    rewrite string_app_nil_r.
    split; [done|]. apply Hne. lia. }
  destruct z as [|x|x]; unfold pretty, pretty_Z.
  - split; [|done]. simpl. split; [done|done].
  - apply Hpos.
  - destruct (Hpos x) as [Hp Hne]. split; [|done].
    rewrite string_app_cons, string_app_nil_l. simpl. split; [done|exact Hp].
Qed.

Lemma sep_split (a b r r' : string) :
  no_sep a -> no_sep b ->
  a +:+ "_" +:+ r = b +:+ "_" +:+ r' -> a = b /\ r = r'.
Proof.
  revert b. induction a as [|c a IH]; intros [|d b];
    rewrite ?string_app_cons, ?string_app_nil_l; simpl.
  - intros _ _ [= ->]. done.
  - intros _ [Hd _] [= <-]. done.
  - intros [Hc _] _ [= ->]. done.
  - intros [_ Ha] [_ Hb] [= -> H]. destruct (IH b Ha Hb H) as [-> ->]. done.
Qed.

Lemma sep_not_inside (a b r : string) : no_sep a -> a <> b +:+ "_" +:+ r.
Proof.
  revert b. induction a as [|c a IH]; intros [|d b];
    rewrite ?string_app_cons, ?string_app_nil_l; simpl; try done.
  - intros [Hc _] [= ->]. done.
  - intros [_ Ha] [= -> H]. by apply (IH b).
Qed.

Lemma concat_sep_inj (l l' : list string) :
  Forall (fun s => no_sep s /\ s <> EmptyString) l ->
  Forall (fun s => no_sep s /\ s <> EmptyString) l' ->
  String.concat "_" l = String.concat "_" l' -> l = l'.
Proof.
  intros Hl. revert l'. induction Hl as [|x l [Hx Hxne] Hl IH]; intros l' Hl'.
  - destruct Hl' as [|y l' [Hy Hyne] Hl']; [done|].
    simpl. destruct l'; intros H; [by subst y|].
    by destruct y.
  - destruct Hl' as [|y l' [Hy Hyne] Hl'].
    { simpl. destruct l; intros H; [by subst x|]. by destruct x. }
    destruct l as [|x2 l], l' as [|y2 l']; cbn [String.concat].
    + by intros ->.
    + intros H. by apply sep_not_inside in H.
    + intros H. symmetry in H. by apply sep_not_inside in H.
    + intros H. apply sep_split in H as [-> H]; [|done..].
      f_equal. by apply IH.
Qed.

Lemma vertex_key_int_inj (precision : nat) (u v : vertex) :
  int_vertex u -> int_vertex v ->
  Cleaner.vertex_key precision u = Cleaner.vertex_key precision v -> u = v.
Proof.
  intros Hu Hv. unfold Cleaner.vertex_key.
  assert (forall w, int_vertex w ->
            exists zs, w = PyInt <$> zs /\
              map num_str (map (fun coord => py_round coord precision) w)
                = pretty <$> zs) as Hints.
  { induction 1 as [|c w [z ->] _ (zs & -> & Hzs)].
    - by exists [].
    - exists (z :: zs). split; [done|]. simpl. by rewrite Hzs. }
  destruct (Hints u Hu) as (us & -> & ->).
  destruct (Hints v Hv) as (vs' & -> & ->).
  intros H. apply concat_sep_inj in H.
  - f_equal. revert H. apply (inj (fmap pretty)).
  - apply Forall_fmap, Forall_forall. intros z _. apply pretty_Z_no_sep.
  - apply Forall_fmap, Forall_forall. intros z _. apply pretty_Z_no_sep.
Qed.

(** On vertices whose coordinates are all [int]s the string keys of
    cleaner.py and the tuple keys of fix_triangles.py find the same
    duplicates: the two welding loops return the same vertex array and the
    same index map. *)
Theorem welds_agree_on_int_vertices (precision : nat)
    (old_vertices : list vertex) :
  Forall int_vertex old_vertices ->
  let ft := FixTriangles.weld precision old_vertices in
  let cl := Cleaner.weld precision old_vertices in
  FixTriangles.new_vertices ft = Cleaner.new_vertices cl /\
  forall i : nat,
    FixTriangles.index_remap ft !! Z.of_nat i = Cleaner.index_mapping cl !! i.
Proof.
  intros Hints. apply welds_agree_when_keys_agree.
  intros u v Hu Hv. rewrite Forall_forall in Hints.
  rewrite !rounded_int_vertex by auto.
  destruct (tuple_eqb u v) eqn:Huv; symmetry.
  - apply bool_decide_eq_true. apply tuple_eqb_int in Huv; auto. by subst.
  - apply bool_decide_eq_false. intros Hkey.
    apply vertex_key_int_inj in Hkey; auto.
    apply tuple_eqb_int in Hkey; auto. congruence.
Qed.

Lemma welds_agree_on_int_vertices_witness :
  FixTriangles.new_vertices (FixTriangles.weld 5 right_triangle)
    = Cleaner.new_vertices (Cleaner.weld 5 right_triangle).
Proof.
  apply (welds_agree_on_int_vertices 5 right_triangle).
  repeat constructor; eexists; reflexivity.
Defined.

(** ** Cleaning a ring *)

Section Pass.
Context {libm : Libm}.

Lemma unique_snoc (l : list Z) (x : Z) :
  unique (l ++ [x]) =
  if bool_decide (x ∈ unique l) then unique l else unique l ++ [x].
Proof. unfold unique. by rewrite fold_left_app. Qed.

Lemma elem_of_unique (l : list Z) (x : Z) : x ∈ unique l <-> x ∈ l.
Proof.
  induction l as [|y l IH] using rev_ind; [done|].
  rewrite unique_snoc. case_bool_decide as Hy.
  - rewrite IH, elem_of_app, list_elem_of_singleton. split; [auto|].
    intros [? | ->]; [done|]. by apply IH.
  - rewrite !elem_of_app, IH. done.
Qed.

Lemma unique_NoDup (l : list Z) : NoDup (unique l).
Proof.
  induction l as [|y l IH] using rev_ind; [constructor|].
  rewrite unique_snoc. case_bool_decide as Hy; [done|].
  apply NoDup_app. split_and!; [done| |apply NoDup_singleton].
  intros x Hx ->%list_elem_of_singleton. done.
Qed.

Lemma unique_snoc_seen (l : list Z) (x : Z) :
  x ∈ l -> unique (l ++ [x]) = unique l.
Proof.
  intros Hx. rewrite unique_snoc, bool_decide_eq_true_2; [done|].
  by apply elem_of_unique.
Qed.

Lemma unique_snoc_eq (l l' : list Z) (x : Z) :
  unique l = unique l' -> unique (l ++ [x]) = unique (l' ++ [x]).
Proof. intros H. by rewrite !unique_snoc, H. Qed.

Lemma last_elem_of (l : list Z) (x : Z) : last l = Some x -> x ∈ l.
Proof. rewrite last_lookup. apply list_elem_of_lookup_2. Qed.

Lemma unique_remove_consecutive (l : list Z) :
  unique (FixTriangles.remove_consecutive l) = unique l.
Proof.
  induction l as [|x l IH] using rev_ind; [done|].
  rewrite remove_consecutive_snoc. simpl.
  destruct (last (FixTriangles.remove_consecutive l)) as [y|] eqn:Hlast.
  - destruct (Z.eqb_spec x y) as [->|Hne].
    + rewrite unique_snoc_seen; [done|].
      apply last_elem_of in Hlast. apply elem_of_unique.
      rewrite <- IH. by apply elem_of_unique.
    + by apply unique_snoc_eq.
  - by apply unique_snoc_eq.
Qed.

Lemma unique_remove_closing (c : list Z) :
  unique (FixTriangles.remove_closing c) = unique c.
Proof.
  unfold FixTriangles.remove_closing.
  destruct (head c) as [a|] eqn:Hhead; [|done].
  destruct (last c) as [b|] eqn:Hlast; [|done].
  destruct ((1 <? Z.of_nat (length c)) && (a =? b)) eqn:Htest; [|done].
  apply andb_true_iff in Htest as [Hlen Hab].
  apply Z.ltb_lt in Hlen. apply Z.eqb_eq in Hab. subst b.
  destruct c as [|x c _] using rev_ind; [done|].
  rewrite length_app, Nat.add_sub, take_app_length.
  rewrite last_snoc in Hlast. injection Hlast as ->.
  rewrite unique_snoc_seen; [done|].
  destruct c as [|y c]; [simpl in Hlen; lia|].
  simpl in Hhead. injection Hhead as ->. by left.
Qed.

Lemma remove_consecutive_fixed (l : list Z) :
  no_adjacent_dup l -> FixTriangles.remove_consecutive l = l.
Proof.
  induction l as [|x l IH] using rev_ind; intros Hl; [done|].
  rewrite remove_consecutive_snoc. simpl.
  rewrite IH.
  - destruct (last l) as [y|] eqn:Hlast; [|done].
    destruct (Z.eqb_spec x y) as [->|Hne]; [|done].
    exfalso. rewrite last_lookup in Hlast.
    assert (length l <> 0)%nat as Hne by (by destruct l).
    apply (Hl (pred (length l)) y y); [| |done].
    + by apply lookup_app_l_Some.
    + rewrite lookup_app_r by lia.
      replace (S (pred (length l)) - length l)%nat with 0%nat by lia. done.
  - intros i a b Ha Hb. apply (Hl i a b); by apply lookup_app_l_Some.
Qed.

Lemma remove_closing_fixed (c : list Z) :
  ((1 < length c)%nat -> head c <> last c) ->
  FixTriangles.remove_closing c = c.
Proof.
  intros Hopen. unfold FixTriangles.remove_closing.
  destruct (head c) as [a|] eqn:Hhead; [|done].
  destruct (last c) as [b|] eqn:Hlast; [|done].
  destruct ((1 <? Z.of_nat (length c)) && (a =? b)) eqn:Htest; [|done].
  apply andb_true_iff in Htest as [Hlen Hab].
  apply Z.ltb_lt in Hlen. apply Z.eqb_eq in Hab. subst b.
  exfalso. apply Hopen; [lia|]. done.
Qed.

Lemma remove_consecutive_sublist (l : list Z) :
  FixTriangles.remove_consecutive l `sublist_of` l.
Proof.
  induction l as [|x l IH] using rev_ind; [done|].
  rewrite remove_consecutive_snoc. simpl.
  destruct (last (FixTriangles.remove_consecutive l)) as [y|].
  - destruct (x =? y); [by apply sublist_inserts_r | by apply sublist_app].
  - by apply sublist_app.
Qed.

Lemma remove_closing_sublist (c : list Z) :
  FixTriangles.remove_closing c `sublist_of` c.
Proof.
  unfold FixTriangles.remove_closing.
  destruct (head c), (last c); try done.
  destruct (_ && _); [apply sublist_take|done].
Qed.

(** The distinct indices that decide about a ring are those of the remapped
    ring itself, in the order of their first occurrence: removing
    consecutive duplicates and the closing index beforehand changes neither
    which they are nor their order. *)
Theorem distinct_indices_unchanged_by_cleaning (remapped : list Z) :
  unique (FixTriangles.clean_ring remapped) = unique remapped /\
  NoDup (unique remapped) /\
  (forall x, x ∈ unique remapped <-> x ∈ remapped).
Proof.
  split_and!.
  - unfold FixTriangles.clean_ring.
    by rewrite unique_remove_closing, unique_remove_consecutive.
  - apply unique_NoDup.
  - intros x. apply elem_of_unique.
Qed.

(** Cleaning a ring only leaves indices out, and cleaning a cleaned ring
    changes nothing. *)
Theorem clean_ring_idempotent (remapped : list Z) :
  FixTriangles.clean_ring remapped `sublist_of` remapped /\
  FixTriangles.clean_ring (FixTriangles.clean_ring remapped)
    = FixTriangles.clean_ring remapped.
Proof.
  split.
  - unfold FixTriangles.clean_ring.
    etrans; [apply remove_closing_sublist | apply remove_consecutive_sublist].
  - destruct (clean_ring_open remapped) as [Hadj Hopen].
    unfold FixTriangles.clean_ring at 1.
    rewrite remove_consecutive_fixed by done.
    by apply remove_closing_fixed.
Qed.

(** ** The pass of fix_triangles.py on boundaries *)

Lemma collectM_sublist {A B : Type} (f : A -> result (option B))
    (l : list A) (ys : list B) :
  collectM f l = Ok ys ->
  exists kept,
    kept `sublist_of` l /\
    Forall2 (fun x y => f x = Ok (Some y)) kept ys.
Proof.
  revert ys. induction l as [|x l IH]; intros ys H; simpl in H.
  { injection H as <-. exists []. split; [done|constructor]. }
  destruct (f x) as [r|] eqn:Hx; [|done]. simpl in H.
  destruct (collectM f l) as [rs|] eqn:Hl; [|done]. simpl in H.
  injection H as <-. destruct (IH rs eq_refl) as (kept & Hsub & Hall).
  destruct r as [y|].
  - exists (x :: kept). split; [by apply sublist_skip|by constructor].
  - exists kept. split; [by apply sublist_cons|done].
Qed.

(** The loop [for x in l: r = f(x); if r is not None: out.append(r)]
    returns [out] exactly when every call returns, and [out] is then the
    list of all results, in the order of [l], with the [None]s left out. *)
Lemma collectM_results {A B : Type} (f : A -> result (option B))
    (l : list A) (out : list B) :
  collectM f l = Ok out <->
  exists results,
    Forall2 (fun x r => f x = Ok r) l results /\ out = omap id results.
Proof.
  split.
  - revert out. induction l as [|x l IH]; intros out H; simpl in H.
    { injection H as <-. exists []. split; [constructor|done]. }
    destruct (f x) as [r|] eqn:Hx; [|done]. simpl in H.
    destruct (collectM f l) as [rs|] eqn:Hl; [|done]. simpl in H.
    injection H as <-. destruct (IH rs eq_refl) as (results & Hall & ->).
    exists (r :: results). split; [by constructor|]. by destruct r.
  - intros (results & Hall & ->).
    induction Hall as [|x r l results Hx _ IH]; [done|].
    simpl. rewrite Hx. cbn [bind]. rewrite IH. cbn [bind]. by destruct r.
Qed.

(** Siblings are neither reordered, duplicated nor lost. The loop over
    [geom['boundaries']] returns exactly when [process_boundary] returns
    on every boundary, and its output is then the list of all the results
    that are not [None], in the order of the boundaries. Inside a nested
    list the same holds of the children, and the list itself becomes
    [None] when no child is left. *)
Theorem surviving_siblings_keep_order (index_remap : gmap Z Z)
    (vertices : list vertex) :
  (forall boundaries out,
     FixTriangles.clean_boundaries index_remap vertices boundaries = Ok out <->
     exists results,
       Forall2 (fun b r =>
                  FixTriangles.process_boundary index_remap vertices b = Ok r)
         boundaries results /\
       out = omap id results) /\
  (forall first rest out,
     FixTriangles.process_boundary index_remap vertices
       (Arr (Arr first :: rest)) = Ok out <->
     exists results,
       Forall2 (fun b r =>
                  FixTriangles.process_boundary index_remap vertices b = Ok r)
         (Arr first :: rest) results /\
       out = match omap id results with
             | [] => None
             | processed => Some (Arr processed)
             end).
Proof.
  split.
  - intros boundaries out. apply collectM_results.
  - intros first rest out. cbn [FixTriangles.process_boundary]. split.
    + intros H.
      destruct (collectM _ (Arr first :: rest)) as [processed|] eqn:Hc; [|done].
      apply collectM_results in Hc as (results & Hall & ->).
      exists results. split; [exact Hall|].
      simpl in H. injection H as <-. by destruct (omap id results).
    + intros (results & Hall & ->).
      assert (collectM (FixTriangles.process_boundary index_remap vertices)
                (Arr first :: rest) = Ok (omap id results)) as ->
        by (apply collectM_results; eauto).
      cbn [bind]. by destruct (omap id results).
Qed.

Lemma ft_weld_welded (precision : nat) (old_vertices : list vertex) :
  let nv := FixTriangles.new_vertices (FixTriangles.weld precision old_vertices) in
  FixTriangles.new_vertices (FixTriangles.weld precision nv) = nv /\
  forall x : Z,
    FixTriangles.index_remap (FixTriangles.weld precision nv) !! x =
    if bool_decide (0 <= x < Z.of_nat (length nv)) then Some x else None.
Proof.
  intros nv. subst nv.
  destruct (ft_weld_related precision old_vertices) as (Hnv & _ & _).
  destruct (ft_weld_related precision
              (FixTriangles.new_vertices (FixTriangles.weld precision old_vertices)))
    as (Hnv2 & _ & Hidx2).
  rewrite Hnv in *. rewrite abs_weld_again in Hnv2, Hidx2. simpl in *.
  split; [done|]. intros x. rewrite Hidx2. apply identity_map_lookup.
Qed.

Lemma mapM_cons {A B : Type} (f : A -> result B) (x : A) (l : list A) :
  mapM f (x :: l) = (y <- f x ;; ys <- mapM f l ;; Ok (y :: ys)).
Proof. reflexivity. Qed.

Lemma collectM_cons {A B : Type} (f : A -> result (option B)) (x : A)
    (l : list A) :
  collectM f (x :: l) =
  (r <- f x ;; rs <- collectM f l ;;
   Ok (match r with Some y => y :: rs | None => rs end)).
Proof. reflexivity. Qed.

Lemma remap_identity (index_remap : gmap Z Z) (vertices : list vertex)
    (idxs : list Z) :
  (forall j, valid_index vertices j -> index_remap !! j = Some j) ->
  Forall (valid_index vertices) idxs ->
  mapM (FixTriangles.remap_index index_remap)
    (map (fun i => Num (PyInt i)) idxs) = Ok idxs.
Proof.
  intros Hid. induction 1 as [|i idxs Hi _ IH]; [done|].
  cbn [map]. rewrite mapM_cons, IH. cbn [FixTriangles.remap_index py_int bind].
  by rewrite (Hid i Hi).
Qed.

Lemma checked_is_Arr (vertices : list vertex) (b : boundary) :
  checked vertices b -> exists items, b = Arr items.
Proof. destruct 1; eauto. Qed.

Lemma collectM_all_kept {A : Type} (f : A -> result (option A)) (l : list A) :
  Forall (fun x => f x = Ok (Some x)) l -> collectM f l = Ok l.
Proof.
  induction 1 as [|x l Hx _ IH]; [done|].
  by rewrite collectM_cons, Hx, IH.
Qed.

Lemma process_boundary_leaf (index_remap : gmap Z Z) (vertices : list vertex)
    (n : num) (rest : list boundary) :
  FixTriangles.process_boundary index_remap vertices (Arr (Num n :: rest)) =
  FixTriangles.process_ring index_remap vertices (Num n :: rest).
Proof. reflexivity. Qed.

Lemma process_boundary_node (index_remap : gmap Z Z) (vertices : list vertex)
    (first rest : list boundary) :
  FixTriangles.process_boundary index_remap vertices (Arr (Arr first :: rest)) =
  (processed <- collectM (FixTriangles.process_boundary index_remap vertices)
                  (Arr first :: rest) ;;
   Ok (match processed with [] => None | _ => Some (Arr processed) end)).
Proof. reflexivity. Qed.

Lemma process_checked_unchanged (index_remap : gmap Z Z)
    (vertices : list vertex) :
  (forall j, valid_index vertices j -> index_remap !! j = Some j) ->
  forall b, checked vertices b ->
    FixTriangles.process_boundary index_remap vertices b = Ok (Some b).
Proof.
  intros Hid b.
  induction b as [n|items IH] using boundary_ind_forall; intros Hb.
  { by destruct (checked_is_Arr _ _ Hb). }
  remember (Arr items) as b eqn:Heqb.
  destruct Hb as [idxs Hvalid Hlen Hdeg|items' Hne Hall].
  - unfold int_ring in Heqb. injection Heqb as <-.
    destruct idxs as [|i idxs].
    { exfalso. vm_compute in Hlen. lia. }
    unfold int_ring. cbn [map]. rewrite process_boundary_leaf.
    unfold FixTriangles.process_ring.
    change (Num (PyInt i) :: map (fun i0 => Num (PyInt i0)) idxs)
      with (map (fun i0 => Num (PyInt i0)) (i :: idxs)).
    rewrite (remap_identity _ vertices) by done. cbn [bind].
    destruct (unique (FixTriangles.clean_ring (i :: idxs)))
      as [|u0 [|u1 [|u2 [|u3 rest]]]] eqn:Huniq; simpl in Hlen; try lia.
    + by rewrite (Hdeg u0 u1 u2 eq_refl).
    + case Z.ltb_spec; [simpl; lia|done].
  - injection Heqb as ->.
    assert (Forall (fun b =>
              FixTriangles.process_boundary index_remap vertices b
                = Ok (Some b)) items) as Hkept.
    { rewrite Forall_forall in IH, Hall. apply Forall_forall.
      intros b Hb. apply IH; auto. }
    destruct items as [|first rest]; [done|].
    destruct (checked_is_Arr vertices first) as [fitems ->].
    { by apply Forall_inv in Hall. }
    rewrite process_boundary_node.
    by rewrite (collectM_all_kept _ _ Hkept).
Qed.

(** Running the pass of fix_triangles.py on its own output returns this
    output unchanged: the vertices are welded already and every boundary
    that was kept is kept again as it is. *)
Theorem ft_repair_idempotent (precision : nat) (old_vertices : list vertex)
    (boundaries : list boundary) (new_vertices : list vertex)
    (out : list boundary) :
  FixTriangles.repair precision old_vertices boundaries
    = Ok (new_vertices, out) ->
  FixTriangles.repair precision new_vertices out = Ok (new_vertices, out).
Proof.
  unfold FixTriangles.repair at 1, FixTriangles.clean_boundaries.
  destruct (collectM _ boundaries) as [cleaned|] eqn:Hc; [|done].
  simpl. intros [= <- <-].
  assert (Forall (checked (FixTriangles.new_vertices
                             (FixTriangles.weld precision old_vertices)))
            cleaned) as Hchecked.
  { eapply collectM_Ok_Forall; [|exact Hc].
    apply Forall_forall. intros b _ o.
    apply process_boundary_checked. apply ft_index_remap_valid. }
  destruct (ft_weld_welded precision old_vertices) as [Hnv Hidx].
  unfold FixTriangles.repair, FixTriangles.clean_boundaries.
  rewrite Hnv.
  rewrite collectM_all_kept; [done|].
  eapply Forall_impl; [exact Hchecked|]. intros b Hb.
  apply process_checked_unchanged; [|done].
  intros j Hj. rewrite Hidx. unfold valid_index in Hj.
  by rewrite bool_decide_eq_true_2.
Qed.

End Pass.

Section PassExamples.
#[local] Existing Instance rounding_libm.

(** Of the two faces [[[0,0]]] and [[[0,1,2]]] over a right triangle the
    first is dropped and the second is kept. *)
Lemma surviving_siblings_keep_order_witness :
  FixTriangles.clean_boundaries
    (FixTriangles.index_remap (FixTriangles.weld 6 right_triangle))
    (FixTriangles.new_vertices (FixTriangles.weld 6 right_triangle))
    [Arr [int_ring [0; 0]]; Arr [int_ring [0; 1; 2]]]
  = Ok [Arr [int_ring [0; 1; 2]]].
Proof.
  apply (proj1 (surviving_siblings_keep_order
                  (FixTriangles.index_remap (FixTriangles.weld 6 right_triangle))
                  (FixTriangles.new_vertices (FixTriangles.weld 6 right_triangle)))).
  exists [None; Some (Arr [int_ring [0; 1; 2]])].
  split; [|reflexivity].
  repeat constructor; vm_compute; reflexivity.
Defined.

Lemma ft_repair_idempotent_witness :
  FixTriangles.repair 6 right_triangle [Arr [int_ring [0; 1; 2]]]
    = Ok (right_triangle, [Arr [int_ring [0; 1; 2]]]).
Proof.
  apply (ft_repair_idempotent 6 right_triangle
           [Arr [int_ring [0; 0]; int_ring [0; 1; 1]];
            Arr [int_ring [0; 1; 2]]]
           right_triangle [Arr [int_ring [0; 1; 2]]]).
  vm_compute. reflexivity.
Defined.

End PassExamples.

(** ** Integer coordinates: the degeneracy checks are exact *)

Section IntegerCoordinates.
Context {libm : Libm}.

Lemma sub_int (q p : Z * Z * Z) :
  sub (int_point q) (int_point p) =
  Ok (PyInt (q.1.1 - p.1.1), PyInt (q.1.2 - p.1.2), PyInt (q.2 - p.2)).
Proof. by destruct q as [[? ?] ?], p as [[? ?] ?]. Qed.

Lemma triangle_area_sq_int (a b c : Z * Z * Z) :
  let '(x, y, z) := cross_int a b c in
  (e2 <- sub (int_point b) (int_point a) ;;
   e3 <- sub (int_point c) (int_point a) ;;
   cr <- cross_product e2 e3 ;;
   length_squared cr) = Ok (PyInt (x * x + y * y + z * z)).
Proof.
  destruct a as [[ax ay] az], b as [[bx by_] bz], c as [[cx cy] cz].
  reflexivity.
Qed.

Lemma int_below_epsilon (A : Z) :
  num_ltb (PyInt A) FixTriangles.area_epsilon = (A <=? 0) /\
  num_ltb (PyInt A) Fix.area_epsilon = (A <=? 0).
Proof.
  assert (float_lit 1 (-16) = S754_finite false 8112963841460668 (-106)) as H16
    by (vm_compute; reflexivity).
  assert (float_lit 1 (-12) = S754_finite false 4951760157141521 (-92)) as H12
    by (vm_compute; reflexivity).
  unfold FixTriangles.area_epsilon, Fix.area_epsilon. rewrite H16, H12.
  unfold num_ltb, num_compare, xval_of, float_xval, xcompare, fin_compare.
  change (Z.min 0 (-106)) with (-106). change (Z.min 0 (-92)) with (-92).
  change (2 ^ (0 - -106)) with 81129638414606681695789005144064.
  change (2 ^ (-106 - -106)) with 1.
  change (2 ^ (0 - -92)) with 4951760157141521099596496896.
  change (2 ^ (-92 - -92)) with 1.
  split.
  - destruct (Z.compare_spec (A * 81129638414606681695789005144064)
                (8112963841460668 * 1)); symmetry;
      [apply Z.leb_gt|apply Z.leb_le|apply Z.leb_gt]; lia.
  - destruct (Z.compare_spec (A * 4951760157141521099596496896)
                (4951760157141521 * 1)); symmetry;
      [apply Z.leb_gt|apply Z.leb_le|apply Z.leb_gt]; lia.
Qed.

Lemma sum_squares_zero (x y z : Z) :
  x * x + y * y + z * z <= 0 <-> (x, y, z) = (0, 0, 0).
Proof.
  split.
  - intros H. assert (x = 0 /\ y = 0 /\ z = 0) as (-> & -> & ->) by nia. done.
  - intros [= -> -> ->]. lia.
Qed.

Lemma py_index_int_points (pts : list (Z * Z * Z)) (i : Z) (p : Z * Z * Z) :
  0 <= i -> pts !! Z.to_nat i = Some p ->
  py_index (int_point <$> pts) i = Ok (int_point p).
Proof.
  intros Hi Hp. rewrite py_index_valid.
  - by rewrite list_lookup_fmap, Hp.
  - rewrite length_fmap. apply lookup_lt_Some in Hp. lia.
Qed.

Lemma degenerate_on_int_points (pts : list (Z * Z * Z)) (i j k : Z) :
  0 <= i -> 0 <= j -> 0 <= k ->
  exists d : bool,
    FixTriangles.is_degenerate_triangle i j k (int_point <$> pts) = Ok d /\
    (d = true <->
       i = j \/ j = k \/ i = k \/
       Z.of_nat (length pts) <= i \/
       Z.of_nat (length pts) <= j \/
       Z.of_nat (length pts) <= k \/
       exists p0 p1 p2,
         pts !! Z.to_nat i = Some p0 /\
         pts !! Z.to_nat j = Some p1 /\
         pts !! Z.to_nat k = Some p2 /\
         cross_int p0 p1 p2 = (0, 0, 0)).
Proof.
  intros Hi Hj Hk. unfold FixTriangles.is_degenerate_triangle.
  rewrite length_fmap.
  destruct ((i =? j) || (j =? k) || (i =? k)) eqn:Heq.
  { exists true. split; [done|]. split; [|done]. intros _.
    apply orb_true_iff in Heq as [[H|H]%orb_true_iff|H]; apply Z.eqb_eq in H; auto. }
  destruct ((Z.of_nat (length pts) <=? i) || (Z.of_nat (length pts) <=? j)
            || (Z.of_nat (length pts) <=? k)) eqn:Hge.
  { exists true. split; [done|]. split; [|done]. intros _.
    apply orb_true_iff in Hge as [[H|H]%orb_true_iff|H]; apply Z.leb_le in H; auto 10. }
  apply orb_false_iff in Heq as [[E1 E2]%orb_false_iff E3].
  apply orb_false_iff in Hge as [[G1 G2]%orb_false_iff G3].
  apply Z.eqb_neq in E1, E2, E3. apply Z.leb_gt in G1, G2, G3.
  destruct (lookup_lt_is_Some_2 pts (Z.to_nat i)) as [p0 Hp0]; [lia|].
  destruct (lookup_lt_is_Some_2 pts (Z.to_nat j)) as [p1 Hp1]; [lia|].
  destruct (lookup_lt_is_Some_2 pts (Z.to_nat k)) as [p2 Hp2]; [lia|].
  rewrite (py_index_int_points _ _ _ Hi Hp0), (py_index_int_points _ _ _ Hj Hp1),
    (py_index_int_points _ _ _ Hk Hp2).
  cbn [bind].
  pose proof (triangle_area_sq_int p0 p1 p2) as Harea.
  destruct (cross_int p0 p1 p2) as [[x y] z] eqn:Hcross.
  exists (x * x + y * y + z * z <=? 0). split.
  - destruct (sub (int_point p1) (int_point p0)) as [e2|]; [|done].
    cbn [bind] in *.
    destruct (sub (int_point p2) (int_point p0)) as [e3|]; [|done].
    cbn [bind] in *.
    destruct (cross_product e2 e3) as [cr|]; [|done]. cbn [bind] in *.
    rewrite Harea. cbn [bind]. by rewrite (proj1 (int_below_epsilon _)).
  - rewrite Z.leb_le, sum_squares_zero. split.
    + intros [= -> -> ->]. do 6 right. exists p0, p1, p2. done.
    + intros [?|[?|[?|[?|[?|[?|(q0 & q1 & q2 & H0 & H1 & H2 & Hc)]]]]]];
        try lia.
      congruence.
Qed.

(** On vertices with integer coordinates [is_degenerate_triangle] never
    raises on non-negative indices, and it answers [True] exactly when two
    indices are equal, an index is at or beyond the length, or the three
    points are collinear (their cross product is zero): the threshold 1e-16
    plays no part. *)
Theorem is_degenerate_triangle_int (pts : list (Z * Z * Z)) (i j k : Z) :
  0 <= i -> 0 <= j -> 0 <= k ->
  exists d : bool,
    FixTriangles.is_degenerate_triangle i j k (int_point <$> pts) = Ok d /\
    (d = true <->
       i = j \/ j = k \/ i = k \/
       Z.of_nat (length pts) <= i \/
       Z.of_nat (length pts) <= j \/
       Z.of_nat (length pts) <= k \/
       exists p0 p1 p2,
         pts !! Z.to_nat i = Some p0 /\
         pts !! Z.to_nat j = Some p1 /\
         pts !! Z.to_nat k = Some p2 /\
         cross_int p0 p1 p2 = (0, 0, 0)).
Proof. exact (degenerate_on_int_points pts i j k). Qed.

Lemma any_invalid_ints (n i j k : Z) :
  Fix.any_invalid n [Num (PyInt i); Num (PyInt j); Num (PyInt k)] =
  Ok (negb ((0 <=? i) && (i <? n) && (0 <=? j) && (j <? n)
            && (0 <=? k) && (k <? n))).
Proof.
  simpl. rewrite !num_geb_int, !num_ltb_int.
  destruct (Z.leb_spec n i), (Z.ltb_spec i 0), (Z.leb_spec 0 i), (Z.ltb_spec i n);
    try lia; simpl; try done;
  destruct (Z.leb_spec n j), (Z.ltb_spec j 0), (Z.leb_spec 0 j), (Z.ltb_spec j n);
    try lia; simpl; try done;
  destruct (Z.leb_spec n k), (Z.ltb_spec k 0), (Z.leb_spec 0 k), (Z.ltb_spec k n);
    try lia; simpl; done.
Qed.

Lemma kept_on_int_points (pts : list (Z * Z * Z)) (i j k : Z) :
  exists keep : bool,
    Fix.keep_face (int_point <$> pts) (Arr [Arr [int_ring [i; j; k]]])
      = Ok keep /\
    (keep = true <->
       exists p0 p1 p2,
         0 <= i /\ 0 <= j /\ 0 <= k /\
         pts !! Z.to_nat i = Some p0 /\
         pts !! Z.to_nat j = Some p1 /\
         pts !! Z.to_nat k = Some p2 /\
         cross_int p0 p1 p2 <> (0, 0, 0)).
Proof.
  unfold Fix.keep_face.
  change (Fix.triangle_indices (Arr [Arr [int_ring [i; j; k]]]))
    with (@Ok (option boundary)
            (Some (Arr [Num (PyInt i); Num (PyInt j); Num (PyInt k)]))).
  cbn [bind]. rewrite any_invalid_ints, length_fmap. cbn [bind].
  destruct ((0 <=? i) && (i <? Z.of_nat (length pts)) && (0 <=? j)
            && (j <? Z.of_nat (length pts)) && (0 <=? k)
            && (k <? Z.of_nat (length pts))) eqn:Hvalid; cbn [negb].
  - repeat (apply andb_true_iff in Hvalid as [Hvalid ?]).
    assert (0 <= i < Z.of_nat (length pts)) as Hi by lia.
    assert (0 <= j < Z.of_nat (length pts)) as Hj by lia.
    assert (0 <= k < Z.of_nat (length pts)) as Hk by lia.
    destruct (lookup_lt_is_Some_2 pts (Z.to_nat i)) as [p0 Hp0]; [lia|].
    destruct (lookup_lt_is_Some_2 pts (Z.to_nat j)) as [p1 Hp1]; [lia|].
    destruct (lookup_lt_is_Some_2 pts (Z.to_nat k)) as [p2 Hp2]; [lia|].
    unfold Fix.vertex_at.
    change (py_index [Num (PyInt i); Num (PyInt j); Num (PyInt k)] 0)
      with (@Ok boundary (Num (PyInt i))).
    change (py_index [Num (PyInt i); Num (PyInt j); Num (PyInt k)] 1)
      with (@Ok boundary (Num (PyInt j))).
    change (py_index [Num (PyInt i); Num (PyInt j); Num (PyInt k)] 2)
      with (@Ok boundary (Num (PyInt k))).
    cbn [bind].
    rewrite (py_index_int_points pts i p0), (py_index_int_points pts j p1),
      (py_index_int_points pts k p2) by (done || lia).
    cbn [bind]. unfold Fix.triangle_area_sq.
    pose proof (triangle_area_sq_int p0 p1 p2) as Harea.
    destruct (cross_int p0 p1 p2) as [[x y] z] eqn:Hcross.
    rewrite Harea. cbn [bind]. rewrite (proj2 (int_below_epsilon _)).
    exists (negb (x * x + y * y + z * z <=? 0)). split; [done|].
    rewrite negb_true_iff, Z.leb_gt. split.
    + intros Hpos. exists p0, p1, p2. split_and!; try done; try lia.
      rewrite Hcross. intros [= -> -> ->]. lia.
    + intros (q0 & q1 & q2 & _ & _ & _ & Hq0 & Hq1 & Hq2 & Hc).
      assert (~ x * x + y * y + z * z <= 0); [|lia].
      rewrite sum_squares_zero. congruence.
  - exists false. split; [done|]. split; [done|].
    intros (q0 & q1 & q2 & ? & ? & ? & Hq0%lookup_lt_Some & Hq1%lookup_lt_Some
            & Hq2%lookup_lt_Some & _).
    exfalso. apply not_true_iff_false in Hvalid. apply Hvalid.
    repeat (apply andb_true_iff; split); (apply Z.leb_le || apply Z.ltb_lt); lia.
Qed.

(** On vertices with integer coordinates the filter of fix.py never raises
    on a face [[[i,j,k]]] of integers, and it keeps the face exactly when
    the three indices are valid and the three points are not collinear. *)
Theorem keep_face_int (pts : list (Z * Z * Z)) (i j k : Z) :
  exists keep : bool,
    Fix.keep_face (int_point <$> pts) (Arr [Arr [int_ring [i; j; k]]])
      = Ok keep /\
    (keep = true <->
       exists p0 p1 p2,
         0 <= i /\ 0 <= j /\ 0 <= k /\
         pts !! Z.to_nat i = Some p0 /\
         pts !! Z.to_nat j = Some p1 /\
         pts !! Z.to_nat k = Some p2 /\
         cross_int p0 p1 p2 <> (0, 0, 0)).
Proof. exact (kept_on_int_points pts i j k). Qed.

Lemma checks_agree_on_int_points (pts : list (Z * Z * Z)) (i j k : Z) :
  0 <= i -> 0 <= j -> 0 <= k ->
  exists d : bool,
    FixTriangles.is_degenerate_triangle i j k (int_point <$> pts) = Ok d /\
    Fix.keep_face (int_point <$> pts) (Arr [Arr [int_ring [i; j; k]]])
      = Ok (negb d).
Proof.
  intros Hi Hj Hk.
  destruct (degenerate_on_int_points pts i j k Hi Hj Hk) as (d & Hd & Hdiff).
  destruct (kept_on_int_points pts i j k) as (keep & Hkeep & Hkiff).
  exists d. split; [done|]. rewrite Hkeep. f_equal.
  destruct keep.
  - destruct (proj1 Hkiff eq_refl) as (p0 & p1 & p2 & _ & _ & _ & H0 & H1 & H2 & Hc).
    destruct d; [|done]. exfalso.
    destruct (proj1 Hdiff eq_refl)
      as [?|[?|[?|[?|[?|[?|(q0 & q1 & q2 & G0 & G1 & G2 & Gc)]]]]]].
    + subst j. assert (p0 = p1) as -> by congruence.
      apply Hc. destruct p1 as [[? ?] ?], p2 as [[? ?] ?]. simpl. f_equal; [f_equal|]; lia.
    + subst k. assert (p1 = p2) as -> by congruence.
      apply Hc. destruct p0 as [[? ?] ?], p2 as [[? ?] ?]. simpl. f_equal; [f_equal|]; lia.
    + subst k. assert (p0 = p2) as -> by congruence.
      apply Hc. destruct p1 as [[? ?] ?], p2 as [[? ?] ?]. simpl. f_equal; [f_equal|]; lia.
    + apply lookup_lt_Some in H0. lia.
    + apply lookup_lt_Some in H1. lia.
    + apply lookup_lt_Some in H2. lia.
    + congruence.
  - destruct d; [done|]. exfalso.
    assert (false = true); [|done]. apply Hkiff.
    destruct (decide (Z.of_nat (length pts) <= i)) as [?|Gi].
    { assert (false = true); [|done]. apply Hdiff. auto 10. }
    destruct (decide (Z.of_nat (length pts) <= j)) as [?|Gj].
    { assert (false = true); [|done]. apply Hdiff. auto 10. }
    destruct (decide (Z.of_nat (length pts) <= k)) as [?|Gk].
    { assert (false = true); [|done]. apply Hdiff. auto 10. }
    destruct (lookup_lt_is_Some_2 pts (Z.to_nat i)) as [p0 Hp0]; [lia|].
    destruct (lookup_lt_is_Some_2 pts (Z.to_nat j)) as [p1 Hp1]; [lia|].
    destruct (lookup_lt_is_Some_2 pts (Z.to_nat k)) as [p2 Hp2]; [lia|].
    exists p0, p1, p2. split_and!; try done.
    intros Hc. assert (false = true); [|done]. apply Hdiff.
    do 6 right. exists p0, p1, p2. done.
Qed.

(** On integer coordinates and non-negative indices the two degeneracy
    checks agree, their thresholds 1e-12 and 1e-16 notwithstanding: fix.py
    keeps the face [[[i,j,k]]] exactly when [is_degenerate_triangle] of
    fix_triangles.py answers [False] on (i, j, k). *)
Theorem degeneracy_checks_agree_on_int (pts : list (Z * Z * Z)) (i j k : Z) :
  0 <= i -> 0 <= j -> 0 <= k ->
  exists d : bool,
    FixTriangles.is_degenerate_triangle i j k (int_point <$> pts) = Ok d /\
    Fix.keep_face (int_point <$> pts) (Arr [Arr [int_ring [i; j; k]]])
      = Ok (negb d).
Proof. exact (checks_agree_on_int_points pts i j k). Qed.

Lemma well_formed_inv (n : Z) (items : list boundary) :
  well_formed n (Arr items) ->
  (exists idxs, items = map (fun i => Num (PyInt i)) idxs /\
                Forall (fun i => 0 <= i < n) idxs) \/
  Forall (well_formed n) items.
Proof.
  inversion 1 as [idxs Hidxs Heq|items' Hitems Heq].
  - left. exists idxs. split; [|done]. done.
  - by right.
Qed.

Lemma collectM_Ok {A B : Type} (f : A -> result (option B)) (l : list A) :
  Forall (fun x => exists r, f x = Ok r) l -> exists ys, collectM f l = Ok ys.
Proof.
  induction 1 as [|x l [r Hr] _ [ys Hys]]; [by exists []|].
  rewrite collectM_cons, Hr, Hys. cbn [bind]. eauto.
Qed.

Lemma remap_ints_Ok (index_remap : gmap Z Z) (idxs : list Z) (P : Z -> Prop) :
  Forall (fun i => exists j, index_remap !! i = Some j /\ P j) idxs ->
  exists remapped,
    mapM (FixTriangles.remap_index index_remap)
      (map (fun i => Num (PyInt i)) idxs) = Ok remapped /\
    Forall P remapped.
Proof.
  induction 1 as [|i idxs (j & Hj & HP) _ (remapped & Hr & HF)].
  - by exists [].
  - exists (j :: remapped). cbn [map]. rewrite mapM_cons. cbn [FixTriangles.remap_index py_int bind].
    rewrite Hj. cbn [bind]. rewrite Hr. split; [done|]. by constructor.
Qed.

Lemma clean_ring_elem_of (remapped : list Z) (x : Z) :
  x ∈ unique (FixTriangles.clean_ring remapped) -> x ∈ remapped.
Proof.
  rewrite elem_of_unique. unfold FixTriangles.clean_ring. intros Hx.
  eapply elem_of_submseteq; [exact Hx|]. apply sublist_submseteq.
  etrans; [apply remove_closing_sublist|apply remove_consecutive_sublist].
Qed.

Lemma process_int_ring_Ok (index_remap : gmap Z Z) (pts : list (Z * Z * Z))
    (idxs : list Z) :
  Forall (fun i => exists j, index_remap !! i = Some j /\ 0 <= j) idxs ->
  exists r,
    FixTriangles.process_ring index_remap (int_point <$> pts)
      (map (fun i => Num (PyInt i)) idxs) = Ok r.
Proof.
  intros (remapped & Hr & Hpos)%remap_ints_Ok.
  unfold FixTriangles.process_ring. rewrite Hr. cbn [bind].
  pose proof (clean_ring_elem_of remapped) as Hin.
  rewrite Forall_forall in Hpos.
  destruct (unique (FixTriangles.clean_ring remapped))
    as [|u0 [|u1 [|u2 [|u3 rest]]]] eqn:Hu; try (simpl; eauto; fail).
  - destruct (degenerate_on_int_points pts u0 u1 u2) as (d & -> & _).
    + apply Hpos, Hin. set_solver.
    + apply Hpos, Hin. set_solver.
    + apply Hpos, Hin. set_solver.
    + cbn [bind]. eauto.
  - destruct (_ <? _); eauto.
Qed.

Lemma weld_int_points (precision : nat) (pts : list (Z * Z * Z)) :
  exists kept : list (Z * Z * Z),
    FixTriangles.new_vertices (FixTriangles.weld precision (int_point <$> pts))
      = int_point <$> kept.
Proof.
  destruct (ft_weld_related precision (int_point <$> pts)) as (-> & _ & _).
  pose proof (abs_weld_subset (FixTriangles.rounded precision) tuple_eqb
                (int_point <$> pts)) as Hsub.
  induction (abs_weld _ _ _).1 as [|v l IH]; [by exists []|].
  destruct IH as [kept ->]; [set_solver|].
  assert (v ∈ int_point <$> pts) as (p & -> & _)%list_elem_of_fmap by set_solver.
  by exists (p :: kept).
Qed.

Lemma process_well_formed_Ok (index_remap : gmap Z Z)
    (pts : list (Z * Z * Z)) (n : Z) :
  (forall i, 0 <= i < n -> exists j, index_remap !! i = Some j /\ 0 <= j) ->
  forall b, well_formed n b ->
    exists r,
      FixTriangles.process_boundary index_remap (int_point <$> pts) b = Ok r.
Proof.
  intros Hmap b. induction b as [x|items IH] using boundary_ind_forall.
  - intros _. by exists None.
  - intros Hwf. apply well_formed_inv in Hwf.
    destruct items as [|[x|first] rest].
    + by exists None.
    + rewrite process_boundary_leaf.
      destruct Hwf as [(idxs & -> & Hidxs)|Hitems].
      * apply process_int_ring_Ok.
        eapply Forall_impl; [exact Hidxs|]. intros i Hi. by apply Hmap.
      * apply Forall_cons_1 in Hitems as [Hx _]. inversion Hx.
    + rewrite process_boundary_node.
      assert (Forall (well_formed n) (Arr first :: rest)) as Hall.
      { destruct Hwf as [(idxs & Heq & _)|Hitems]; [|done].
        destruct idxs; done. }
      destruct (collectM_Ok
                  (FixTriangles.process_boundary index_remap (int_point <$> pts))
                  (Arr first :: rest)) as [ys ->]; [|cbn [bind]; eauto].
      rewrite Forall_forall in IH, Hall. apply Forall_forall.
      intros c Hc. by apply IH, Hall.
Qed.

(** fix_triangles.py raises nothing on a well-formed geometry: when the
    vertices have three integer coordinates and every ring is a list of
    integer indices inside the vertex array, nested to any depth, the pass
    returns the welded vertices and some boundaries. *)
Theorem ft_repair_succeeds (precision : nat) (pts : list (Z * Z * Z))
    (boundaries : list boundary) :
  Forall (well_formed (Z.of_nat (length pts))) boundaries ->
  exists out,
    FixTriangles.repair precision (int_point <$> pts) boundaries =
    Ok (FixTriangles.new_vertices
          (FixTriangles.weld precision (int_point <$> pts)), out).
Proof.
  intros Hwf. unfold FixTriangles.repair, FixTriangles.clean_boundaries.
  destruct (weld_int_points precision pts) as [kept Hkept]. rewrite Hkept.
  destruct (collectM_Ok
              (FixTriangles.process_boundary
                 (FixTriangles.index_remap
                    (FixTriangles.weld precision (int_point <$> pts)))
                 (int_point <$> kept)) boundaries) as [out ->];
    [|cbn [bind]; eauto].
  eapply Forall_impl; [exact Hwf|]. intros b Hb.
  apply (process_well_formed_Ok _ _ (Z.of_nat (length pts))); [|done].
  intros i Hi.
  pose proof (ft_index_remap_lookup precision (int_point <$> pts) (Z.to_nat i))
    as Hlook.
  rewrite Z2Nat.id in Hlook by lia.
  pose proof (abs_weld_below (FixTriangles.rounded precision) tuple_eqb
                (int_point <$> pts)) as (_ & Hlen & _).
  rewrite length_fmap in Hlen.
  destruct (lookup_lt_is_Some_2
              (abs_weld (FixTriangles.rounded precision) tuple_eqb
                 (int_point <$> pts)).2 (Z.to_nat i)) as [w Hw]; [lia|].
  rewrite Hw in Hlook. exists (Z.of_nat w). split; [done|lia].
Qed.

End IntegerCoordinates.

Section IntegerCoordinatesExamples.
#[local] Existing Instance rounding_libm.

Lemma is_degenerate_triangle_int_witness :
  exists d : bool,
    FixTriangles.is_degenerate_triangle 0 1 2
      (int_point <$> [(0, 0, 0); (1, 0, 0); (2, 0, 0)]) = Ok d /\ d = true.
Proof.
  destruct (is_degenerate_triangle_int [(0, 0, 0); (1, 0, 0); (2, 0, 0)] 0 1 2)
    as (d & Hd & Hiff); [lia..|].
  exists d. split; [exact Hd|]. apply Hiff. do 6 right.
  exists (0, 0, 0), (1, 0, 0), (2, 0, 0). repeat split.
Defined.

Lemma degeneracy_checks_agree_on_int_witness :
  exists d : bool,
    Fix.keep_face (int_point <$> [(0, 0, 0); (1, 0, 0); (0, 1, 0)])
      (Arr [Arr [int_ring [0; 1; 2]]]) = Ok (negb d).
Proof.
  destruct (degeneracy_checks_agree_on_int [(0, 0, 0); (1, 0, 0); (0, 1, 0)]
              0 1 2) as (d & _ & Hkeep); [lia..|].
  exists d. exact Hkeep.
Defined.

Lemma ft_repair_succeeds_witness :
  exists out,
    FixTriangles.repair 6 (int_point <$> [(0, 0, 0); (1, 0, 0); (0, 1, 0)])
      [Arr [int_ring [0; 1; 2]; int_ring [0; 1]]] =
    Ok (FixTriangles.new_vertices
          (FixTriangles.weld 6
             (int_point <$> [(0, 0, 0); (1, 0, 0); (0, 1, 0)])), out).
Proof.
  apply (ft_repair_succeeds 6 [(0, 0, 0); (1, 0, 0); (0, 1, 0)]).
  repeat constructor; simpl; lia.
Defined.

End IntegerCoordinatesExamples.


(** ** cleaner.py: [update_boundaries] *)

Lemma update_item_Arr (index_mapping : list Z) (l : list boundary) :
  Cleaner.update_item index_mapping (Arr l) =
  (l' <- mapM (Cleaner.update_item index_mapping) l ;; Ok (Arr l')).
Proof. reflexivity. Qed.

Lemma mapM_Ok_all {A B : Type} (f : A -> result B) (Q : B -> Prop)
    (l : list A) :
  Forall (fun x => exists y, f x = Ok y /\ Q y) l ->
  exists ys, mapM f l = Ok ys /\ Forall Q ys.
Proof.
  induction 1 as [|x l (y & Hy & HQ) _ (ys & Hys & HF)]; [by exists []|].
  exists (y :: ys). rewrite mapM_cons, Hy, Hys. split; [done|by constructor].
Qed.

Lemma mapM_Ok_inv {A B : Type} (f : A -> result B) (l : list A) :
  forall ys, mapM f l = Ok ys -> Forall2 (fun x y => f x = Ok y) l ys.
Proof.
  induction l as [|x l IH]; intros ys.
  - intros [= <-]. constructor.
  - rewrite mapM_cons. destruct (f x) as [y|e] eqn:Hy; [|done]. cbn [bind].
    destruct (mapM f l) as [ys'|e] eqn:Hys; [|done]. intros [= <-].
    constructor; [done|by apply IH].
Qed.

Lemma py_index_Ok {A : Type} (l : list A) (i : Z) :
  py_index_ok (length l) i -> exists x, py_index l i = Ok x /\ x ∈ l.
Proof.
  unfold py_index_ok, py_index. intros Hi.
  set (j := if i <? 0 then i + Z.of_nat (length l) else i).
  assert (0 <= j < Z.of_nat (length l)) as Hj.
  { subst j. destruct (Z.ltb_spec i 0); lia. }
  destruct (Z.ltb_spec j 0); [lia|]. destruct (Z.leb_spec (Z.of_nat (length l)) j); [lia|].
  cbn [orb]. destruct (lookup_lt_is_Some_2 l (Z.to_nat j)) as [x Hx]; [lia|].
  rewrite Hx. exists x. split; [done|]. by eapply list_elem_of_lookup_2.
Qed.

Lemma py_index_Ok_inv {A : Type} (l : list A) (i : Z) (x : A) :
  py_index l i = Ok x -> py_index_ok (length l) i.
Proof.
  unfold py_index_ok, py_index. cbv zeta.
  destruct (Z.ltb_spec i 0).
  - destruct (Z.ltb_spec (i + Z.of_nat (length l)) 0); [done|].
    destruct (Z.leb_spec (Z.of_nat (length l)) (i + Z.of_nat (length l)));
      [done|]. intros _. lia.
  - destruct (Z.ltb_spec i 0); [lia|].
    destruct (Z.leb_spec (Z.of_nat (length l)) i); [done|]. intros _. lia.
Qed.

Lemma update_item_leaves (index_mapping : list Z) (b : boundary) :
  int_leaves (py_index_ok (length index_mapping)) b ->
  exists b',
    Cleaner.update_item index_mapping b = Ok b' /\
    int_leaves (fun j => j ∈ index_mapping) b'.
Proof.
  induction b as [x|items IH] using boundary_ind_forall; intros Hb.
  - inversion Hb as [z Hz| |]; subst.
    + destruct (py_index_Ok index_mapping z Hz) as (j & Hj & Hin).
      exists (Num (PyInt j)). cbn [Cleaner.update_item]. rewrite Hj.
      split; [done|by constructor].
    + eexists. split; [done|constructor].
  - inversion Hb as [| |items' Hitems]; subst. rewrite update_item_Arr.
    destruct (mapM_Ok_all (Cleaner.update_item index_mapping)
                (int_leaves (fun j => j ∈ index_mapping)) items)
      as (ys & -> & Hys).
    + rewrite Forall_forall in IH, Hitems. apply Forall_forall.
      intros c Hc. by apply IH, Hitems.
    + exists (Arr ys). split; [done|by constructor].
Qed.

Lemma update_item_Ok_leaves (index_mapping : list Z) (b : boundary) :
  forall b', Cleaner.update_item index_mapping b = Ok b' ->
  int_leaves (py_index_ok (length index_mapping)) b.
Proof.
  induction b as [[z|f]|items IH] using boundary_ind_forall; intros b'.
  - cbn [Cleaner.update_item].
    destruct (py_index index_mapping z) as [j|e] eqn:Hj; [|done].
    intros _. constructor. by eapply py_index_Ok_inv.
  - intros _. constructor.
  - rewrite update_item_Arr.
    destruct (mapM _ items) as [ys|e] eqn:Hys; [|done]. intros _.
    apply mapM_Ok_inv in Hys. constructor.
    rewrite Forall_forall in IH. apply Forall_forall. intros c Hc.
    destruct (proj1 (list_elem_of_lookup _ _) Hc) as [i Hi].
    destruct (Forall2_lookup_l _ _ _ _ _ Hys Hi) as (y & _ & Hy).
    by eapply IH.
Qed.

(** [update_boundaries] of cleaner.py succeeds exactly when every [int] in
    the nested list is an index Python accepts for [index_mapping], that is
    inside [-len, len); it then leaves only values of [index_mapping] where
    the integers were; otherwise it raises [IndexError] and nothing else. *)
Theorem update_item_succeeds_iff (index_mapping : list Z) (b : boundary) :
  (int_leaves (py_index_ok (length index_mapping)) b <->
   exists b', Cleaner.update_item index_mapping b = Ok b') /\
  (forall b', Cleaner.update_item index_mapping b = Ok b' ->
     int_leaves (fun j => j ∈ index_mapping) b') /\
  (forall e, Cleaner.update_item index_mapping b = Raise e -> e = IndexError).
Proof.
  split_and!.
  - split.
    + intros (b' & Hb' & _)%update_item_leaves. eauto.
    + intros [b' Hb']. by eapply update_item_Ok_leaves.
  - intros b' Hb'.
    destruct (update_item_leaves index_mapping b) as (b'' & Hb'' & Hl).
    + by eapply update_item_Ok_leaves.
    + congruence.
  - apply update_item_raises_IndexError.
Qed.

Lemma cl_weld_welded (precision : nat) (old_vertices : list vertex) :
  let nv := Cleaner.new_vertices (Cleaner.weld precision old_vertices) in
  Cleaner.new_vertices (Cleaner.weld precision nv) = nv /\
  Cleaner.index_mapping (Cleaner.weld precision nv)
    = seqZ 0 (Z.of_nat (length nv)).
Proof.
  intros nv. subst nv.
  destruct (cl_weld_related precision old_vertices) as (Hnv & _ & _).
  destruct (cl_weld_related precision
              (Cleaner.new_vertices (Cleaner.weld precision old_vertices)))
    as (Hnv2 & _ & _).
  rewrite cl_index_mapping_lookup. rewrite Hnv in *.
  rewrite abs_weld_again in *. simpl in *.
  split; [done|]. apply fmap_of_nat_seq.
Qed.

Lemma int_leaves_impl (P Q : Z -> Prop) (b : boundary) :
  (forall z, P z -> Q z) -> int_leaves P b -> int_leaves Q b.
Proof.
  intros HPQ. induction b as [x|items IH] using boundary_ind_forall.
  - inversion 1; subst; constructor. by apply HPQ.
  - inversion 1 as [| |items' Hitems]; subst. constructor.
    rewrite Forall_forall in IH, Hitems. apply Forall_forall.
    intros c Hc. by apply IH, Hitems.
Qed.

Lemma update_item_identity (n : nat) (b : boundary) :
  int_leaves (fun z => 0 <= z < Z.of_nat n) b ->
  Cleaner.update_item (seqZ 0 (Z.of_nat n)) b = Ok b.
Proof.
  induction b as [x|items IH] using boundary_ind_forall.
  - inversion 1 as [z Hz| |]; subst; [|done].
    cbn [Cleaner.update_item]. rewrite py_index_valid by (rewrite length_seqZ; lia).
    rewrite lookup_seqZ_lt by lia. cbn [bind]. do 3 f_equal. lia.
  - inversion 1 as [| |items' Hitems]; subst. rewrite update_item_Arr.
    assert (mapM (Cleaner.update_item (seqZ 0 (Z.of_nat n))) items = Ok items)
      as ->; [|done].
    clear H. induction items as [|c items IHitems]; [done|].
    apply Forall_cons_1 in IH as [Hc IH], Hitems as [Hwc Hitems].
    rewrite mapM_cons, (Hc Hwc), (IHitems IH Hitems). done.
Qed.

Lemma update_boundaries_valid (precision : nat) (old_vertices : list vertex)
    (boundaries out : list boundary) :
  Cleaner.update_boundaries
    (Cleaner.index_mapping (Cleaner.weld precision old_vertices)) boundaries
    = Ok out ->
  Forall (int_leaves
            (valid_index
               (Cleaner.new_vertices (Cleaner.weld precision old_vertices))))
    out /\
  length out = length boundaries.
Proof.
  unfold Cleaner.update_boundaries. intros Hys%mapM_Ok_inv. split.
  - apply Forall_forall. intros o Ho.
    destruct (proj1 (list_elem_of_lookup _ _) Ho) as [i Hi].
    destruct (Forall2_lookup_r _ _ _ _ _ Hys Hi) as (b & _ & Hb).
    destruct (update_item_leaves
                (Cleaner.index_mapping (Cleaner.weld precision old_vertices)) b)
      as (o' & Ho' & Hl); [by eapply update_item_Ok_leaves|].
    assert (o' = o) as -> by congruence.
    eapply int_leaves_impl; [|exact Hl].
    intros j Hj. by apply cl_index_mapping_valid.
  - symmetry. by eapply Forall2_length.
Qed.

(** What cleaner.py writes back holds valid indices only: after a run that
    raised nothing, every [int] of the updated boundaries, at any depth, is
    a position of the new vertex array. No [-1] of the initial
    [index_mapping] and no index of the old array is left. *)
Theorem cl_repair_indices_valid (precision : nat) (old_vertices : list vertex)
    (boundaries : list boundary) (new_vertices : list vertex)
    (out : list boundary) :
  Cleaner.repair precision old_vertices boundaries = Ok (new_vertices, out) ->
  Forall (int_leaves (valid_index new_vertices)) out /\
  length out = length boundaries.
Proof.
  unfold Cleaner.repair.
  destruct (Cleaner.update_boundaries _ _) as [ys|e] eqn:Hys; [|done].
  intros [= <- <-]. by apply update_boundaries_valid.
Qed.

Lemma cl_repair_indices_valid_witness :
  Forall (int_leaves (valid_index right_triangle)) [Arr [int_ring [0; 1; 2]]] /\
  length [Arr [int_ring [0; 1; 2]]] = length [Arr [int_ring [0; 1; -1]]].
Proof.
  apply (cl_repair_indices_valid 5 right_triangle [Arr [int_ring [0; 1; -1]]]).
  vm_compute. reflexivity.
Defined.

(** cleaner.py is idempotent: a second run on its own output changes
    neither the vertices nor the boundaries. *)
Theorem cl_repair_idempotent (precision : nat) (old_vertices : list vertex)
    (boundaries : list boundary) (new_vertices : list vertex)
    (out : list boundary) :
  Cleaner.repair precision old_vertices boundaries = Ok (new_vertices, out) ->
  Cleaner.repair precision new_vertices out = Ok (new_vertices, out).
Proof.
  unfold Cleaner.repair at 1.
  destruct (Cleaner.update_boundaries _ _) as [ys|e] eqn:Hys; [|done].
  intros [= Hnv Hout]. subst ys.
  apply update_boundaries_valid in Hys as [Hvalid _].
  rewrite Hnv in Hvalid. symmetry in Hnv.
  destruct (cl_weld_welded precision old_vertices) as [Hnv2 Hmap].
  rewrite <- Hnv in Hnv2, Hmap.
  unfold Cleaner.repair, Cleaner.update_boundaries. rewrite Hnv2, Hmap.
  assert (mapM (Cleaner.update_item (seqZ 0 (Z.of_nat (length new_vertices)))) out
            = Ok out) as ->; [|done].
  induction Hvalid as [|o out Ho _ IH]; [done|].
  rewrite mapM_cons, update_item_identity, IH; done.
Qed.

Lemma cl_repair_idempotent_witness :
  Cleaner.repair 5 right_triangle [Arr [int_ring [0; 1; 2]]]
    = Ok (right_triangle, [Arr [int_ring [0; 1; 2]]]).
Proof.
  apply (cl_repair_idempotent 5 right_triangle [Arr [int_ring [0; 1; -1]]]).
  vm_compute. reflexivity.
Defined.


(** ** fix.py: the filter as a whole *)

Section Filter.
Context {libm : Libm}.

Lemma filter_boundaries_cons (vertices : list vertex) (face : boundary)
    (rest : list boundary) :
  Fix.filter_boundaries vertices (face :: rest) =
  (k <- Fix.keep_face vertices face ;;
   rs <- Fix.filter_boundaries vertices rest ;;
   Ok (if k : bool then face :: rs else rs)).
Proof.
  unfold Fix.filter_boundaries. rewrite collectM_cons.
  destruct (Fix.keep_face vertices face) as [[|]|e]; reflexivity.
Qed.

Lemma filter_boundaries_kept (vertices : list vertex) (boundaries : list boundary) :
  forall out,
  Fix.filter_boundaries vertices boundaries = Ok out ->
  out `sublist_of` boundaries /\
  Forall (fun face => Fix.keep_face vertices face = Ok true) out /\
  (forall face, face ∈ boundaries -> face ∉ out ->
     Fix.keep_face vertices face = Ok false).
Proof.
  induction boundaries as [|face rest IH]; intros out.
  - intros [= <-]. split_and!; [done|constructor|]. intros face Hin.
    by apply elem_of_nil in Hin.
  - rewrite filter_boundaries_cons.
    destruct (Fix.keep_face vertices face) as [k|e] eqn:Hk; [|done]. cbn [bind].
    destruct (Fix.filter_boundaries vertices rest) as [rs|e] eqn:Hrs; [|done].
    cbn [bind]. intros [= <-]. destruct (IH rs eq_refl) as (Hsub & Hall & Hdrop).
    destruct k.
    + split_and!; [by apply sublist_skip|by constructor|].
      intros f [->|Hin]%elem_of_cons Hout.
      * exfalso. apply Hout. by left.
      * apply Hdrop; [done|]. intros ?. apply Hout. by right.
    + split_and!; [by apply sublist_cons|done|].
      intros f [->|Hin]%elem_of_cons Hout; [done|]. by apply Hdrop.
Qed.

(** fix.py only removes faces: what it writes back is the input list with
    some faces left out, in the original order; every face it kept passed
    its test, every face it dropped failed it; and a second run on the
    output removes nothing more. *)
Theorem filter_boundaries_idempotent (vertices : list vertex)
    (boundaries out : list boundary) :
  Fix.filter_boundaries vertices boundaries = Ok out ->
  out `sublist_of` boundaries /\
  (forall face, face ∈ boundaries -> face ∉ out ->
     Fix.keep_face vertices face = Ok false) /\
  Fix.filter_boundaries vertices out = Ok out.
Proof.
  intros (Hsub & Hall & Hdrop)%filter_boundaries_kept. 
  split; [exact Hsub|]. split; [exact Hdrop|]. clear Hsub Hdrop.
  induction Hall as [|face rest Hface _ IH]; [done|].
  rewrite filter_boundaries_cons, Hface. cbn [bind]. by rewrite IH.
Qed.

(** ** fix_triangles.py followed by fix.py *)

Lemma process_face_Some (index_remap : gmap Z Z) (vertices : list vertex)
    (idxs : list Z) (o : boundary) :
  FixTriangles.process_boundary index_remap vertices
    (Arr [Arr [int_ring idxs]]) = Ok (Some o) ->
  exists r,
    o = Arr [Arr [r]] /\
    FixTriangles.process_ring index_remap vertices
      (map (fun i => Num (PyInt i)) idxs) = Ok (Some r).
Proof.
  destruct idxs as [|i rest]; [done|].
  unfold int_ring. cbn [map].
  rewrite process_boundary_node, collectM_cons, process_boundary_node,
    collectM_cons, process_boundary_leaf.
  destruct (FixTriangles.process_ring _ _ _) as [[r|]|e]; [|done..].
  intros [= <-]. by exists r.
Qed.

Lemma unique_three (a b c : Z) :
  (3 <= length (unique [a; b; c]))%nat ->
  unique [a; b; c] = [a; b; c] /\ a <> b /\ b <> c /\ a <> c.
Proof.
  unfold unique. cbn [fold_left].
  assert (bool_decide (a ∈ @nil Z) = false) as ->
    by (apply bool_decide_eq_false, not_elem_of_nil).
  cbn [app]. destruct (decide (a = b)) as [->|Hab].
  - rewrite (bool_decide_eq_true_2 (b ∈ [b])) by (by apply list_elem_of_singleton).
    destruct (bool_decide (c ∈ [b])); simpl; lia.
  - rewrite (bool_decide_eq_false_2 (b ∈ [a]))
      by (intros ?%list_elem_of_singleton; congruence). cbn [app].
    destruct (decide (c ∈ [a; b])) as [Hc|Hc].
    + rewrite (bool_decide_eq_true_2 _ Hc). simpl. lia.
    + rewrite (bool_decide_eq_false_2 _ Hc). intros _.
      split; [done|]. rewrite !elem_of_cons, elem_of_nil in Hc.
      split_and!; [done|intros ->; tauto|intros ->; tauto].
Qed.

Lemma triangle_indices_face (idxs : list Z) :
  Fix.triangle_indices (Arr [Arr [int_ring idxs]]) =
  Ok (if Z.of_nat (length idxs) =? 3 then Some (int_ring idxs) else None).
Proof.
  unfold Fix.triangle_indices, int_ring.
  change (Fix.py_len (Arr [Arr [Arr (map (fun i => Num (PyInt i)) idxs)]]))
    with (@Ok Z 1).
  cbn [bind Z.eqb Pos.eqb negb].
  change (Fix.first_item (Arr [Arr [Arr (map (fun i => Num (PyInt i)) idxs)]]))
    with (@Ok boundary (Arr [Arr (map (fun i => Num (PyInt i)) idxs)])).
  cbn [bind].
  change (Fix.py_len (Arr [Arr (map (fun i => Num (PyInt i)) idxs)]))
    with (@Ok Z 1).
  cbn [bind Z.eqb Pos.eqb negb].
  change (Fix.first_item (Arr [Arr (map (fun i => Num (PyInt i)) idxs)]))
    with (@Ok boundary (Arr (map (fun i => Num (PyInt i)) idxs))).
  cbn [bind Fix.py_len]. rewrite length_map.
  by destruct (_ =? 3).
Qed.

Lemma kept_ring_passes_fix (index_remap : gmap Z Z) (pts : list (Z * Z * Z))
    (ring : list boundary) (r : boundary) :
  (forall x j, index_remap !! x = Some j -> 0 <= j) ->
  FixTriangles.process_ring index_remap (int_point <$> pts) ring
    = Ok (Some r) ->
  Fix.keep_face (int_point <$> pts) (Arr [Arr [r]]) = Ok true.
Proof.
  intros Hpos (remapped & Hmap & -> & Hlen & Hdeg)%process_ring_Some.
  assert (Forall (fun j => 0 <= j) remapped) as Hall.
  { eapply mapM_Ok_Forall; [|exact Hmap].
    intros b j _ (x & Hx)%remap_index_Ok. by eapply Hpos. }
  destruct (decide (length remapped = 3%nat)) as [Hthree|Hthree].
  - destruct remapped as [|a [|b [|c [|d rest]]]]; try done.
    unfold FixTriangles.clean_ring in Hlen, Hdeg.
    rewrite unique_remove_closing, unique_remove_consecutive in Hlen, Hdeg.
    destruct (unique_three a b c Hlen) as (Hu & Hab & Hbc & Hac).
    specialize (Hdeg a b c Hu).
    apply Forall_cons_1 in Hall as [Ha Hall].
    apply Forall_cons_1 in Hall as [Hb Hall].
    apply Forall_cons_1 in Hall as [Hc _].
    destruct (checks_agree_on_int_points pts a b c Ha Hb Hc)
      as (d & Hd & Hkeep).
    rewrite Hkeep. rewrite Hdeg in Hd. by injection Hd as <-.
  - unfold Fix.keep_face. rewrite triangle_indices_face.
    destruct (Z.eqb_spec (Z.of_nat (length remapped)) 3); [lia|done].
Qed.

(** fix.py finds nothing left to remove after fix_triangles.py: on
    vertices with integer coordinates and pre-triangulated faces
    [[[i, j, k]]] (or any faces of one surface with one ring), every face
    that fix_triangles.py returned passes the filter of fix.py, which
    neither drops a face nor raises. *)
Theorem fix_keeps_fix_triangles_output (precision : nat)
    (pts : list (Z * Z * Z)) (rings : list (list Z))
    (new_vertices : list vertex) (out : list boundary) :
  FixTriangles.repair precision (int_point <$> pts)
    ((fun idxs => Arr [Arr [int_ring idxs]]) <$> rings)
    = Ok (new_vertices, out) ->
  Fix.filter_boundaries new_vertices out = Ok out.
Proof.
  unfold FixTriangles.repair, FixTriangles.clean_boundaries.
  destruct (collectM _ _) as [cleaned|e] eqn:Hcleaned; [|done].
  intros [= <- <-].
  destruct (weld_int_points precision pts) as [kept Hkept].
  rewrite Hkept in *.
  apply collectM_sublist in Hcleaned as (inputs & Hsub & Hall).
  assert (Forall (fun o => Fix.keep_face (int_point <$> kept) o = Ok true)
            cleaned) as Hkeep.
  { apply Forall_forall. intros o Ho.
    destruct (proj1 (list_elem_of_lookup _ _) Ho) as [i Hi].
    destruct (Forall2_lookup_r _ _ _ _ _ Hall Hi) as (b & Hb & Hproc).
    assert (b ∈ (fun idxs => Arr [Arr [int_ring idxs]]) <$> rings)
      as (idxs & -> & _)%list_elem_of_fmap.
    { eapply elem_of_submseteq; [|by apply sublist_submseteq].
      by eapply list_elem_of_lookup_2. }
    apply process_face_Some in Hproc as (r & -> & Hring).
    eapply kept_ring_passes_fix; [|exact Hring].
    intros x j Hj.
    pose proof (ft_index_remap_valid precision (int_point <$> pts) x j Hj)
      as Hvalid.
    unfold valid_index in Hvalid. lia. }
  clear Hall Hsub. induction Hkeep as [|o rest Ho _ IH]; [done|].
  rewrite filter_boundaries_cons, Ho. cbn [bind]. by rewrite IH.
Qed.

End Filter.

Section FilterExamples.
#[local] Existing Instance rounding_libm.

Lemma filter_boundaries_idempotent_witness :
  Fix.filter_boundaries right_triangle [Arr [Arr [int_ring [0; 1; 2]]]] =
  Ok [Arr [Arr [int_ring [0; 1; 2]]]].
Proof.
  apply (filter_boundaries_idempotent right_triangle
           [Arr [Arr [int_ring [0; 1; 1]]]; Arr [Arr [int_ring [0; 1; 2]]]]).
  vm_compute. reflexivity.
Defined.

Lemma fix_keeps_fix_triangles_output_witness :
  Fix.filter_boundaries (int_point <$> [(0, 0, 0); (1, 0, 0); (0, 1, 0)])
    [Arr [Arr [int_ring [0; 1; 2]]]]
  = Ok [Arr [Arr [int_ring [0; 1; 2]]]].
Proof.
  apply (fix_keeps_fix_triangles_output 6
           [(0, 0, 0); (1, 0, 0); (0, 1, 0); (1, 0, 0)]
           [[0; 1; 3]; [0; 1; 2]]).
  vm_compute. reflexivity.
Defined.

End FilterExamples.


(** ** repair_geometry.py: normal, projection, remapping *)

Lemma num_gtb_int (z n : Z) : num_gtb (PyInt z) (PyInt n) = (n <? z).
Proof.
  unfold num_gtb, num_compare, xval_of, xcompare, fin_compare. simpl.
  rewrite !Z.mul_1_r.
  destruct (Z.compare_spec z n); symmetry;
    [apply Z.ltb_ge|apply Z.ltb_ge|apply Z.ltb_lt]; lia.
Qed.

(** On a normal with integer components the projection drops an axis along
    which the normal is largest in absolute value, so a polygon that has an
    area keeps one in 2D: [(0, 1)] drops z, [(1, 2)] drops x, [(0, 2)]
    drops y. *)
Theorem projection_drops_largest_int (n0 n1 n2 : Z) :
  let axes := RepairGeometry.projection_axes (PyInt n0, PyInt n1, PyInt n2) in
  (axes = (0, 1) /\ Z.abs n0 < Z.abs n2 /\ Z.abs n1 < Z.abs n2) \/
  (axes = (1, 2) /\ Z.abs n1 < Z.abs n0 /\ Z.abs n2 <= Z.abs n0) \/
  (axes = (0, 2) /\ Z.abs n0 <= Z.abs n1 /\ Z.abs n2 <= Z.abs n1).
Proof.
  unfold RepairGeometry.projection_axes. cbn [num_abs].
  rewrite !num_gtb_int.
  destruct (Z.ltb_spec (Z.abs n0) (Z.abs n2)),
    (Z.ltb_spec (Z.abs n1) (Z.abs n2)),
    (Z.ltb_spec (Z.abs n1) (Z.abs n0)); cbn [andb];
    (left; split; [reflexivity|lia]) ||
    (right; left; split; [reflexivity|lia]) ||
    (right; right; split; [reflexivity|lia]).
Qed.

Lemma py_index_int_point (p : Z * Z * Z) :
  py_index (int_point p) 0 = Ok (PyInt p.1.1) /\
  py_index (int_point p) 1 = Ok (PyInt p.1.2) /\
  py_index (int_point p) 2 = Ok (PyInt p.2).
Proof. by destruct p as [[? ?] ?]. Qed.

Lemma newell_term_int (p1 p2 : Z * Z * Z) :
  RepairGeometry.newell_term (int_point p1) (int_point p2) 1 2
    = Ok (PyInt ((p1.1.2 - p2.1.2) * (p1.2 + p2.2))) /\
  RepairGeometry.newell_term (int_point p1) (int_point p2) 2 0
    = Ok (PyInt ((p1.2 - p2.2) * (p1.1.1 + p2.1.1))) /\
  RepairGeometry.newell_term (int_point p1) (int_point p2) 0 1
    = Ok (PyInt ((p1.1.1 - p2.1.1) * (p1.1.2 + p2.1.2))).
Proof. by destruct p1 as [[? ?] ?], p2 as [[? ?] ?]. Qed.

(** The quantity one turn of the loop of [get_normal] adds, over the
    integers. *)
Lemma get_normal_step_int (pts : list (Z * Z * Z)) (nx ny nz i : Z)
    (p1 p2 : Z * Z * Z) :
  0 <= i ->
  pts !! Z.to_nat i = Some p1 ->
  pts !! Z.to_nat ((i + 1) mod Z.of_nat (length pts)) = Some p2 ->
  RepairGeometry.get_normal_step (int_point <$> pts)
    (PyInt nx, PyInt ny, PyInt nz) i =
  Ok (PyInt (nx + (p1.1.2 - p2.1.2) * (p1.2 + p2.2)),
      PyInt (ny + (p1.2 - p2.2) * (p1.1.1 + p2.1.1)),
      PyInt (nz + (p1.1.1 - p2.1.1) * (p1.1.2 + p2.1.2))).
Proof.
  intros Hi H1 H2. unfold RepairGeometry.get_normal_step.
  pose proof (lookup_lt_Some _ _ _ H1) as Hlt.
  rewrite (py_index_int_points pts i p1 Hi H1). cbn [bind].
  rewrite length_fmap.
  rewrite (py_index_int_points pts _ p2); [|apply Z.mod_pos_bound; lia|done].
  cbn [bind].
  destruct (newell_term_int p1 p2) as (-> & -> & ->). reflexivity.
Qed.

Lemma get_normal_loop_int (pts : list (Z * Z * Z)) (range : list Z) :
  Forall (fun i => 0 <= i < Z.of_nat (length pts)) range ->
  forall nx ny nz,
  exists mx my mz,
    RepairGeometry.get_normal_loop (int_point <$> pts) range
      (PyInt nx, PyInt ny, PyInt nz) = Ok (PyInt mx, PyInt my, PyInt mz).
Proof.
  induction 1 as [|i range Hi _ IH]; intros nx ny nz; [by eauto|].
  destruct (lookup_lt_is_Some_2 pts (Z.to_nat i)) as [p1 H1]; [lia|].
  destruct (lookup_lt_is_Some_2 pts
              (Z.to_nat ((i + 1) mod Z.of_nat (length pts)))) as [p2 H2].
  { pose proof (Z.mod_pos_bound (i + 1) (Z.of_nat (length pts))). lia. }
  cbn [RepairGeometry.get_normal_loop].
  rewrite (get_normal_step_int pts nx ny nz i p1 p2) by (done || lia).
  cbn [bind]. apply IH.
Qed.

Lemma get_normal_int (pts : list (Z * Z * Z)) :
  exists mx my mz,
    RepairGeometry.get_normal (int_point <$> pts)
      = Ok (PyInt mx, PyInt my, PyInt mz).
Proof.
  unfold RepairGeometry.get_normal. rewrite length_fmap.
  apply get_normal_loop_int. apply Forall_forall.
  intros i Hi%elem_of_seqZ. lia.
Qed.

(** For a triangle with integer coordinates the normal of [get_normal] is
    the cross product [(b - a) x (c - a)] that [is_degenerate_triangle] and
    fix.py compute: the two notions of a degenerate triangle coincide. *)
Theorem get_normal_triangle_int (a b c : Z * Z * Z) :
  RepairGeometry.get_normal (int_point <$> [a; b; c]) =
  Ok (PyInt (cross_int a b c).1.1, PyInt (cross_int a b c).1.2,
      PyInt (cross_int a b c).2).
Proof.
  destruct a as [[ax ay] az], b as [[bx by_] bz], c as [[cx cy] cz].
  unfold RepairGeometry.get_normal. rewrite length_fmap. cbn [length].
  change (seqZ 0 (Z.of_nat 3)) with [0; 1; 2].
  cbn [RepairGeometry.get_normal_loop].
  rewrite (get_normal_step_int [(ax, ay, az); (bx, by_, bz); (cx, cy, cz)]
             0 0 0 0 (ax, ay, az) (bx, by_, bz)) by (done || lia).
  cbn [bind].
  rewrite (get_normal_step_int [(ax, ay, az); (bx, by_, bz); (cx, cy, cz)]
             _ _ _ 1 (bx, by_, bz) (cx, cy, cz)) by (done || lia).
  cbn [bind].
  rewrite (get_normal_step_int [(ax, ay, az); (bx, by_, bz); (cx, cy, cz)]
             _ _ _ 2 (cx, cy, cz) (ax, ay, az)) by (done || lia).
  cbn [bind fst snd cross_int]. do 2 f_equal; [f_equal|]; f_equal; lia.
Qed.

(** ** repair_geometry.py: the remapping of a face *)

Lemma remap_ring_ints (index_mapping : list Z) (idxs : list Z) :
  RepairGeometry.remap_ring index_mapping (int_ring idxs) =
  mapM (py_index index_mapping) idxs.
Proof.
  unfold RepairGeometry.remap_ring, int_ring.
  induction idxs as [|i idxs IH]; [done|].
  cbn [map]. rewrite !mapM_cons, IH. done.
Qed.

Lemma update_item_ints (index_mapping : list Z) (idxs : list Z) :
  Cleaner.update_item index_mapping (int_ring idxs) =
  (js <- mapM (py_index index_mapping) idxs ;; Ok (int_ring js)).
Proof.
  unfold int_ring. rewrite update_item_Arr.
  induction idxs as [|i idxs IH]; [done|].
  cbn [map]. rewrite !mapM_cons. cbn [Cleaner.update_item].
  destruct (py_index index_mapping i) as [j|e]; [|done]. cbn [bind].
  destruct (mapM (Cleaner.update_item index_mapping) _) as [l'|e'];
    destruct (mapM (py_index index_mapping) idxs) as [js|e'']; cbn [bind] in *;
    try done; try (by injection IH as ->).
Qed.

(** The remapping loop of repair_geometry.py is [update_boundaries] of
    cleaner.py on a face whose rings are lists of integers: the same new
    indices, or the same exception. *)
Theorem remap_face_is_update_item (index_mapping : list Z)
    (rings : list (list Z)) :
  match RepairGeometry.remap_face index_mapping (Arr (int_ring <$> rings)) with
  | Ok remapped =>
      Cleaner.update_item index_mapping (Arr (int_ring <$> rings))
        = Ok (Arr (int_ring <$> remapped))
  | Raise e =>
      Cleaner.update_item index_mapping (Arr (int_ring <$> rings)) = Raise e
  end.
Proof.
  cbn [RepairGeometry.remap_face]. rewrite update_item_Arr.
  induction rings as [|ring rings IH]; [done|].
  cbn [fmap list_fmap]. rewrite !mapM_cons, remap_ring_ints, update_item_ints.
  destruct (mapM (py_index index_mapping) ring) as [js|e]; [|done].
  cbn [bind].
  destruct (mapM (RepairGeometry.remap_ring index_mapping) _) as [rs|e];
    destruct (mapM (Cleaner.update_item index_mapping) _) as [l'|e'];
    cbn [bind] in *; try done; try (by injection IH as ->).
Qed.

(** ** repair_geometry.py: what is handed to [earcut] and taken back *)

Lemma list_ind3 {A : Type} (P : list A -> Prop) :
  P [] -> (forall a, P [a]) -> (forall a b, P [a; b]) ->
  (forall a b c l, P l -> P (a :: b :: c :: l)) ->
  forall l, P l.
Proof.
  intros H0 H1 H2 H3.
  fix IH 1. intros [|a [|b [|c l]]]; [exact H0|apply H1|apply H2|].
  apply H3, IH.
Qed.

Lemma emit_triangles_cons (all_indices : list Z) (r0 r1 r2 : Z)
    (rest : list Z) :
  RepairGeometry.emit_triangles all_indices (r0 :: r1 :: r2 :: rest) =
  (a <- py_index all_indices r0 ;;
   b <- py_index all_indices r1 ;;
   c <- py_index all_indices r2 ;;
   ts <- RepairGeometry.emit_triangles all_indices rest ;;
   Ok ([a; b; c] :: ts)).
Proof. reflexivity. Qed.

Lemma py_index_raises {A : Type} (l : list A) (i : Z) (e : exn) :
  py_index l i = Raise e -> e = IndexError.
Proof.
  unfold py_index. destruct (_ || _); [by intros [= <-]|].
  destruct (_ !! _); [done|by intros [= <-]].
Qed.

Lemma py_index_Ok_iff {A : Type} (l : list A) (i : Z) :
  (exists x, py_index l i = Ok x) <-> py_index_ok (length l) i.
Proof.
  split.
  - intros [x Hx]. by eapply py_index_Ok_inv.
  - intros (x & Hx & _)%py_index_Ok. eauto.
Qed.

Lemma emit_triangles_spec (all_indices : list Z) (result_ : list Z) :
  ((exists triangles,
      RepairGeometry.emit_triangles all_indices result_ = Ok triangles) <->
   (length result_ mod 3 = 0)%nat /\
   Forall (py_index_ok (length all_indices)) result_) /\
  (forall e, RepairGeometry.emit_triangles all_indices result_ = Raise e ->
     e = IndexError).
Proof.
  induction result_ as [|r0|r0 r1|r0 r1 r2 rest [IHok IHraise]] using list_ind3.
  - split; [|done]. split; [by intros _|]. intros _. by exists [].
  - cbn [RepairGeometry.emit_triangles]. split.
    + split; [|by intros [[=] _]].
      intros [ts Hts]. by destruct (py_index all_indices r0).
    + intros e. destruct (py_index all_indices r0) eqn:H0; cbn [bind].
      * by intros [= <-].
      * intros [= <-]. by eapply py_index_raises.
  - cbn [RepairGeometry.emit_triangles]. split.
    + split; [|by intros [[=] _]].
      intros [ts Hts].
      by destruct (py_index all_indices r0), (py_index all_indices r1).
    + intros e. destruct (py_index all_indices r0) eqn:H0; cbn [bind];
        [|intros [= <-]; by eapply py_index_raises].
      destruct (py_index all_indices r1) eqn:H1; cbn [bind];
        [|intros [= <-]; by eapply py_index_raises].
      by intros [= <-].
  - rewrite emit_triangles_cons.
    assert (length (r0 :: r1 :: r2 :: rest) mod 3 = length rest mod 3)%nat
      as Hmod.
    { cbn [length].
      replace (S (S (S (length rest)))) with (length rest + 1 * 3)%nat by lia.
      apply Nat.Div0.mod_add. }
    rewrite Hmod, !Forall_cons, <- !py_index_Ok_iff. split.
    + split.
      * intros [ts Hts].
        destruct (py_index all_indices r0) as [a|]; [|done].
        destruct (py_index all_indices r1) as [b|]; [|done].
        destruct (py_index all_indices r2) as [c|]; [|done].
        cbn [bind] in Hts.
        destruct (RepairGeometry.emit_triangles all_indices rest) as [ts'|] eqn:Hrest;
          [|done].
        destruct (proj1 IHok) as [Hm Hall]; [by eauto|].
        split; [done|]. split_and!; eauto.
      * intros (Hm & [a ->] & [b ->] & [c ->] & Hall). cbn [bind].
        destruct (proj2 IHok (conj Hm Hall)) as [ts ->]. cbn [bind]. eauto.
    + intros e.
      destruct (py_index all_indices r0) eqn:H0; cbn [bind];
        [|intros [= <-]; by eapply py_index_raises].
      destruct (py_index all_indices r1) eqn:H1; cbn [bind];
        [|intros [= <-]; by eapply py_index_raises].
      destruct (py_index all_indices r2) eqn:H2; cbn [bind];
        [|intros [= <-]; by eapply py_index_raises].
      destruct (RepairGeometry.emit_triangles all_indices rest) eqn:Hrest;
        cbn [bind]; [done|].
      intros [= <-]. by apply IHraise.
Qed.

(** The loop that maps the answer of [earcut] back succeeds exactly when
    the answer has a multiple of three entries and each entry is an index
    Python accepts for [all_indices]; otherwise it raises [IndexError]. *)
Theorem emit_triangles_succeeds_iff (all_indices : list Z)
    (result_ : list Z) :
  ((exists triangles,
      RepairGeometry.emit_triangles all_indices result_ = Ok triangles) <->
   (length result_ mod 3 = 0)%nat /\
   Forall (py_index_ok (length all_indices)) result_) /\
  (forall e, RepairGeometry.emit_triangles all_indices result_ = Raise e ->
     e = IndexError).
Proof. exact (emit_triangles_spec all_indices result_). Qed.

Lemma mapM_app {A B : Type} (f : A -> result B) (l1 l2 : list A) :
  mapM f (l1 ++ l2) =
  (ys1 <- mapM f l1 ;; ys2 <- mapM f l2 ;; Ok (ys1 ++ ys2)).
Proof.
  induction l1 as [|x l1 IH].
  - cbn [app]. change (mapM f []) with (@Ok (list B) []). cbn [bind].
    by destruct (mapM f l2).
  - cbn [app]. rewrite !mapM_cons, IH. destruct (f x); [|done]. cbn [bind].
    destruct (mapM f l1); [|done]. cbn [bind]. by destruct (mapM f l2).
Qed.

Lemma mapM_length {A B : Type} (f : A -> result B) (l : list A) (ys : list B) :
  mapM f l = Ok ys -> length ys = length l.
Proof. intros H%mapM_Ok_inv. symmetry. by eapply Forall2_length. Qed.

Lemma project_app (ax1 ax2 : Z) (p1 p2 : list vertex) :
  RepairGeometry.project ax1 ax2 (p1 ++ p2) =
  (f1 <- RepairGeometry.project ax1 ax2 p1 ;;
   f2 <- RepairGeometry.project ax1 ax2 p2 ;; Ok (f1 ++ f2)).
Proof.
  induction p1 as [|p p1 IH].
  - cbn [app RepairGeometry.project bind].
    by destruct (RepairGeometry.project ax1 ax2 p2).
  - cbn [app RepairGeometry.project]. rewrite IH.
    destruct (py_index p ax1); [|done]. destruct (py_index p ax2); [|done].
    cbn [bind]. destruct (RepairGeometry.project ax1 ax2 p1); [|done].
    cbn [bind]. by destruct (RepairGeometry.project ax1 ax2 p2).
Qed.

Lemma project_length (ax1 ax2 : Z) (points : list vertex) :
  forall flat, RepairGeometry.project ax1 ax2 points = Ok flat ->
  length flat = (2 * length points)%nat.
Proof.
  induction points as [|p points IH]; intros flat.
  - by intros [= <-].
  - cbn [RepairGeometry.project].
    destruct (py_index p ax1); [|done]. destruct (py_index p ax2); [|done].
    cbn [bind]. destruct (RepairGeometry.project ax1 ax2 points); [|done].
    intros [= <-]. cbn [length]. rewrite (IH _ eq_refl). lia.
Qed.

(** The offsets [hole_indices.append(len(vertices_2d) // 2)] records, when
    [n0] points precede the first hole. *)
Lemma add_holes_layout (new_vertices : list vertex) (ax1 ax2 : Z)
    (holes : list (list Z)) :
  forall (vertices_2d : list num) (hole_indices : list Z)
         (points0 : list vertex) v2d' hi',
  RepairGeometry.project ax1 ax2 points0 = Ok vertices_2d ->
  RepairGeometry.add_holes new_vertices ax1 ax2 holes vertices_2d hole_indices
    = Ok (v2d', hi') ->
  exists hole_points,
    mapM (py_index new_vertices) (concat holes) = Ok hole_points /\
    RepairGeometry.project ax1 ax2 (points0 ++ hole_points) = Ok v2d' /\
    hi' = hole_indices ++
          ((fun k => Z.of_nat (length points0 + length (concat (take k holes))))
             <$> seq 0 (length holes)).
Proof.
  induction holes as [|hole holes IH];
    intros vertices_2d hole_indices points0 v2d' hi' Hproj.
  - intros [= <- <-]. exists []. by rewrite !app_nil_r.
  - cbn [RepairGeometry.add_holes].
    destruct (mapM (py_index new_vertices) hole) as [hp|] eqn:Hhp; [|done].
    cbn [bind].
    destruct (RepairGeometry.project ax1 ax2 hp) as [flat|] eqn:Hflat; [|done].
    cbn [bind]. intros Hrest.
    destruct (IH (vertices_2d ++ flat)
                (hole_indices ++ [Z.of_nat (length vertices_2d) / 2])
                (points0 ++ hp) v2d' hi') as (hps & Hhps & Hproj' & ->).
    { by rewrite project_app, Hproj, Hflat. }
    { exact Hrest. }
    exists (hp ++ hps). split_and!.
    + cbn [concat]. by rewrite mapM_app, Hhp, Hhps.
    + by rewrite app_assoc.
    + rewrite <- app_assoc. f_equal. cbn [length seq fmap list_fmap app].
      f_equal.
      * apply project_length in Hproj. rewrite Hproj.
        cbn [take concat length]. rewrite Nat.add_0_r.
        rewrite Nat2Z.inj_mul, Z.mul_comm. by rewrite Z.div_mul.
      * rewrite <- fmap_S_seq, <- list_fmap_compose. apply list_fmap_ext.
        intros _ k _. cbn [compose take concat].
        rewrite !length_app, (mapM_length _ _ _ Hhp). f_equal. lia.
Qed.

Lemma triangulate_face_call
    (earcut : list num -> list Z -> Z -> list Z)
    (new_vertices : list vertex) (face_rings_indices : list (list Z))
    (triangles : list (list Z)) :
  RepairGeometry.triangulate_face earcut new_vertices face_rings_indices
    = Ok triangles ->
  exists exterior,
    py_index face_rings_indices 0 = Ok exterior /\
    (((length (unique exterior) < 3)%nat /\ triangles = []) \/
     ((3 <= length (unique exterior))%nat /\
      let holes := tail face_rings_indices in
      let all_indices := exterior ++ concat holes in
      exists points ax1 ax2 vertices_2d,
        mapM (py_index new_vertices) all_indices = Ok points /\
        RepairGeometry.project ax1 ax2 points = Ok vertices_2d /\
        length vertices_2d = (2 * length all_indices)%nat /\
        RepairGeometry.emit_triangles all_indices
          (earcut vertices_2d
             ((fun k =>
                 Z.of_nat (length exterior + length (concat (take k holes))))
                <$> seq 0 (length holes)) 2) = Ok triangles)).
Proof.
  unfold RepairGeometry.triangulate_face.
  destruct (py_index face_rings_indices 0) as [exterior|] eqn:Hext; [|done].
  cbn [bind]. intros Hrun. exists exterior. split; [done|]. revert Hrun.
  destruct (Z.ltb_spec (Z.of_nat (length (unique exterior))) 3) as [Hlt|Hge].
  { intros [= <-]. left. split; [lia|done]. }
  intros Hrun. right. split; [lia|]. revert Hrun.
  destruct (mapM (py_index new_vertices) exterior) as [ep|] eqn:Hep; [|done].
  cbn [bind]. destruct (RepairGeometry.get_normal ep) as [normal|]; [|done].
  cbn [bind]. destruct (RepairGeometry.projection_axes normal) as [ax1 ax2].
  destruct (RepairGeometry.project ax1 ax2 ep) as [v2d|] eqn:Hv2d; [|done].
  cbn [bind].
  destruct (RepairGeometry.add_holes _ _ _ _ _ _) as [[v2d' hi']|] eqn:Hholes;
    [|done].
  cbn [bind]. intros Hemit.
  destruct (add_holes_layout _ _ _ _ _ _ ep _ _ Hv2d Hholes)
    as (hps & Hhps & Hproj & ->).
  exists (ep ++ hps), ax1, ax2, v2d'. cbn [app] in Hemit. split_and!.
  - by rewrite mapM_app, Hep, Hhps.
  - done.
  - rewrite (project_length _ _ _ _ Hproj), !length_app,
      (mapM_length _ _ _ Hep), (mapM_length _ _ _ Hhps). done.
  - by rewrite (mapM_length _ _ _ Hep) in Hemit.
Qed.

(** What [triangulate_face] hands to [earcut] lines up with [all_indices]:
    the flat list holds the two projected coordinates of the vertex of each
    entry of [all_indices], in that order, and the k-th hole index is the
    number of points before the k-th interior ring; so an index in the
    answer of [earcut] denotes the entry of [all_indices] at that
    position. *)
Theorem earcut_input_lines_up
    (earcut : list num -> list Z -> Z -> list Z)
    (new_vertices : list vertex) (face_rings_indices : list (list Z))
    (triangles : list (list Z)) :
  RepairGeometry.triangulate_face earcut new_vertices face_rings_indices
    = Ok triangles ->
  exists exterior,
    py_index face_rings_indices 0 = Ok exterior /\
    (((length (unique exterior) < 3)%nat /\ triangles = []) \/
     ((3 <= length (unique exterior))%nat /\
      let holes := tail face_rings_indices in
      let all_indices := exterior ++ concat holes in
      exists points ax1 ax2 vertices_2d,
        mapM (py_index new_vertices) all_indices = Ok points /\
        RepairGeometry.project ax1 ax2 points = Ok vertices_2d /\
        length vertices_2d = (2 * length all_indices)%nat /\
        RepairGeometry.emit_triangles all_indices
          (earcut vertices_2d
             ((fun k =>
                 Z.of_nat (length exterior + length (concat (take k holes))))
                <$> seq 0 (length holes)) 2) = Ok triangles)).
Proof. exact (triangulate_face_call earcut new_vertices face_rings_indices triangles). Qed.

Lemma earcut_input_lines_up_witness :
  exists exterior,
    py_index [[0; 1; 2]] 0 = Ok exterior /\
    (((length (unique exterior) < 3)%nat /\ [[0; 1; 2]] = @nil (list Z)) \/
     ((3 <= length (unique exterior))%nat /\
      let holes := tail [[0; 1; 2]] in
      let all_indices := exterior ++ concat holes in
      exists points ax1 ax2 vertices_2d,
        mapM (py_index right_triangle) all_indices = Ok points /\
        RepairGeometry.project ax1 ax2 points = Ok vertices_2d /\
        length vertices_2d = (2 * length all_indices)%nat /\
        RepairGeometry.emit_triangles all_indices
          (earcut_one vertices_2d
             ((fun k =>
                 Z.of_nat (length exterior + length (concat (take k holes))))
                <$> seq 0 (length holes)) 2) = Ok [[0; 1; 2]])).
Proof.
  apply (earcut_input_lines_up earcut_one right_triangle [[0; 1; 2]]).
  vm_compute. reflexivity.
Defined.

(** ** repair_geometry.py raises nothing on well-formed input *)

Lemma cl_weld_int_points (precision : nat) (pts : list (Z * Z * Z)) :
  exists kept : list (Z * Z * Z),
    Cleaner.new_vertices (Cleaner.weld precision (int_point <$> pts))
      = int_point <$> kept.
Proof.
  destruct (cl_weld_related precision (int_point <$> pts)) as (-> & _).
  pose proof (abs_weld_subset (Cleaner.vertex_key precision) string_same
                (int_point <$> pts)) as Hsub.
  induction (abs_weld _ _ _).1 as [|v l IH]; [by exists []|].
  destruct IH as [kept ->]; [set_solver|].
  assert (v ∈ int_point <$> pts) as (p & -> & _)%list_elem_of_fmap by set_solver.
  by exists (p :: kept).
Qed.

Lemma mapM_py_index_Ok {A : Type} (l : list A) (idxs : list Z) :
  Forall (fun i => 0 <= i < Z.of_nat (length l)) idxs ->
  exists xs, mapM (py_index l) idxs = Ok xs /\ Forall (fun x => x ∈ l) xs.
Proof.
  intros Hidxs. apply mapM_Ok_all.
  eapply Forall_impl; [exact Hidxs|]. intros i Hi.
  apply py_index_Ok. unfold py_index_ok. cbv beta in Hi. lia.
Qed.

Lemma elements_of_fmap {A B : Type} (f : A -> B) (l : list A) (ys : list B) :
  Forall (fun y => y ∈ f <$> l) ys -> exists xs, ys = f <$> xs.
Proof.
  induction 1 as [|y ys (x & -> & _)%list_elem_of_fmap _ [xs ->]].
  - by exists [].
  - by exists (x :: xs).
Qed.

Lemma projection_axes_cases (normal : vec3) :
  RepairGeometry.projection_axes normal = (0, 1) \/
  RepairGeometry.projection_axes normal = (1, 2) \/
  RepairGeometry.projection_axes normal = (0, 2).
Proof.
  destruct normal as [[n0 n1] n2]. unfold RepairGeometry.projection_axes.
  destruct (_ && _); [by left|]. destruct (num_gtb _ _); auto.
Qed.

Lemma project_int_points (ax1 ax2 : Z) (ps : list (Z * Z * Z)) :
  (ax1, ax2) = (0, 1) \/ (ax1, ax2) = (1, 2) \/ (ax1, ax2) = (0, 2) ->
  exists flat, RepairGeometry.project ax1 ax2 (int_point <$> ps) = Ok flat.
Proof.
  intros Hax. induction ps as [|p ps [flat IH]]; [by exists []|].
  cbn [fmap list_fmap RepairGeometry.project].
  change (list_fmap _ _ int_point ps) with (int_point <$> ps). rewrite IH.
  destruct (py_index_int_point p) as (H0 & H1 & H2).
  destruct Hax as [[= -> ->]|[[= -> ->]|[= -> ->]]];
    rewrite ?H0, ?H1, ?H2; cbn [bind]; eauto.
Qed.

Lemma add_holes_int_points (kept : list (Z * Z * Z)) (ax1 ax2 : Z)
    (holes : list (list Z)) :
  (ax1, ax2) = (0, 1) \/ (ax1, ax2) = (1, 2) \/ (ax1, ax2) = (0, 2) ->
  Forall (Forall (fun i => 0 <= i < Z.of_nat (length kept))) holes ->
  forall vertices_2d hole_indices,
  exists with_holes,
    RepairGeometry.add_holes (int_point <$> kept) ax1 ax2 holes
      vertices_2d hole_indices = Ok with_holes.
Proof.
  intros Hax. induction 1 as [|hole holes Hhole _ IH];
    intros vertices_2d hole_indices; [by eexists|].
  cbn [RepairGeometry.add_holes].
  destruct (mapM_py_index_Ok (int_point <$> kept) hole) as (hp & -> & Hhp).
  { by rewrite length_fmap. }
  cbn [bind]. apply elements_of_fmap in Hhp as [ps ->].
  destruct (project_int_points ax1 ax2 ps Hax) as [flat ->]. cbn [bind].
  apply IH.
Qed.

Lemma triangulate_face_int_points
    (earcut : list num -> list Z -> Z -> list Z)
    (kept : list (Z * Z * Z)) (rings : list (list Z)) :
  earcut_contract earcut ->
  face_within (Z.of_nat (length kept)) rings ->
  exists triangles,
    RepairGeometry.triangulate_face earcut (int_point <$> kept) rings
      = Ok triangles.
Proof.
  intros Hearcut [Hne Hrings].
  destruct rings as [|exterior holes]; [done|].
  apply Forall_cons_1 in Hrings as [Hext Hholes].
  unfold RepairGeometry.triangulate_face.
  change (py_index (exterior :: holes) 0) with (@Ok (list Z) exterior).
  cbn [bind tail]. destruct (_ <? 3); [by eexists|].
  destruct (mapM_py_index_Ok (int_point <$> kept) exterior) as (ep & Hep & Hin).
  { by rewrite length_fmap. }
  rewrite Hep. cbn [bind]. apply elements_of_fmap in Hin as [eps ->].
  destruct (get_normal_int eps) as (mx & my & mz & ->). cbn [bind].
  pose proof (projection_axes_cases (PyInt mx, PyInt my, PyInt mz)) as Hax.
  destruct (RepairGeometry.projection_axes _) as [ax1 ax2].
  destruct (project_int_points ax1 ax2 eps Hax) as [v2d Hv2d].
  rewrite Hv2d. cbn [bind].
  destruct (add_holes_int_points kept ax1 ax2 holes Hax Hholes v2d [])
    as [[v2d' hi'] Hholes'].
  rewrite Hholes'. cbn [bind].
  destruct (add_holes_layout _ _ _ _ _ _ _ _ _ Hv2d Hholes')
    as (hps & Hhps & Hproj & _).
  apply emit_triangles_spec.
  destruct (Hearcut v2d' hi') as [Hmod Hall]. split; [done|].
  eapply Forall_impl; [exact Hall|]. intros r Hr. unfold py_index_ok.
  apply project_length in Hproj.
  rewrite Hproj, length_app, length_fmap, (mapM_length _ _ _ Hhps) in Hr.
  apply mapM_length in Hep. rewrite length_fmap in Hep.
  rewrite Nat2Z.inj_mul, Z.mul_comm, Z.div_mul in Hr by lia.
  rewrite length_app. lia.
Qed.

Lemma remap_face_int (index_mapping : list Z) (rings : list (list Z)) :
  RepairGeometry.remap_face index_mapping (Arr (int_ring <$> rings)) =
  mapM (fun ring => mapM (py_index index_mapping) ring) rings.
Proof.
  cbn [RepairGeometry.remap_face].
  induction rings as [|ring rings IH]; [done|].
  cbn [fmap list_fmap]. rewrite !mapM_cons, remap_ring_ints.
  change (list_fmap _ _ int_ring rings) with (int_ring <$> rings).
  by rewrite IH.
Qed.

Lemma remap_face_within (index_mapping : list Z) (n : Z)
    (rings : list (list Z)) :
  Forall (fun j => 0 <= j < n) index_mapping ->
  face_within (Z.of_nat (length index_mapping)) rings ->
  exists remapped,
    RepairGeometry.remap_face index_mapping (Arr (int_ring <$> rings))
      = Ok remapped /\
    face_within n remapped.
Proof.
  intros Hmap [Hne Hrings]. rewrite remap_face_int.
  destruct (mapM_Ok_all (fun ring => mapM (py_index index_mapping) ring)
              (Forall (fun j => 0 <= j < n)) rings) as (remapped & Hr & Hall).
  { eapply Forall_impl; [exact Hrings|]. intros ring Hring.
    destruct (mapM_py_index_Ok index_mapping ring Hring) as (js & -> & Hjs).
    exists js. split; [done|].
    eapply Forall_impl; [exact Hjs|]. intros j Hj.
    rewrite Forall_forall in Hmap. by apply Hmap. }
  exists remapped. split; [done|]. split; [|done].
  apply mapM_length in Hr. destruct remapped, rings; done.
Qed.

(** repair_geometry.py raises nothing on a well-formed geometry when
    [earcut] keeps its promise: with vertices of three integer coordinates
    and faces that are non-empty lists of rings of indices inside the
    vertex array, the run returns the welded vertices and some triangles. *)
Theorem rg_repair_succeeds (earcut : list num -> list Z -> Z -> list Z)
    (precision : nat) (pts : list (Z * Z * Z))
    (faces : list (list (list Z))) :
  earcut_contract earcut ->
  Forall (face_within (Z.of_nat (length pts))) faces ->
  exists out,
    RepairGeometry.repair earcut precision (int_point <$> pts)
      ((fun rings => Arr (int_ring <$> rings)) <$> faces) =
    Ok (Cleaner.new_vertices (Cleaner.weld precision (int_point <$> pts)),
        out).
Proof.
  intros Hearcut Hfaces.
  unfold RepairGeometry.repair, RepairGeometry.repair_boundaries,
    RepairGeometry.weld.
  destruct (cl_weld_int_points precision pts) as [kept Hkept].
  set (st := Cleaner.weld precision (int_point <$> pts)) in *.
  assert (Forall (fun j => 0 <= j < Z.of_nat (length kept))
            (Cleaner.index_mapping st)) as Hmap.
  { apply Forall_forall. intros j Hj.
    pose proof (cl_index_mapping_valid precision (int_point <$> pts) j Hj)
      as Hvalid.
    unfold valid_index in Hvalid. fold st in Hvalid.
    by rewrite Hkept, length_fmap in Hvalid. }
  assert (length (Cleaner.index_mapping st) = length pts) as Hlen.
  { subst st. rewrite cl_index_mapping_lookup, length_fmap.
    destruct (abs_weld_below (Cleaner.vertex_key precision) string_same
                (int_point <$> pts)) as (_ & -> & _).
    by rewrite length_fmap. }
  destruct (mapM_Ok_all (RepairGeometry.remap_face (Cleaner.index_mapping st))
              (face_within (Z.of_nat (length kept)))
              ((fun rings => Arr (int_ring <$> rings)) <$> faces))
    as (updated & -> & Hupdated).
  { apply Forall_fmap. eapply Forall_impl; [exact Hfaces|].
    intros rings Hrings. apply remap_face_within; [done|].
    by rewrite Hlen. }
  cbn [bind]. rewrite Hkept.
  destruct (mapM_Ok_all
              (RepairGeometry.triangulate_face earcut (int_point <$> kept))
              (fun _ => True) updated) as (per_face & -> & _).
  { eapply Forall_impl; [exact Hupdated|]. intros rings Hrings.
    destruct (triangulate_face_int_points earcut kept rings Hearcut Hrings)
      as [triangles ->].
    by exists triangles. }
  cbn [bind]. eauto.
Qed.

Lemma earcut_one_contract : earcut_contract earcut_one.
Proof.
  intros v2d holes. unfold earcut_one.
  destruct v2d as [|? [|? [|? [|? [|? [|? [|? ?]]]]]]]; try by split.
  destruct holes; [|by split].
  split; [done|]. repeat constructor; done.
Qed.

Lemma rg_repair_succeeds_witness :
  exists out,
    RepairGeometry.repair earcut_one 5
      (int_point <$> [(0, 0, 0); (1, 0, 0); (0, 1, 0)])
      ((fun rings => Arr (int_ring <$> rings)) <$> [[[0; 1; 2]]]) =
    Ok (Cleaner.new_vertices
          (Cleaner.weld 5 (int_point <$> [(0, 0, 0); (1, 0, 0); (0, 1, 0)])),
        out).
Proof.
  apply (rg_repair_succeeds earcut_one 5 [(0, 0, 0); (1, 0, 0); (0, 1, 0)]
           [[[0; 1; 2]]] earcut_one_contract).
  apply Forall_cons_2; [|constructor]. split; [done|].
  apply Forall_cons_2; [|constructor].
  repeat (apply Forall_cons_2; [simpl; lia|]). constructor.
Defined.


(** ** The reports of fix_triangles.py and fix.py *)

Section Reports.
Context {libm : Libm}.

Lemma collectS_cons {A B S : Type} (f : A -> S -> result (option B * S))
    (x : A) (l : list A) (s : S) :
  collectS f (x :: l) s =
  (r <- f x s ;;
   rs <- collectS f l r.2 ;;
   Ok (match r.1 with Some y => y :: rs.1 | None => rs.1 end, rs.2)).
Proof. reflexivity. Qed.

Lemma mapS_cons {A B S : Type} (f : A -> S -> result (B * S))
    (x : A) (l : list A) (s : S) :
  mapS f (x :: l) s =
  (r <- f x s ;; rs <- mapS f l r.2 ;; Ok (r.1 :: rs.1, rs.2)).
Proof. reflexivity. Qed.

Lemma ftr_process_boundary_leaf (index_remap : gmap Z Z)
    (vertices : list vertex) (n : num) (rest : list boundary)
    (c : FixTrianglesReport.counters) :
  FixTrianglesReport.process_boundary index_remap vertices
    (Arr (Num n :: rest)) c =
  FixTrianglesReport.process_ring index_remap vertices (Num n :: rest) c.
Proof. reflexivity. Qed.

Lemma ftr_process_boundary_node (index_remap : gmap Z Z)
    (vertices : list vertex) (first rest : list boundary)
    (c : FixTrianglesReport.counters) :
  FixTrianglesReport.process_boundary index_remap vertices
    (Arr (Arr first :: rest)) c =
  (r <- collectS (FixTrianglesReport.process_boundary index_remap vertices)
          (Arr first :: rest) c ;;
   Ok (match r.1 with [] => None | _ => Some (Arr r.1) end, r.2)).
Proof. reflexivity. Qed.

(** The counters after a boundary with [n] rings of which [k] were kept. *)
Lemma counters_eq (c : FixTrianglesReport.counters) (r k : Z) :
  FixTrianglesReport.total_removed c = r ->
  FixTrianglesReport.total_kept c = k ->
  c = {| FixTrianglesReport.total_removed := r;
         FixTrianglesReport.total_kept := k |}.
Proof. destruct c. simpl. by intros -> ->. Qed.

Lemma rings_int_ring (idxs : list Z) :
  idxs <> [] -> rings (int_ring idxs) = 1%nat.
Proof. by destruct idxs. Qed.

Lemma ftr_process_ring (index_remap : gmap Z Z) (vertices : list vertex)
    (n : num) (rest : list boundary) (c : FixTrianglesReport.counters) :
  match FixTriangles.process_ring index_remap vertices (Num n :: rest) with
  | Ok r =>
      FixTrianglesReport.process_ring index_remap vertices (Num n :: rest) c =
      Ok (r,
          {| FixTrianglesReport.total_removed :=
               FixTrianglesReport.total_removed c + 1
               - Z.of_nat (from_option rings 0%nat r);
             FixTrianglesReport.total_kept :=
               FixTrianglesReport.total_kept c
               + Z.of_nat (from_option rings 0%nat r) |})
  | Raise e =>
      FixTrianglesReport.process_ring index_remap vertices (Num n :: rest) c
        = Raise e
  end.
Proof.
  unfold FixTriangles.process_ring, FixTrianglesReport.process_ring.
  destruct (mapM _ (Num n :: rest)) as [remapped|e] eqn:Hmap; [|done].
  cbn [bind].
  assert (rings (int_ring remapped) = 1%nat) as Hone.
  { apply rings_int_ring. apply mapM_length in Hmap. by destruct remapped. }
  assert (forall c',
            c' = FixTrianglesReport.kept c ->
            @Ok (option boundary * FixTrianglesReport.counters)
              (Some (int_ring remapped), c') =
            Ok (Some (int_ring remapped),
                {| FixTrianglesReport.total_removed :=
                     FixTrianglesReport.total_removed c + 1
                     - Z.of_nat (from_option rings 0%nat
                                   (Some (int_ring remapped)));
                   FixTrianglesReport.total_kept :=
                     FixTrianglesReport.total_kept c
                     + Z.of_nat (from_option rings 0%nat
                                   (Some (int_ring remapped))) |})) as Hkept.
  { intros c' ->. cbn [from_option]. rewrite Hone.
    unfold FixTrianglesReport.kept. do 2 f_equal. f_equal; lia. }
  assert (@Ok (option boundary * FixTrianglesReport.counters)
            (None, FixTrianglesReport.removed c) =
          Ok (None,
              {| FixTrianglesReport.total_removed :=
                   FixTrianglesReport.total_removed c + 1
                   - Z.of_nat (from_option rings 0%nat None);
                 FixTrianglesReport.total_kept :=
                   FixTrianglesReport.total_kept c
                   + Z.of_nat (from_option rings 0%nat None) |})) as Hremoved.
  { cbn [from_option]. unfold FixTrianglesReport.removed.
    do 2 f_equal. f_equal; lia. }
  destruct (unique (FixTriangles.clean_ring remapped))
    as [|u0 [|u1 [|u2 [|u3 more]]]];
    try (destruct (_ <? 3); [exact Hremoved|by apply Hkept]).
  destruct (FixTriangles.is_degenerate_triangle u0 u1 u2 vertices)
    as [[|]|e]; cbn [bind]; [exact Hremoved|by apply Hkept|done].
Qed.

Lemma process_boundary_Some_Arr (index_remap : gmap Z Z)
    (vertices : list vertex) (b o : boundary) :
  FixTriangles.process_boundary index_remap vertices b = Ok (Some o) ->
  exists l, o = Arr l.
Proof.
  destruct b as [x|[|[x|first] rest]]; try done.
  - rewrite process_boundary_leaf.
    intros (remapped & _ & -> & _)%process_ring_Some. by eexists.
  - rewrite process_boundary_node.
    destruct (collectM _ _) as [[|p ps]|e]; [done| |done].
    intros [= <-]. by eexists.
Qed.

Lemma rings_processed (index_remap : gmap Z Z) (vertices : list vertex)
    (items processed : list boundary) :
  collectM (FixTriangles.process_boundary index_remap vertices) items
    = Ok processed ->
  from_option rings 0%nat
    (match processed with [] => None | _ => Some (Arr processed) end)
  = sum_list_with rings processed.
Proof.
  intros (kept & _ & Hall)%collectM_sublist.
  destruct Hall as [|x o kept' ps Ho _]; [done|].
  apply process_boundary_Some_Arr in Ho as [l ->]. done.
Qed.

Section Counted.
Context (index_remap : gmap Z Z) (vertices : list vertex).

Lemma collectS_counted (items : list boundary) :
  Forall (fun b => forall c,
    match FixTriangles.process_boundary index_remap vertices b with
    | Ok r =>
        FixTrianglesReport.process_boundary index_remap vertices b c =
        Ok (r,
            {| FixTrianglesReport.total_removed :=
                 FixTrianglesReport.total_removed c + Z.of_nat (rings b)
                 - Z.of_nat (from_option rings 0%nat r);
               FixTrianglesReport.total_kept :=
                 FixTrianglesReport.total_kept c
                 + Z.of_nat (from_option rings 0%nat r) |})
    | Raise e =>
        FixTrianglesReport.process_boundary index_remap vertices b c = Raise e
    end) items ->
  forall c,
    match collectM (FixTriangles.process_boundary index_remap vertices) items
    with
    | Ok out =>
        collectS (FixTrianglesReport.process_boundary index_remap vertices)
          items c =
        Ok (out,
            {| FixTrianglesReport.total_removed :=
                 FixTrianglesReport.total_removed c
                 + Z.of_nat (sum_list_with rings items)
                 - Z.of_nat (sum_list_with rings out);
               FixTrianglesReport.total_kept :=
                 FixTrianglesReport.total_kept c
                 + Z.of_nat (sum_list_with rings out) |})
    | Raise e =>
        collectS (FixTrianglesReport.process_boundary index_remap vertices)
          items c = Raise e
    end.
Proof.
  induction 1 as [|b items Hb _ IH]; intros c.
  - change (collectM _ []) with (@Ok (list boundary) []).
    cbn [collectS sum_list_with]. do 2 f_equal. destruct c. simpl.
    f_equal; lia.
  - rewrite collectM_cons, collectS_cons. specialize (Hb c).
    destruct (FixTriangles.process_boundary index_remap vertices b)
      as [r|e]; [|by rewrite Hb].
    rewrite Hb. cbn [bind fst snd].
    match goal with
    | |- context [collectS _ items ?c1] => specialize (IH c1)
    end.
    destruct (collectM _ items) as [out|e]; [|by rewrite IH].
    rewrite IH. cbn [bind fst snd].
    cbn [FixTrianglesReport.total_removed FixTrianglesReport.total_kept].
    destruct r as [o|]; cbn [from_option sum_list_with]; do 2 f_equal;
      f_equal; lia.
Qed.

Lemma process_boundary_counted (b : boundary) :
  forall c,
    match FixTriangles.process_boundary index_remap vertices b with
    | Ok r =>
        FixTrianglesReport.process_boundary index_remap vertices b c =
        Ok (r,
            {| FixTrianglesReport.total_removed :=
                 FixTrianglesReport.total_removed c + Z.of_nat (rings b)
                 - Z.of_nat (from_option rings 0%nat r);
               FixTrianglesReport.total_kept :=
                 FixTrianglesReport.total_kept c
                 + Z.of_nat (from_option rings 0%nat r) |})
    | Raise e =>
        FixTrianglesReport.process_boundary index_remap vertices b c = Raise e
    end.
Proof.
  induction b as [x|items IH] using boundary_ind_forall; intros c.
  - cbn. do 2 f_equal. destruct c. simpl. f_equal; lia.
  - destruct items as [|[x|first] rest].
    + cbn. do 2 f_equal. destruct c. simpl. f_equal; lia.
    + rewrite process_boundary_leaf, ftr_process_boundary_leaf.
      apply ftr_process_ring.
    + rewrite process_boundary_node, ftr_process_boundary_node.
      pose proof (collectS_counted _ IH c) as Hitems.
      destruct (collectM _ _) as [processed|e] eqn:Hprocessed;
        [|by rewrite Hitems].
      rewrite Hitems. cbn [bind fst snd].
      rewrite (rings_processed _ _ _ _ Hprocessed).
      change (rings (Arr (Arr first :: rest)))
        with (sum_list_with rings (Arr first :: rest)).
      done.
Qed.

Lemma clean_boundaries_counted (boundaries : list boundary)
    (c : FixTrianglesReport.counters) :
  match FixTriangles.clean_boundaries index_remap vertices boundaries with
  | Ok out =>
      FixTrianglesReport.clean_boundaries index_remap vertices boundaries c =
      Ok (out,
          {| FixTrianglesReport.total_removed :=
               FixTrianglesReport.total_removed c
               + Z.of_nat (sum_list_with rings boundaries)
               - Z.of_nat (sum_list_with rings out);
             FixTrianglesReport.total_kept :=
               FixTrianglesReport.total_kept c
               + Z.of_nat (sum_list_with rings out) |})
  | Raise e =>
      FixTrianglesReport.clean_boundaries index_remap vertices boundaries c
        = Raise e
  end.
Proof.
  apply collectS_counted, Forall_forall. intros b _.
  apply process_boundary_counted.
Qed.
End Counted.

(** The report of fix_triangles.py is exact, geometry by geometry: the
    counters change nothing of what is returned, [total_kept] grows by the
    number of rings in the boundaries written back, and [total_removed] by
    the number of rings read that are not written back. *)
Theorem ft_report_exact (index_remap : gmap Z Z) (vertices : list vertex)
    (boundaries : list boundary) (c : FixTrianglesReport.counters) :
  match FixTriangles.clean_boundaries index_remap vertices boundaries with
  | Ok out =>
      FixTrianglesReport.clean_boundaries index_remap vertices boundaries c =
      Ok (out,
          {| FixTrianglesReport.total_removed :=
               FixTrianglesReport.total_removed c
               + Z.of_nat (sum_list_with rings boundaries)
               - Z.of_nat (sum_list_with rings out);
             FixTrianglesReport.total_kept :=
               FixTrianglesReport.total_kept c
               + Z.of_nat (sum_list_with rings out) |})
  | Raise e =>
      FixTrianglesReport.clean_boundaries index_remap vertices boundaries c
        = Raise e
  end.
Proof. exact (clean_boundaries_counted index_remap vertices boundaries c). Qed.

(** *** fix.py *)

Lemma scan_face_counted (vertices : list vertex) (face : boundary)
    (c : FixReport.counters) :
  match Fix.keep_face vertices face with
  | Ok k =>
      FixReport.scan_face vertices face c =
      Ok (if k : bool then Some face else None,
          {| FixReport.total_faces := FixReport.total_faces c + 1;
             FixReport.degenerate_count :=
               FixReport.degenerate_count c + (if k then 0 else 1) |})
  | Raise e => FixReport.scan_face vertices face c = Raise e
  end.
Proof.
  unfold Fix.keep_face, FixReport.scan_face.
  destruct (Fix.triangle_indices face) as [[[x|indices]|]|e]; cbn [bind];
    [done| |by rewrite Z.add_0_r|done].
  destruct (Fix.any_invalid _ indices) as [[|]|e]; cbn [bind]; [done| |done].
  destruct (Fix.vertex_at vertices indices 0) as [p1|e]; cbn [bind]; [|done].
  destruct (Fix.vertex_at vertices indices 1) as [p2|e]; cbn [bind]; [|done].
  destruct (Fix.vertex_at vertices indices 2) as [p3|e]; cbn [bind]; [|done].
  destruct (Fix.triangle_area_sq p1 p2 p3) as [area_sq|e]; cbn [bind]; [|done].
  destruct (num_ltb area_sq Fix.area_epsilon); cbn [negb]; [done|].
  by rewrite Z.add_0_r.
Qed.

Lemma filter_boundaries_counted (vertices : list vertex)
    (boundaries : list boundary) :
  forall c,
  match Fix.filter_boundaries vertices boundaries with
  | Ok out =>
      FixReport.filter_boundaries vertices boundaries c =
      Ok (out,
          {| FixReport.total_faces :=
               FixReport.total_faces c + Z.of_nat (length boundaries);
             FixReport.degenerate_count :=
               FixReport.degenerate_count c + Z.of_nat (length boundaries)
               - Z.of_nat (length out) |})
  | Raise e => FixReport.filter_boundaries vertices boundaries c = Raise e
  end.
Proof.
  unfold FixReport.filter_boundaries.
  induction boundaries as [|face rest IH]; intros c.
  - change (Fix.filter_boundaries vertices []) with (@Ok (list boundary) []).
    cbn [collectS length]. do 2 f_equal. destruct c. simpl. f_equal; lia.
  - rewrite filter_boundaries_cons, collectS_cons.
    pose proof (scan_face_counted vertices face c) as Hface.
    destruct (Fix.keep_face vertices face) as [k|e]; [|by rewrite Hface].
    rewrite Hface. cbn [bind fst snd].
    match goal with
    | |- context [collectS _ rest ?c1] => specialize (IH c1)
    end.
    destruct (Fix.filter_boundaries vertices rest) as [out|e];
      [|by rewrite IH].
    rewrite IH. cbn [bind fst snd].
    cbn [FixReport.total_faces FixReport.degenerate_count].
    destruct k; cbn [length]; do 2 f_equal; f_equal; lia.
Qed.

(** The report of fix.py is exact, geometry by geometry: the counters
    change nothing of what is kept, [total_faces] grows by the number of
    faces read and [degenerate_count] by the number of faces left out. *)
Theorem fix_report_exact (vertices : list vertex)
    (boundaries : list boundary) (c : FixReport.counters) :
  match Fix.filter_boundaries vertices boundaries with
  | Ok out =>
      FixReport.filter_boundaries vertices boundaries c =
      Ok (out,
          {| FixReport.total_faces :=
               FixReport.total_faces c + Z.of_nat (length boundaries);
             FixReport.degenerate_count :=
               FixReport.degenerate_count c + Z.of_nat (length boundaries)
               - Z.of_nat (length out) |})
  | Raise e => FixReport.filter_boundaries vertices boundaries c = Raise e
  end.
Proof. exact (filter_boundaries_counted vertices boundaries c). Qed.

End Reports.


(** ** The runs on a whole document *)

Section Documents.
Context {libm : Libm}.

Section Loops.
Context {A B S : Type} (f : A -> S -> result (B * S)).

Lemma mapS_Ok_cons (x : A) (l : list A) (s : S) (out : list B) (s' : S) :
  mapS f (x :: l) s = Ok (out, s') ->
  exists y s1 ys,
    f x s = Ok (y, s1) /\ mapS f l s1 = Ok (ys, s') /\ out = y :: ys.
Proof.
  rewrite mapS_cons. destruct (f x s) as [[y s1]|e] eqn:Hx; [|done].
  cbn [bind snd fst].
  destruct (mapS f l s1) as [[ys s2]|e] eqn:Hl; [|done]. cbn [bind snd fst].
  intros [= <- <-]. by exists y, s1, ys.
Qed.

Lemma mapS_sum_out (phi : S -> Z) (w : B -> nat) :
  (forall x s y s', f x s = Ok (y, s') -> phi s' = phi s + Z.of_nat (w y)) ->
  forall l s out s',
    mapS f l s = Ok (out, s') ->
    phi s' = phi s + Z.of_nat (sum_list_with w out).
Proof.
  intros Hf. induction l as [|x l IH]; intros s out s'.
  - intros [= <- <-]. simpl. lia.
  - intros (y & s1 & ys & Hx & Hl & ->)%mapS_Ok_cons.
    apply Hf in Hx. apply IH in Hl. cbn [sum_list_with]. lia.
Qed.

Lemma mapS_sum_in (phi : S -> Z) (w : A -> nat) :
  (forall x s y s', f x s = Ok (y, s') -> phi s' = phi s + Z.of_nat (w x)) ->
  forall l s out s',
    mapS f l s = Ok (out, s') ->
    phi s' = phi s + Z.of_nat (sum_list_with w l).
Proof.
  intros Hf. induction l as [|x l IH]; intros s out s'.
  - intros [= <- <-]. simpl. lia.
  - intros (y & s1 & ys & Hx & Hl & ->)%mapS_Ok_cons.
    apply Hf in Hx. apply IH in Hl. cbn [sum_list_with]. lia.
Qed.
End Loops.

Lemma mapS_again {A S T : Type} (f : A -> S -> result (A * S))
    (g : A -> T -> result (A * T)) :
  (forall x s y s', f x s = Ok (y, s') -> forall t, exists t', g y t = Ok (y, t')) ->
  forall l s out s',
    mapS f l s = Ok (out, s') ->
    forall t, exists t', mapS g out t = Ok (out, t').
Proof.
  intros Hf. induction l as [|x l IH]; intros s out s'.
  - intros [= <- <-] t. by exists t.
  - intros (y & s1 & ys & Hx & Hl & ->)%mapS_Ok_cons t.
    destruct (Hf _ _ _ _ Hx t) as [t1 Hy].
    destruct (IH _ _ _ Hl t1) as [t' Hys].
    exists t'. rewrite mapS_cons, Hy. cbn [bind fst snd]. by rewrite Hys.
Qed.

Section Walk.
Context {S : Type} (f : list boundary -> S -> result (list boundary * S)).

Lemma update_geom_Ok (g g' : CityJSON.geom) (s s' : S) :
  CityJSON.update_geom f g s = Ok (g', s') ->
  (CityJSON.boundaries g = None /\ g' = g /\ s' = s) \/
  (exists bs out,
     CityJSON.boundaries g = Some bs /\ f bs s = Ok (out, s') /\
     g' = {| CityJSON.boundaries := Some out |}).
Proof.
  unfold CityJSON.update_geom.
  destruct (CityJSON.boundaries g) as [bs|] eqn:Hbs;
    [|intros [= <- <-]; by left].
  destruct (f bs s) as [[out s1]|e] eqn:Hout; [|done]. cbn [bind fst snd].
  intros [= <- <-]. right. by exists bs, out.
Qed.

Lemma update_object_Ok (o o' : CityJSON.city_object) (s s' : S) :
  CityJSON.update_object f o s = Ok (o', s') ->
  (CityJSON.geometry o = None /\ o' = o /\ s' = s) \/
  (exists geoms geoms',
     CityJSON.geometry o = Some geoms /\
     mapS (CityJSON.update_geom f) geoms s = Ok (geoms', s') /\
     o' = {| CityJSON.geometry := Some geoms' |}).
Proof.
  unfold CityJSON.update_object.
  destruct (CityJSON.geometry o) as [geoms|] eqn:Hgeoms;
    [|intros [= <- <-]; by left].
  destruct (mapS _ geoms s) as [[geoms' s1]|e] eqn:Hout; [|done].
  cbn [bind fst snd]. intros [= <- <-]. right. by exists geoms, geoms'.
Qed.

Lemma update_objects_sum_out (phi : S -> Z) (w : list boundary -> nat) :
  (forall bs s out s',
     f bs s = Ok (out, s') -> phi s' = phi s + Z.of_nat (w out)) ->
  forall objects s objects' s',
    CityJSON.update_objects f objects s = Ok (objects', s') ->
    phi s' = phi s + Z.of_nat (CityJSON.doc_sum w objects').
Proof.
  intros Hf. apply mapS_sum_out.
  intros o s o' s' [(Hnone & -> & ->)|(geoms & geoms' & Hg & Hrun & ->)]%update_object_Ok.
  - unfold CityJSON.object_sum. rewrite Hnone. lia.
  - unfold CityJSON.object_sum. cbn [CityJSON.geometry].
    revert Hrun. apply mapS_sum_out. clear - Hf.
    intros g s g' s' [(Hnone & -> & ->)|(bs & out & Hb & Hrun & ->)]%update_geom_Ok.
    + unfold CityJSON.geom_sum. rewrite Hnone. lia.
    + unfold CityJSON.geom_sum. cbn [CityJSON.boundaries]. by eapply Hf.
Qed.

Lemma update_objects_sum_in (phi : S -> Z) (w : list boundary -> nat) :
  (forall bs s out s',
     f bs s = Ok (out, s') -> phi s' = phi s + Z.of_nat (w bs)) ->
  forall objects s objects' s',
    CityJSON.update_objects f objects s = Ok (objects', s') ->
    phi s' = phi s + Z.of_nat (CityJSON.doc_sum w objects).
Proof.
  intros Hf. apply mapS_sum_in.
  intros o s o' s' [(Hnone & -> & ->)|(geoms & geoms' & Hg & Hrun & ->)]%update_object_Ok.
  - unfold CityJSON.object_sum. rewrite Hnone. lia.
  - unfold CityJSON.object_sum. rewrite Hg.
    revert Hrun. apply mapS_sum_in. clear - Hf.
    intros g s g' s' [(Hnone & -> & ->)|(bs & out & Hb & Hrun & ->)]%update_geom_Ok.
    + unfold CityJSON.geom_sum. rewrite Hnone. lia.
    + unfold CityJSON.geom_sum. rewrite Hb. by eapply Hf.
Qed.
End Walk.

Lemma update_objects_again {S T : Type}
    (f : list boundary -> S -> result (list boundary * S))
    (g : list boundary -> T -> result (list boundary * T)) :
  (forall bs s out s',
     f bs s = Ok (out, s') -> forall t, exists t', g out t = Ok (out, t')) ->
  forall objects s objects' s',
    CityJSON.update_objects f objects s = Ok (objects', s') ->
    forall t, exists t', CityJSON.update_objects g objects' t = Ok (objects', t').
Proof.
  intros Hf. apply mapS_again.
  intros o s o' s' [(Hnone & -> & ->)|(geoms & geoms' & Hg & Hrun & ->)]%update_object_Ok t.
  - exists t. unfold CityJSON.update_object. by rewrite Hnone.
  - unfold CityJSON.update_object. cbn [CityJSON.geometry].
    destruct (mapS_again (CityJSON.update_geom f) (CityJSON.update_geom g))
      with (l := geoms) (s := s) (out := geoms') (s' := s') (t := t)
      as [t' Hagain]; [|done|].
    + clear - Hf. intros x s y s' [(Hnone & -> & ->)|(bs & out & Hb & Hrun & ->)]%update_geom_Ok t.
      * exists t. unfold CityJSON.update_geom. by rewrite Hnone.
      * destruct (Hf _ _ _ _ Hrun t) as [t' Hout].
        exists t'. unfold CityJSON.update_geom. cbn [CityJSON.boundaries].
        by rewrite Hout.
    + exists t'. by rewrite Hagain.
Qed.

(** *** fix_triangles.py *)

Lemma clean_boundaries_again (precision : nat) (old_vertices : list vertex)
    (boundaries out : list boundary) :
  let st := FixTriangles.weld precision old_vertices in
  let st' := FixTriangles.weld precision (FixTriangles.new_vertices st) in
  FixTriangles.clean_boundaries (FixTriangles.index_remap st)
    (FixTriangles.new_vertices st) boundaries = Ok out ->
  FixTriangles.clean_boundaries (FixTriangles.index_remap st')
    (FixTriangles.new_vertices st) out = Ok out.
Proof.
  intros st st'. subst st st'. unfold FixTriangles.clean_boundaries.
  intros Hc.
  assert (Forall (checked (FixTriangles.new_vertices
                             (FixTriangles.weld precision old_vertices)))
            out) as Hchecked.
  { eapply collectM_Ok_Forall; [|exact Hc].
    apply Forall_forall. intros b _ o.
    apply process_boundary_checked. apply ft_index_remap_valid. }
  destruct (ft_weld_welded precision old_vertices) as [Hnv Hidx].
  rewrite collectM_all_kept; [done|].
  eapply Forall_impl; [exact Hchecked|]. intros b Hb.
  apply process_checked_unchanged; [|done].
  intros j Hj. rewrite Hidx. unfold valid_index in Hj.
  by rewrite bool_decide_eq_true_2.
Qed.

Lemma ftr_clean_boundaries_Ok (index_remap : gmap Z Z)
    (vertices : list vertex) (boundaries out : list boundary)
    (c c' : FixTrianglesReport.counters) :
  FixTrianglesReport.clean_boundaries index_remap vertices boundaries c
    = Ok (out, c') ->
  FixTriangles.clean_boundaries index_remap vertices boundaries = Ok out /\
  FixTrianglesReport.total_kept c' =
    FixTrianglesReport.total_kept c + Z.of_nat (sum_list_with rings out) /\
  FixTrianglesReport.total_kept c' + FixTrianglesReport.total_removed c' =
    FixTrianglesReport.total_kept c + FixTrianglesReport.total_removed c
    + Z.of_nat (sum_list_with rings boundaries).
Proof.
  pose proof (clean_boundaries_counted index_remap vertices boundaries c)
    as Hcounted.
  destruct (FixTriangles.clean_boundaries index_remap vertices boundaries)
    as [out0|e]; rewrite Hcounted; [|done].
  intros [= <- <-]. cbn. split_and!; [done|done|lia].
Qed.

(** The report of a whole run of fix_triangles.py is exact: "kept" is the
    number of rings in the document written, "kept" plus "removed" the
    number of rings in the document read. A second run on the written
    document writes the same document, keeps as many and removes none. *)
Theorem ft_run_report (precision : nat) (data data' : CityJSON.cityjson)
    (c : FixTrianglesReport.counters) :
  FixTrianglesReport.run precision data = Ok (data', c) ->
  FixTrianglesReport.total_kept c =
    Z.of_nat (CityJSON.doc_sum (sum_list_with rings)
                (CityJSON.CityObjects data')) /\
  FixTrianglesReport.total_kept c + FixTrianglesReport.total_removed c =
    Z.of_nat (CityJSON.doc_sum (sum_list_with rings)
                (CityJSON.CityObjects data)) /\
  FixTrianglesReport.run precision data' =
    Ok (data', {| FixTrianglesReport.total_removed := 0;
                  FixTrianglesReport.total_kept :=
                    FixTrianglesReport.total_kept c |}).
Proof.
  unfold FixTrianglesReport.run at 1.
  destruct (CityJSON.update_objects _ _ _) as [[objects' c1]|e] eqn:Hrun;
    [|done].
  cbn [bind fst snd]. intros [= <- <-]. cbn [CityJSON.CityObjects].
  set (st := FixTriangles.weld precision (CityJSON.vertices data)) in *.
  pose proof (update_objects_sum_out _ FixTrianglesReport.total_kept
                (sum_list_with rings)
                (fun bs s out s' H => proj1 (proj2 (ftr_clean_boundaries_Ok _ _ _ _ _ _ H)))
                _ _ _ _ Hrun) as Hkept.
  pose proof (update_objects_sum_in _
                (fun c => FixTrianglesReport.total_kept c
                          + FixTrianglesReport.total_removed c)
                (sum_list_with rings)
                (fun bs s out s' H => proj2 (proj2 (ftr_clean_boundaries_Ok _ _ _ _ _ _ H)))
                _ _ _ _ Hrun) as Hall.
  cbn in Hkept, Hall. split; [lia|]. split; [lia|].
  unfold FixTrianglesReport.run. cbn [CityJSON.vertices CityJSON.CityObjects
                                      CityJSON.metadata].
  destruct (ft_weld_welded precision (CityJSON.vertices data)) as [Hnv Hidx].
  fold st in Hnv, Hidx.
  set (st' := FixTriangles.weld precision (FixTriangles.new_vertices st)) in *.
  rewrite Hnv.
  destruct (update_objects_again
              (FixTrianglesReport.clean_boundaries
                 (FixTriangles.index_remap st) (FixTriangles.new_vertices st))
              (FixTrianglesReport.clean_boundaries
                 (FixTriangles.index_remap st') (FixTriangles.new_vertices st)))
    with (objects := CityJSON.CityObjects data)
         (s := {| FixTrianglesReport.total_removed := 0;
                  FixTrianglesReport.total_kept := 0 |})
         (objects' := objects') (s' := c1)
         (t := {| FixTrianglesReport.total_removed := 0;
                  FixTrianglesReport.total_kept := 0 |})
    as [c2 Hagain]; [|exact Hrun|].
  { intros bs s out s' [Hclean _]%ftr_clean_boundaries_Ok t.
    apply clean_boundaries_again in Hclean. fold st st' in Hclean.
    pose proof (clean_boundaries_counted (FixTriangles.index_remap st')
                  (FixTriangles.new_vertices st) out t) as Hcounted.
    rewrite Hclean in Hcounted. eauto. }
  rewrite Hagain. cbn [bind fst snd].
  pose proof (update_objects_sum_out _ FixTrianglesReport.total_kept
                (sum_list_with rings)
                (fun bs s out s' H => proj1 (proj2 (ftr_clean_boundaries_Ok _ _ _ _ _ _ H)))
                _ _ _ _ Hagain) as Hkept2.
  pose proof (update_objects_sum_in _
                (fun c => FixTrianglesReport.total_kept c
                          + FixTrianglesReport.total_removed c)
                (sum_list_with rings)
                (fun bs s out s' H => proj2 (proj2 (ftr_clean_boundaries_Ok _ _ _ _ _ _ H)))
                _ _ _ _ Hagain) as Hall2.
  cbn in Hkept2, Hall2. do 2 f_equal. apply counters_eq; lia.
Qed.

(** *** fix.py *)

Lemma fr_filter_boundaries_Ok (vertices : list vertex)
    (boundaries out : list boundary) (c c' : FixReport.counters) :
  FixReport.filter_boundaries vertices boundaries c = Ok (out, c') ->
  Fix.filter_boundaries vertices boundaries = Ok out /\
  FixReport.total_faces c' =
    FixReport.total_faces c + Z.of_nat (length boundaries) /\
  FixReport.total_faces c' - FixReport.degenerate_count c' =
    FixReport.total_faces c - FixReport.degenerate_count c
    + Z.of_nat (length out).
Proof.
  pose proof (filter_boundaries_counted vertices boundaries c) as Hcounted.
  destruct (Fix.filter_boundaries vertices boundaries) as [out0|e];
    rewrite Hcounted; [|done].
  intros [= <- <-]. cbn. split_and!; [done|done|lia].
Qed.

(** The report of a whole run of fix.py is exact: "Total faces scanned" is
    the number of faces in the document read and "Removed" the number of
    faces that the document written no longer has. A second run on the
    written document writes it again and removes nothing. *)
Theorem fix_run_report (cm cm' : CityJSON.cityjson) (c : FixReport.counters) :
  FixReport.run cm = Ok (cm', c) ->
  FixReport.total_faces c =
    Z.of_nat (CityJSON.doc_sum length (CityJSON.CityObjects cm)) /\
  FixReport.degenerate_count c =
    Z.of_nat (CityJSON.doc_sum length (CityJSON.CityObjects cm))
    - Z.of_nat (CityJSON.doc_sum length (CityJSON.CityObjects cm')) /\
  FixReport.run cm' =
    Ok (cm', {| FixReport.total_faces :=
                  Z.of_nat (CityJSON.doc_sum length (CityJSON.CityObjects cm'));
                FixReport.degenerate_count := 0 |}).
Proof.
  unfold FixReport.run at 1.
  destruct (CityJSON.update_objects _ _ _) as [[objects' c1]|e] eqn:Hrun;
    [|done].
  cbn [bind fst snd]. intros [= <- <-]. cbn [CityJSON.CityObjects].
  pose proof (update_objects_sum_in _ FixReport.total_faces length
                (fun bs s out s' H => proj1 (proj2 (fr_filter_boundaries_Ok _ _ _ _ _ H)))
                _ _ _ _ Hrun) as Hfaces.
  pose proof (update_objects_sum_out _
                (fun c => FixReport.total_faces c - FixReport.degenerate_count c)
                length
                (fun bs s out s' H => proj2 (proj2 (fr_filter_boundaries_Ok _ _ _ _ _ H)))
                _ _ _ _ Hrun) as Hkept.
  cbn in Hfaces, Hkept. split; [lia|]. split; [lia|].
  unfold FixReport.run. cbn [CityJSON.vertices CityJSON.CityObjects
                             CityJSON.metadata].
  destruct (update_objects_again
              (FixReport.filter_boundaries (CityJSON.vertices cm))
              (FixReport.filter_boundaries (CityJSON.vertices cm)))
    with (objects := CityJSON.CityObjects cm)
         (s := {| FixReport.total_faces := 0; FixReport.degenerate_count := 0 |})
         (objects' := objects') (s' := c1)
         (t := {| FixReport.total_faces := 0; FixReport.degenerate_count := 0 |})
    as [c2 Hagain]; [|exact Hrun|].
  { intros bs s out s' [Hfilter _]%fr_filter_boundaries_Ok t.
    apply filter_boundaries_kept in Hfilter as (_ & Hall & _).
    assert (Fix.filter_boundaries (CityJSON.vertices cm) out = Ok out)
      as Hout.
    { induction Hall as [|face rest Hface _ IH]; [done|].
      rewrite filter_boundaries_cons, Hface. cbn [bind]. by rewrite IH. }
    pose proof (filter_boundaries_counted (CityJSON.vertices cm) out t)
      as Hcounted.
    rewrite Hout in Hcounted. eauto. }
  rewrite Hagain. cbn [bind fst snd].
  pose proof (update_objects_sum_in _ FixReport.total_faces length
                (fun bs s out s' H => proj1 (proj2 (fr_filter_boundaries_Ok _ _ _ _ _ H)))
                _ _ _ _ Hagain) as Hfaces2.
  pose proof (update_objects_sum_out _
                (fun c => FixReport.total_faces c - FixReport.degenerate_count c)
                length
                (fun bs s out s' H => proj2 (proj2 (fr_filter_boundaries_Ok _ _ _ _ _ H)))
                _ _ _ _ Hagain) as Hkept2.
  cbn in Hfaces2, Hkept2. do 2 f_equal. destruct c2 as [tf dc].
  cbn in *. f_equal; lia.
Qed.

(** *** cleaner.py *)

Lemma update_boundaries_again (precision : nat) (old_vertices : list vertex)
    (boundaries out : list boundary) :
  let st := Cleaner.weld precision old_vertices in
  let st' := Cleaner.weld precision (Cleaner.new_vertices st) in
  Cleaner.update_boundaries (Cleaner.index_mapping st) boundaries = Ok out ->
  Cleaner.update_boundaries (Cleaner.index_mapping st') out = Ok out.
Proof.
  intros st st'. subst st st'.
  intros [Hvalid _]%update_boundaries_valid.
  destruct (cl_weld_welded precision old_vertices) as [_ ->].
  unfold Cleaner.update_boundaries.
  induction Hvalid as [|o out Ho _ IH]; [done|].
  rewrite mapM_cons, update_item_identity, IH; done.
Qed.

(** A whole run of cleaner.py is idempotent: run on the document it wrote,
    it writes the same document, the reference system included, whether
    it was there before or added by the first run. *)
Theorem cleaner_run_idempotent (precision : nat)
    (cm cm' : CityJSON.cityjson) :
  CleanerRun.run precision cm = Ok cm' ->
  CleanerRun.run precision cm' = Ok cm'.
Proof.
  unfold CleanerRun.run at 1.
  destruct (CityJSON.update_objects _ _ _) as [[objects' u]|e] eqn:Hrun;
    [|done].
  cbn [bind fst snd]. intros [= <-].
  unfold CleanerRun.run. cbn [CityJSON.vertices CityJSON.CityObjects
                              CityJSON.metadata].
  set (st := Cleaner.weld precision (CityJSON.vertices cm)) in *.
  destruct (cl_weld_welded precision (CityJSON.vertices cm)) as [Hnv _].
  fold st in Hnv.
  set (st' := Cleaner.weld precision (Cleaner.new_vertices st)) in *.
  destruct (update_objects_again
              (fun boundaries (_ : unit) =>
                 updated <- Cleaner.update_boundaries
                              (Cleaner.index_mapping st) boundaries ;;
                 Ok (updated, tt))
              (fun boundaries (_ : unit) =>
                 updated <- Cleaner.update_boundaries
                              (Cleaner.index_mapping st') boundaries ;;
                 Ok (updated, tt)))
    with (objects := CityJSON.CityObjects cm) (s := tt)
         (objects' := objects') (s' := u) (t := tt)
    as [u' Hagain]; [|exact Hrun|].
  { intros bs s out s' Hbs t.
    destruct (Cleaner.update_boundaries (Cleaner.index_mapping st) bs)
      as [updated|e] eqn:Hupdated; [|done].
    injection Hbs as <- <-.
    apply update_boundaries_again in Hupdated. fold st st' in Hupdated.
    exists tt. by rewrite Hupdated. }
  rewrite Hagain, Hnv. cbn [bind fst]. do 2 f_equal.
  by destruct (CityJSON.metadata cm) as [[crs|]|].
Qed.

End Documents.

Section DocumentsExamples.
#[local] Existing Instance rounding_libm.

Lemma ft_run_report_witness :
  FixTrianglesReport.total_kept
    {| FixTrianglesReport.total_removed := 2;
       FixTrianglesReport.total_kept := 1 |} =
  Z.of_nat (CityJSON.doc_sum (sum_list_with rings)
              [ {| CityJSON.geometry := None |};
                {| CityJSON.geometry :=
                     Some [ {| CityJSON.boundaries :=
                                 Some [Arr [int_ring [0; 1; 2]]] |};
                            {| CityJSON.boundaries := None |} ] |} ]).
Proof.
  apply (ft_run_report 6
           {| CityJSON.vertices := right_triangle;
              CityJSON.CityObjects :=
                [ {| CityJSON.geometry := None |};
                  {| CityJSON.geometry :=
                       Some [ {| CityJSON.boundaries :=
                                   Some [Arr [int_ring [0; 0];
                                              int_ring [0; 1; 1]];
                                         Arr [int_ring [0; 1; 2]]] |};
                              {| CityJSON.boundaries := None |} ] |} ];
              CityJSON.metadata := None |}
           {| CityJSON.vertices := right_triangle;
              CityJSON.CityObjects :=
                [ {| CityJSON.geometry := None |};
                  {| CityJSON.geometry :=
                       Some [ {| CityJSON.boundaries :=
                                   Some [Arr [int_ring [0; 1; 2]]] |};
                              {| CityJSON.boundaries := None |} ] |} ];
              CityJSON.metadata := None |}).
  vm_compute. reflexivity.
Defined.

Lemma fix_run_report_witness :
  FixReport.degenerate_count
    {| FixReport.total_faces := 2; FixReport.degenerate_count := 1 |} =
  Z.of_nat 2 - Z.of_nat 1.
Proof.
  apply (fix_run_report
           {| CityJSON.vertices := right_triangle;
              CityJSON.CityObjects :=
                [ {| CityJSON.geometry :=
                       Some [ {| CityJSON.boundaries :=
                                   Some [Arr [Arr [int_ring [0; 1; 1]]];
                                         Arr [Arr [int_ring [0; 1; 2]]]] |} ] |} ];
              CityJSON.metadata := None |}
           {| CityJSON.vertices := right_triangle;
              CityJSON.CityObjects :=
                [ {| CityJSON.geometry :=
                       Some [ {| CityJSON.boundaries :=
                                   Some [Arr [Arr [int_ring [0; 1; 2]]]] |} ] |} ];
              CityJSON.metadata := None |}).
  vm_compute. reflexivity.
Defined.

Lemma cleaner_run_idempotent_witness :
  CleanerRun.run 5
    {| CityJSON.vertices := right_triangle;
       CityJSON.CityObjects :=
         [ {| CityJSON.geometry :=
                Some [ {| CityJSON.boundaries :=
                            Some [Arr [int_ring [0; 1; 2]]] |} ] |} ];
       CityJSON.metadata := Some (Some CleanerRun.referenceSystem) |} =
  Ok {| CityJSON.vertices := right_triangle;
        CityJSON.CityObjects :=
          [ {| CityJSON.geometry :=
                 Some [ {| CityJSON.boundaries :=
                             Some [Arr [int_ring [0; 1; 2]]] |} ] |} ];
        CityJSON.metadata := Some (Some CleanerRun.referenceSystem) |}.
Proof.
  apply (cleaner_run_idempotent 5
           {| CityJSON.vertices := right_triangle;
              CityJSON.CityObjects :=
                [ {| CityJSON.geometry :=
                       Some [ {| CityJSON.boundaries :=
                                   Some [Arr [int_ring [0; 1; -1]]] |} ] |} ];
              CityJSON.metadata := Some None |}).
  vm_compute. reflexivity.
Defined.

End DocumentsExamples.


(** ** Integer vertices: welded by one script, welded for all *)

Section Survival.
Context {libm : Libm}.

Lemma int_keys_agree (p q : nat) (u v : vertex) :
  int_vertex u -> int_vertex v ->
  tuple_eqb (FixTriangles.rounded q u) (FixTriangles.rounded q v) =
  string_same (Cleaner.vertex_key p u) (Cleaner.vertex_key p v).
Proof.
  intros Hu Hv. rewrite !rounded_int_vertex by done. unfold string_same.
  destruct (tuple_eqb u v) eqn:Huv; symmetry.
  - apply bool_decide_eq_true. apply tuple_eqb_int in Huv; auto. by subst.
  - apply bool_decide_eq_false. intros Hkey.
    apply vertex_key_int_inj in Hkey; auto.
    apply tuple_eqb_int in Hkey; auto. congruence.
Qed.

Lemma int_string_keys_agree (p q : nat) (u v : vertex) :
  int_vertex u -> int_vertex v ->
  string_same (Cleaner.vertex_key q u) (Cleaner.vertex_key q v) =
  string_same (Cleaner.vertex_key p u) (Cleaner.vertex_key p v).
Proof.
  intros Hu Hv.
  by rewrite <- (int_keys_agree q q), <- (int_keys_agree p q).
Qed.

Lemma int_welds_agree (p q : nat) (vs : list vertex) :
  Forall int_vertex vs ->
  abs_weld (FixTriangles.rounded q) tuple_eqb vs =
    abs_weld (Cleaner.vertex_key p) string_same vs /\
  abs_weld (Cleaner.vertex_key q) string_same vs =
    abs_weld (Cleaner.vertex_key p) string_same vs.
Proof.
  intros Hints. rewrite Forall_forall in Hints. split.
  - apply abs_weld_keys_agree. intros u v Hu Hv.
    apply int_keys_agree; auto.
  - apply abs_weld_keys_agree. intros u v Hu Hv.
    apply int_string_keys_agree; auto.
Qed.

(** On vertices whose coordinates are all [int]s the welding does not
    depend on the script or on its precision: fix_triangles.py at any
    precision keeps the vertices that cleaner.py and repair_geometry.py
    keep at any other, and once one script has welded, no script merges
    anything more. *)
Theorem int_vertices_welded_once (p q : nat) (old_vertices : list vertex) :
  Forall int_vertex old_vertices ->
  let nv := Cleaner.new_vertices (Cleaner.weld p old_vertices) in
  FixTriangles.new_vertices (FixTriangles.weld q old_vertices) = nv /\
  Cleaner.new_vertices (Cleaner.weld q old_vertices) = nv /\
  FixTriangles.new_vertices (FixTriangles.weld q nv) = nv /\
  Cleaner.new_vertices (Cleaner.weld q nv) = nv.
Proof.
  intros Hints nv.
  assert (forall vs, Forall int_vertex vs ->
            FixTriangles.new_vertices (FixTriangles.weld q vs)
              = Cleaner.new_vertices (Cleaner.weld p vs) /\
            Cleaner.new_vertices (Cleaner.weld q vs)
              = Cleaner.new_vertices (Cleaner.weld p vs)) as Hagree.
  { intros vs Hvs.
    destruct (ft_weld_related q vs) as (-> & _).
    destruct (cl_weld_related q vs) as (-> & _).
    destruct (cl_weld_related p vs) as (-> & _).
    destruct (int_welds_agree p q vs Hvs) as [-> ->]. done. }
  assert (Forall int_vertex nv) as Hnv.
  { subst nv. destruct (cl_weld_related p old_vertices) as (-> & _).
    rewrite Forall_forall in Hints. apply Forall_forall. intros v Hv.
    by apply Hints, (abs_weld_subset (Cleaner.vertex_key p) string_same). }
  destruct (Hagree old_vertices Hints) as [H1 H2].
  destruct (Hagree nv Hnv) as [H3 H4].
  destruct (cl_weld_welded p old_vertices) as [Hsame _]. fold nv in Hsame.
  rewrite Hsame in H3, H4. done.
Qed.

(** ** Which rings fix_triangles.py keeps *)

Lemma remap_ints_Forall2 (index_remap : gmap Z Z) (idxs remapped : list Z) :
  Forall2 (fun i j => index_remap !! i = Some j) idxs remapped ->
  mapM (FixTriangles.remap_index index_remap)
    (map (fun i => Num (PyInt i)) idxs) = Ok remapped.
Proof.
  induction 1 as [|i j idxs remapped Hij _ IH]; [done|].
  cbn [map]. rewrite mapM_cons.
  cbn [FixTriangles.remap_index py_int bind]. rewrite Hij. cbn [bind].
  by rewrite IH.
Qed.

Lemma ring_survives (index_remap : gmap Z Z) (pts : list (Z * Z * Z))
    (idxs remapped : list Z) :
  idxs <> [] ->
  Forall2 (fun i j => index_remap !! i = Some j /\
                      0 <= j < Z.of_nat (length pts)) idxs remapped ->
  exists r,
    FixTriangles.process_boundary index_remap (int_point <$> pts)
      (int_ring idxs) = Ok r /\
    (survives pts remapped -> r = Some (int_ring remapped)) /\
    (~ survives pts remapped -> r = None).
Proof.
  intros Hne Hall.
  assert (mapM (FixTriangles.remap_index index_remap)
            (map (fun i => Num (PyInt i)) idxs) = Ok remapped) as Hmap.
  { apply remap_ints_Forall2. eapply Forall2_impl; [exact Hall|].
    by intros i j [? _]. }
  assert (Forall (fun j => 0 <= j < Z.of_nat (length pts)) remapped) as Hvalid.
  { clear Hmap Hne.
    induction Hall as [|i j ? ? [_ Hj] _ IH]; constructor; [exact Hj|exact IH]. }
  destruct idxs as [|i rest]; [done|].
  unfold int_ring at 1. cbn [map]. rewrite process_boundary_leaf.
  change (Num (PyInt i) :: map (fun i0 => Num (PyInt i0)) rest)
    with (map (fun i0 => Num (PyInt i0)) (i :: rest)).
  unfold FixTriangles.process_ring. rewrite Hmap. cbn [bind].
  unfold FixTriangles.clean_ring.
  rewrite unique_remove_closing, unique_remove_consecutive.
  unfold survives.
  pose proof (unique_NoDup remapped) as Hnodup.
  assert (forall x, x ∈ unique remapped -> 0 <= x < Z.of_nat (length pts))
    as Hin.
  { intros x Hx. rewrite Forall_forall in Hvalid.
    exact (Hvalid x (proj1 (elem_of_unique remapped x) Hx)). }
  destruct (unique remapped) as [|a [|b [|c [|d more]]]] eqn:Hu.
  - exists None. split; [done|]. split; [simpl; lia|done].
  - exists None. split; [done|]. split; [simpl; lia|done].
  - exists None. split; [done|]. split; [simpl; lia|done].
  - assert (0 <= a < Z.of_nat (length pts)) as Ha
      by (apply Hin; rewrite !elem_of_cons; tauto).
    assert (0 <= b < Z.of_nat (length pts)) as Hb
      by (apply Hin; rewrite !elem_of_cons; tauto).
    assert (0 <= c < Z.of_nat (length pts)) as Hc
      by (apply Hin; rewrite !elem_of_cons; tauto).
    apply NoDup_cons in Hnodup as [Hab Hnodup].
    apply NoDup_cons in Hnodup as [Hbc _].
    apply not_elem_of_cons in Hab as [Hab Hac].
    apply not_elem_of_cons in Hac as [Hac _].
    apply not_elem_of_cons in Hbc as [Hbc _].
    destruct (degenerate_on_int_points pts a b c) as (d & -> & Hd); [lia..|].
    cbn [bind]. destruct d.
    + exists None. split; [done|]. split; [|done].
      intros [_ Hcross]. exfalso.
      destruct (proj1 Hd eq_refl)
        as [Heq|[Heq|[Heq|[Hge|[Hge|[Hge|Hcol]]]]]];
        [lia|lia|lia|lia|lia|lia|].
      destruct Hcol as (pa & pb & pc & Hpa & Hpb & Hpc & Hzero).
      by apply (Hcross a b c pa pb pc).
    + exists (Some (int_ring remapped)). split; [done|]. split; [done|].
      intros Hnot. exfalso. apply Hnot. split; [simpl; lia|].
      intros a' b' c' pa pb pc [= <- <- <-] Hpa Hpb Hpc Hzero.
      assert (false = true); [|done]. apply Hd. do 6 right.
      by exists pa, pb, pc.
  - exists (Some (int_ring remapped)). split.
    + by destruct (Z.ltb_spec (Z.of_nat (length (a :: b :: c :: d :: more))) 3);
        [simpl in *; lia|].
    + split; [done|]. intros Hnot. exfalso. apply Hnot.
      split; [simpl; lia|]. intros ? ? ? ? ? ? [=].
Qed.

(** Which rings fix_triangles.py keeps, on vertices with integer
    coordinates: a ring of valid indices is returned, remapped, exactly
    when it has at least three distinct welded vertices and, if it has
    exactly three, they are not collinear; in every other case it is
    dropped. A ring with four or more distinct vertices is kept whatever
    their position. *)
Theorem ring_survives_iff (index_remap : gmap Z Z) (pts : list (Z * Z * Z))
    (idxs remapped : list Z) :
  idxs <> [] ->
  Forall2 (fun i j => index_remap !! i = Some j /\
                      0 <= j < Z.of_nat (length pts)) idxs remapped ->
  exists r,
    FixTriangles.process_boundary index_remap (int_point <$> pts)
      (int_ring idxs) = Ok r /\
    (survives pts remapped -> r = Some (int_ring remapped)) /\
    (~ survives pts remapped -> r = None).
Proof. exact (ring_survives index_remap pts idxs remapped). Qed.

End Survival.

Section SurvivalExamples.
#[local] Existing Instance rounding_libm.

Lemma int_vertices_welded_once_witness :
  FixTriangles.new_vertices
    (FixTriangles.weld 6
       [[PyInt 0; PyInt 0; PyInt 0]; [PyInt 1; PyInt 0; PyInt 0];
        [PyInt 0; PyInt 0; PyInt 0]]) =
  Cleaner.new_vertices
    (Cleaner.weld 5
       [[PyInt 0; PyInt 0; PyInt 0]; [PyInt 1; PyInt 0; PyInt 0];
        [PyInt 0; PyInt 0; PyInt 0]]).
Proof.
  apply (int_vertices_welded_once 5 6
           [[PyInt 0; PyInt 0; PyInt 0]; [PyInt 1; PyInt 0; PyInt 0];
            [PyInt 0; PyInt 0; PyInt 0]]).
  repeat constructor; eexists; reflexivity.
Defined.

Lemma ring_survives_iff_witness :
  exists r,
    FixTriangles.process_boundary
      (FixTriangles.index_remap (FixTriangles.weld 6 collinear))
      (int_point <$> [(0, 0, 0); (1, 0, 0); (2, 0, 0)])
      (int_ring [0; 1; 2]) = Ok r /\
    (survives [(0, 0, 0); (1, 0, 0); (2, 0, 0)] [0; 1; 2] ->
     r = Some (int_ring [0; 1; 2])) /\
    (~ survives [(0, 0, 0); (1, 0, 0); (2, 0, 0)] [0; 1; 2] -> r = None).
Proof.
  apply (ring_survives_iff
           (FixTriangles.index_remap (FixTriangles.weld 6 collinear))
           [(0, 0, 0); (1, 0, 0); (2, 0, 0)] [0; 1; 2] [0; 1; 2]);
    [done|].
  repeat (constructor; [split; [vm_compute; reflexivity|simpl; lia]|]).
  constructor.
Defined.

End SurvivalExamples.


(** ** The indices that reach [is_degenerate_triangle] *)

Section CallSite.
Context {libm : Libm}.




End CallSite.

Section CallSiteExamples.
#[local] Existing Instance rounding_libm.



End CallSiteExamples.

